(** * Bid.cars watcher: change detection and delivery core

    A shallow embedding of [flask_app.py] (the Lexus NX profile) and
    [toyota.py] (the Toyota profile), and the properties of their
    [run_check], [send_telegram_message] and [format_listing_message].

    Conventions.
    - A Python [str] is a [string] holding its UTF-8 bytes; the empty
      string is the only falsy one.
    - A listing is a JSON object: a finite map from attribute names to
      values, a value being a JSON string or [null] (Python [None]);
      numbers and nested values are outside the model.
    - The remote parties (the auction site, the Redis REST endpoint, the
      Telegram API) are an environment [env] that scripts their replies;
      what the program does to them is recorded in the [state]. *)

From Stdlib Require Import String Ascii List ZArith Lia Bool.
From stdpp Require Import base option list gmap sets strings pretty.

Open Scope string_scope.
Open Scope list_scope.

(** ** Python values and strings *)

Inductive value : Type :=
| VNone
| VStr (s : string).

#[global] Instance value_eq_dec : EqDecision value.
Proof. solve_decision. Defined.

(** [bool(v)]: [None] and [''] are falsy. *)
Definition truthy (v : value) : bool :=
  match v with
  | VNone => false
  | VStr s => negb (String.eqb s "")
  end.

(** [str(v)], what an f-string field [{v}] renders. *)
Definition py_str (v : value) : string :=
  match v with
  | VNone => "None"
  | VStr s => s
  end.

(** [a or b] *)
Definition py_or (a b : value) : value := if truthy a then a else b.

Inductive exn : Type :=
| ValueError (msg : string)
| IndexError (msg : string)
| AttributeError (msg : string)
| RequestException (msg : string)
| JSONDecodeError
| Exception_ (msg : string).

Inductive res (A : Type) : Type :=
| Ok (a : A)
| Raise (e : exn).
Arguments Ok {A} a.
Arguments Raise {A} e.

(** *** [str.split()] with no argument

    Splits on runs of Unicode whitespace and drops empty pieces.
    [ws_len s] is the number of bytes of the whitespace character
    encoded at the head of [s], or 0 when the head is not one:
    U+0009..U+000D, U+001C..U+0020, U+0085, U+00A0, U+1680,
    U+2000..U+200A, U+2028, U+2029, U+202F, U+205F, U+3000. *)

Definition byte_in (lo hi : nat) (c : ascii) : bool :=
  (lo <=? nat_of_ascii c)%nat && (nat_of_ascii c <=? hi)%nat.

Definition ws_len (s : string) : nat :=
  match s with
  | EmptyString => 0
  | String c0 s1 =>
      if byte_in 9 13 c0 || byte_in 28 32 c0 then 1
      else
        match s1 with
        | EmptyString => 0
        | String c1 s2 =>
            if byte_in 194 194 c0 then
              (if byte_in 133 133 c1 || byte_in 160 160 c1 then 2 else 0)
            else
              match s2 with
              | EmptyString => 0
              | String c2 _ =>
                  if byte_in 225 225 c0 && byte_in 154 154 c1
                     && byte_in 128 128 c2 then 3
                  else if byte_in 226 226 c0 && byte_in 128 128 c1
                     && (byte_in 128 138 c2 || byte_in 168 169 c2
                         || byte_in 175 175 c2) then 3
                  else if byte_in 226 226 c0 && byte_in 129 129 c1
                     && byte_in 159 159 c2 then 3
                  else if byte_in 227 227 c0 && byte_in 128 128 c1
                     && byte_in 128 128 c2 then 3
                  else 0
              end
        end
  end.

(** Close the token collected so far, if any. *)
Definition emit (tok : string) (rest : list string) : list string :=
  match tok with
  | EmptyString => rest
  | _ => tok :: rest
  end.

(** [skip] counts the bytes still to drop of a whitespace character
    already recognised; [tok] is the token being collected. *)
Fixpoint split_go (skip : nat) (tok : string) (s : string) : list string :=
  match s with
  | EmptyString => emit tok []
  | String c s' =>
      match skip with
      | S k => split_go k tok s'
      | O =>
          match ws_len s with
          | O => split_go O (tok +:+ String c EmptyString) s'
          | S k => emit tok (split_go k EmptyString s')
          end
      end
  end.

Definition split (s : string) : list string := split_go 0 EmptyString s.

(** [l[0]] *)
Definition index0 {A} (l : list A) : res A :=
  match l with
  | [] => Raise (IndexError "list index out of range")
  | x :: _ => Ok x
  end.

(** ** Listings *)

Abbreviation listing := (gmap string value).

(** [listing.get(k)] and [listing.get(k, d)] *)
Definition get (l : listing) (k : string) : value := default VNone (l !! k).
Definition get_or (l : listing) (k : string) (d : string) : value :=
  default (VStr d) (l !! k).

(** ['\n'.join(lines)] *)
Definition LF : string := String (ascii_of_nat 10) EmptyString.
Definition DQ : string := String (ascii_of_nat 34) EmptyString.

Fixpoint join (sep : string) (l : list string) : string :=
  match l with
  | [] => EmptyString
  | [x] => x
  | x :: rest => x +:+ sep +:+ join sep rest
  end.


(** ** The remote parties *)

(** *** Redis behind the Upstash REST endpoint *)

Inductive rvalue : Type :=
| RString (s : string)
| RSet (m : gset string).

Abbreviation db := (gmap string rvalue).

Inductive command : Type :=
| EXISTS (key : string)
| SMEMBERS (key : string)
| SADD (key : string) (values : list string)
| SET (key : string) (v : string).

(** The [result] field of a reply. *)
Inductive reply : Type :=
| RInt (n : nat)
| RStatus (s : string)
| RArray (l : list string).

Definition WRONGTYPE : string :=
  "WRONGTYPE Operation against a key holding the wrong kind of value".

(** What the server does with a command: an [error] field or a [result],
    and the database afterwards. *)
Definition redis_exec (c : command) (d : db) : (string + reply) * db :=
  match c with
  | EXISTS k =>
      (inr (RInt (match d !! k with Some _ => 1 | None => 0 end)), d)
  | SMEMBERS k =>
      match d !! k with
      | None => (inr (RArray []), d)
      | Some (RSet m) => (inr (RArray (elements m)), d)
      | Some (RString _) => (inl WRONGTYPE, d)
      end
  | SADD k vs =>
      match vs with
      | [] => (inl "ERR wrong number of arguments for 'sadd' command", d)
      | _ =>
          match d !! k with
          | None =>
              (inr (RInt (size (list_to_set vs : gset string))),
               <[k := RSet (list_to_set vs)]> d)
          | Some (RSet m) =>
              (inr (RInt (size (list_to_set vs ∖ m : gset string))),
               <[k := RSet (m ∪ list_to_set vs)]> d)
          | Some (RString _) => (inl WRONGTYPE, d)
          end
      end
  | SET k v => (inr (RStatus "OK"), <[k := RString v]> d)
  end.

(** The members stored under a key, as [SMEMBERS] would list them. *)
Definition members (d : db) (k : string) : gset string :=
  match d !! k with
  | Some (RSet m) => m
  | _ => ∅
  end.

(** What happens to one HTTP round trip to the store. *)
Inductive net : Type :=
| Delivered
| LostRequest
| LostReply.

(** *** The Telegram Bot API *)

Inductive tg_body : Type :=
| TgBadJson
| TgJson (fields : gmap string bool).

Inductive tg_reply : Type :=
| TgUnreachable
| TgResponse (http_ok : bool) (body : tg_body).

Record tg_call : Type := { tg_token : string; tg_chat_id : string; tg_text : string }.

(** *** The auction site, seen through the browser session *)

Inductive site_body : Type :=
| BadJson
| Payload (p : gmap string (list listing)).

Inductive site_reply : Type :=
| SiteUnreachable
| SiteResponse (status : nat) (body : site_body).

(** *** Environment and state *)

Record env : Type := {
  environ : gmap string string;
  site : string → nat → site_reply;
  redis_net : nat → net;
  telegram : nat → tg_reply
}.

Inductive log_record : Type :=
| INFO (msg : string)
| WARNING (msg : string)
| ERROR (msg : string).

Record state : Type := {
  redis : db;
  redis_log : list command;
  outbox : list tg_call;
  site_log : list string;
  logged : list log_record;
  sleeps : nat
}.

Definition with_redis (d : db) (σ : state) : state :=
  {| redis := d; redis_log := redis_log σ; outbox := outbox σ;
     site_log := site_log σ; logged := logged σ; sleeps := sleeps σ |}.
Definition with_redis_log (l : list command) (σ : state) : state :=
  {| redis := redis σ; redis_log := l; outbox := outbox σ;
     site_log := site_log σ; logged := logged σ; sleeps := sleeps σ |}.
Definition with_outbox (l : list tg_call) (σ : state) : state :=
  {| redis := redis σ; redis_log := redis_log σ; outbox := l;
     site_log := site_log σ; logged := logged σ; sleeps := sleeps σ |}.
Definition with_site_log (l : list string) (σ : state) : state :=
  {| redis := redis σ; redis_log := redis_log σ; outbox := outbox σ;
     site_log := l; logged := logged σ; sleeps := sleeps σ |}.
Definition with_logged (l : list log_record) (σ : state) : state :=
  {| redis := redis σ; redis_log := redis_log σ; outbox := outbox σ;
     site_log := site_log σ; logged := l; sleeps := sleeps σ |}.
Definition with_sleeps (n : nat) (σ : state) : state :=
  {| redis := redis σ; redis_log := redis_log σ; outbox := outbox σ;
     site_log := site_log σ; logged := logged σ; sleeps := n |}.

(** ** State and exceptions *)

Definition M (A : Type) : Type := state → res A * state.

Definition ret {A} (a : A) : M A := λ σ, (Ok a, σ).
Definition raise {A} (e : exn) : M A := λ σ, (Raise e, σ).
Definition bind {A B} (m : M A) (k : A → M B) : M B :=
  λ σ, match m σ with
       | (Ok a, σ') => k a σ'
       | (Raise e, σ') => (Raise e, σ')
       end.
(** [try: m  except Exception as e: h e] *)
Definition try_except {A} (m : M A) (h : exn → M A) : M A :=
  λ σ, match m σ with
       | (Ok a, σ') => (Ok a, σ')
       | (Raise e, σ') => h e σ'
       end.
Definition lift {A} (r : res A) : M A := λ σ, (r, σ).

Notation "'let*' x := m 'in' k" := (bind m (λ x, k))
  (at level 10, x name, m at level 100, k at level 200).

Definition logger (r : log_record) : M unit :=
  λ σ, (Ok tt, with_logged (logged σ ++ [r]) σ).

(** [time.sleep(0.5)] *)
Definition sleep_half_second : M unit :=
  λ σ, (Ok tt, with_sleeps (S (sleeps σ)) σ).

(** [str(e)] *)
Definition exn_str (e : exn) : string :=
  match e with
  | ValueError m | IndexError m | AttributeError m
  | RequestException m | Exception_ m => m
  | JSONDecodeError => "Expecting value"
  end.

(** ** The program

    Both files define the same functions over their own module-level
    constants; [globals] collects those constants. *)

Record globals : Type := Globals {
  SEARCH_FILTERS : list (string * string);
  SEARCH_PAGE_SIZE : nat;
  STORAGE_SEEN_KEY : string;
  STORAGE_INIT_KEY : string;
  TELEGRAM_MESSAGE_PREFIX : string;
  TELEGRAM_BOT_TOKEN : value;
  TELEGRAM_CHAT_ID : value;
  UPSTASH_REDIS_REST_URL : value;
  UPSTASH_REDIS_REST_TOKEN : value
}.

(** [os.getenv(name)] *)
Definition getenv (environ : gmap string string) (name : string) : value :=
  match environ !! name with
  | Some s => VStr s
  | None => VNone
  end.

Definition BID_CARS_BASE_URL : string := "https://bid.cars".
Definition SEARCH_ENDPOINT : string := BID_CARS_BASE_URL +:+ "/app/search/request".
Definition SEARCH_PAGE_URL : string := BID_CARS_BASE_URL +:+ "/en/search/results".

Record UpstashRedis : Type := { url : string; token : string }.

(** [s.rstrip('/')] *)
Fixpoint rstrip_slash (s : string) : string :=
  match s with
  | EmptyString => EmptyString
  | String c s' =>
      match rstrip_slash s' with
      | EmptyString =>
          if Ascii.eqb c "/"%char then EmptyString else String c EmptyString
      | t => String c t
      end
  end.

Record CheckResult : Type := {
  sent : nat;
  reason : string;
  new_count : option nat;
  total : nat
}.

Section program.
Variable E : env.
Variable G : globals.

(** [UpstashRedis(url, token)] keeps [url.rstrip('/')]. Both files
    read the same two variables, so that in one environment the two
    profiles talk to the same database: the one of [state]. *)
Definition get_redis_client : M UpstashRedis :=
  if negb (truthy (UPSTASH_REDIS_REST_URL G))
     || negb (truthy (UPSTASH_REDIS_REST_TOKEN G))
  then raise (ValueError
         "UPSTASH_REDIS_REST_URL and UPSTASH_REDIS_REST_TOKEN must be set")
  else ret {| url := rstrip_slash (py_str (UPSTASH_REDIS_REST_URL G));
              token := py_str (UPSTASH_REDIS_REST_TOKEN G) |}.

(** [UpstashRedis._request]: one POST to the REST endpoint. The request
    is recorded; [redis_net] decides whether it reaches the server and
    whether the reply comes back. An [error] field in the reply (or the
    error status that carries it) raises. *)
Definition _request (self : UpstashRedis) (c : command) : M reply :=
  λ σ,
    let σ1 := with_redis_log (redis_log σ ++ [c]) σ in
    match redis_net E (length (redis_log σ)) with
    | LostRequest => (Raise (RequestException "connection error"), σ1)
    | LostReply =>
        (Raise (RequestException "read timed out"),
         with_redis (redis_exec c (redis σ)).2 σ1)
    | Delivered =>
        match redis_exec c (redis σ) with
        | (inl err, d) => (Raise (Exception_ ("Redis error: " +:+ err)), with_redis d σ1)
        | (inr r, d) => (Ok r, with_redis d σ1)
        end
    end.

(** [bool(result)] *)
Definition reply_truthy (r : reply) : bool :=
  match r with
  | RInt n => negb (n =? 0)%nat
  | RStatus s => negb (String.eqb s "")
  | RArray l => match l with [] => false | _ => true end
  end.

(** [set(result) if result else set()]; a status string would be
    iterated character by character, a non-zero integer is not
    iterable. *)
Definition reply_set (r : reply) : res (gset string) :=
  match r with
  | RArray l => Ok (list_to_set l)
  | RInt 0 => Ok ∅
  | RInt (S _) => Raise (Exception_ "'int' object is not iterable")
  | RStatus s =>
      Ok (list_to_set (map (λ c, String c EmptyString) (list_ascii_of_string s)))
  end.

Definition smembers (self : UpstashRedis) (key : string) : M (gset string) :=
  let* result := _request self (SMEMBERS key) in
  lift (reply_set result).

Definition sadd (self : UpstashRedis) (key : string) (values : list string) : M reply :=
  _request self (SADD key values).

Definition exists_ (self : UpstashRedis) (key : string) : M bool :=
  let* result := _request self (EXISTS key) in
  ret (reply_truthy result).

Definition set (self : UpstashRedis) (key : string) (v : string) : M reply :=
  _request self (SET key v).

(** [fetch_listings]: the browser session is the site's business; what
    the function does with the response is modelled. *)
Definition request_url : string :=
  let params :=
    (SEARCH_FILTERS G ++
     [("page", "1"); ("per-page", pretty (SEARCH_PAGE_SIZE G))])%list in
  SEARCH_ENDPOINT +:+ "?" +:+
  join "&" (map (λ kv : string * string, kv.1 +:+ "=" +:+ kv.2) params).

Definition fetch_listings : M (list listing) :=
  λ σ,
    let σ1 := with_site_log (site_log σ ++ [request_url]) σ in
    match site E request_url (length (site_log σ)) with
    | SiteUnreachable => (Raise (Exception_ "page.goto: Timeout exceeded"), σ1)
    | SiteResponse status body =>
        if negb (status =? 200)%nat then
          (Raise (Exception_ "Bid.cars request failed"), σ1)
        else
          match body with
          | BadJson => (Raise JSONDecodeError, σ1)
          | Payload payload =>
              if bool_decide (payload = ∅) then
                (Raise (Exception_ "Unexpected Bid.cars payload format"), σ1)
              else
                match payload !! "data" with
                | None => (Raise (Exception_ "Unexpected Bid.cars payload format"), σ1)
                | Some data => (Ok data, σ1)
                end
          end
    end.

(** [requests.post(url, json=payload, timeout=10)], then
    [raise_for_status()] and [response.json().get('ok', False)]. *)
Definition post_sendMessage (text : string) : M bool :=
  λ σ,
    let call := {| tg_token := py_str (TELEGRAM_BOT_TOKEN G);
                   tg_chat_id := py_str (TELEGRAM_CHAT_ID G);
                   tg_text := text |} in
    let σ1 := with_outbox (outbox σ ++ [call]) σ in
    match telegram E (length (outbox σ)) with
    | TgUnreachable => (Raise (RequestException "connection error"), σ1)
    | TgResponse http_ok body =>
        if negb http_ok then (Raise (RequestException "HTTP error"), σ1)
        else
          match body with
          | TgBadJson => (Raise JSONDecodeError, σ1)
          | TgJson fields => (Ok (default false (fields !! "ok")), σ1)
          end
    end.

Definition send_telegram_message (text : string) : M bool :=
  if negb (truthy (TELEGRAM_BOT_TOKEN G)) || negb (truthy (TELEGRAM_CHAT_ID G))
  then
    let* _ := logger (WARNING "Telegram credentials not configured") in
    ret false
  else
    try_except (post_sendMessage text)
      (λ e,
         let* _ := logger (ERROR ("Telegram send failed: " +:+ exn_str e)) in
         ret false).

(** [year = listing.get('name', '').split()[0] if listing.get('name') else 'N/A'] *)
Definition year_of (l : listing) : res value :=
  if truthy (get l "name") then
    match get_or l "name" "" with
    | VStr s =>
        match index0 (split s) with
        | Ok y => Ok (VStr y)
        | Raise e => Raise e
        end
    | VNone => Raise (AttributeError "'NoneType' object has no attribute 'split'")
    end
  else Ok (VStr "N/A").

(** The list [lines] that [format_listing_message] builds. *)
Definition listing_lines (l : listing) : res (list string) :=
  let name := py_or (get l "name_long") (get_or l "name" "Unknown") in
  let lot := get_or l "lot" "N/A" in
  let vin := get_or l "vin" "N/A" in
  match year_of l with
  | Raise e => Raise e
  | Ok year =>
      let odometer := get_or l "odometer_substr" "N/A" in
      let location := get_or l "location" "N/A" in
      let prebid := get_or l "prebid_price" "N/A" in
      let final_bid := get l "final_bid_formatted" in
      let status := get_or l "search_status" "N/A" in
      let url := "https://bid.cars/en/lot/" +:+ py_str lot in
      let lines :=
        [ TELEGRAM_MESSAGE_PREFIX G;
          "";
          "<b>" +:+ py_str name +:+ "</b>";
          "";
          "📅 Year: " +:+ py_str year;
          "🔢 Lot: <code>" +:+ py_str lot +:+ "</code>";
          "🔑 VIN: <code>" +:+ py_str vin +:+ "</code>";
          "📊 Odometer: " +:+ py_str odometer +:+ "K miles";
          "📍 Location: " +:+ py_str location;
          "💰 Prebid: " +:+ py_str prebid ] in
      let lines :=
        if truthy final_bid
        then lines ++ ["🏆 Final Bid: " +:+ py_str final_bid]
        else lines in
      let lines := lines ++ ["📌 Status: " +:+ py_str status] in
      let lines := lines ++ [""] in
      let lines :=
        lines ++ ["🔗 <a href=" +:+ DQ +:+ url +:+ DQ +:+ ">View on Bid.cars</a>"] in
      Ok lines
  end.

(** [return '\n'.join(lines)] *)
Definition format_listing_message (l : listing) : res string :=
  match listing_lines l with
  | Ok lines => Ok (join LF lines)
  | Raise e => Raise e
  end.

(** The set built at bootstrap:
    [{listing.get('lot') for listing in listings if listing.get('lot')}] *)
Definition bootstrap_lots (listings : list listing) : gset string :=
  list_to_set
    (map (λ listing, py_str (get listing "lot"))
         (List.filter (λ listing, truthy (get listing "lot")) listings)).

(** [lot not in seen_lots], [seen_lots] being a set of strings. *)
Definition not_in (lot : value) (seen_lots : gset string) : bool :=
  match lot with
  | VNone => true
  | VStr s => negb (bool_decide (s ∈ seen_lots))
  end.

(** [[listing for listing in listings
      if listing.get('lot') and listing.get('lot') not in seen_lots]] *)
Definition new_listings_of (listings : list listing) (seen_lots : gset string)
  : list listing :=
  List.filter
    (λ listing, truthy (get listing "lot") && not_in (get listing "lot") seen_lots)
    listings.

(** The notification loop of [run_check], [sent] being its counter. *)
Fixpoint notify (redis : UpstashRedis) (new_listings : list listing) (sent : nat)
  : M nat :=
  match new_listings with
  | [] => ret sent
  | listing :: rest =>
      let lot := get listing "lot" in
      if negb (truthy lot) then notify redis rest sent
      else
        let* message := lift (format_listing_message listing) in
        let* delivered := send_telegram_message message in
        if delivered then
          let* _ := sadd redis (STORAGE_SEEN_KEY G) [py_str lot] in
          let* _ := sleep_half_second in
          notify redis rest (S sent)
        else notify redis rest sent
  end.

(** [except Exception as e: logger.error(...); raise] *)
Definition log_and_reraise {A} (m : M A) : M A :=
  try_except m
    (λ e,
       let* _ := logger (ERROR ("[check] Failed: " +:+ exn_str e)) in
       raise e).

(** The first-run branch, the same in both files. *)
Definition bootstrap (redis : UpstashRedis) : M CheckResult :=
  let* _ := logger (INFO "[check] First run: initializing storage") in
  let* listings := fetch_listings in
  let seen_lots := bootstrap_lots listings in
  let* _ :=
    if bool_decide (seen_lots ≠ ∅)
    then sadd redis (STORAGE_SEEN_KEY G) (elements seen_lots)
    else ret (RInt 0) in
  let* _ := set redis (STORAGE_INIT_KEY G) "1" in
  ret {| sent := 0; reason := "bootstrap"; new_count := None;
         total := length listings |}.

End program.

(** ** What the entry points hand back *)

(** A scalar of a JSON body. *)
Inductive json : Type :=
| JBool (b : bool)
| JNum (n : nat)
| JStr (s : string).

(** [jsonify(fields)] and the status code sent with it. *)
Record response : Type := { resp_status : nat; resp_body : gmap string json }.

(** The dictionary that [run_check] returns: [new_count] is one of its
    keys only on the runs that found a delta. *)
Definition result_fields (r : CheckResult) : gmap string json :=
  let fields : gmap string json :=
    {[ "sent" := JNum (sent r); "reason" := JStr (reason r);
       "total" := JNum (total r) ]} in
  match new_count r with
  | Some n => <[ "new_count" := JNum n ]> fields
  | None => fields
  end.

(** [repr(s)] of a string without quote, backslash or control
    character, as the four reasons are; and [repr(result)], what an
    f-string field [{result}] renders, the keys in the order of the
    dictionary display. *)
Definition repr_str (s : string) : string := "'" +:+ s +:+ "'".

Definition repr_result (r : CheckResult) : string :=
  "{'sent': " +:+ pretty (sent r)
  +:+ ", 'reason': " +:+ repr_str (reason r)
  +:+ match new_count r with
      | Some n => ", 'new_count': " +:+ pretty n
      | None => ""
      end
  +:+ ", 'total': " +:+ pretty (total r) +:+ "}".

(** [s.lower()] on the UTF-8 bytes: the capitals A..Z are lowered.
    Python also lowers the capitals outside ASCII; it maps them to
    characters outside ASCII (but for KELVIN SIGN, which becomes k), so
    that a comparison of the result with the word [true] cannot tell
    the difference. *)
Definition lower_byte (c : ascii) : ascii :=
  if byte_in 65 90 c then ascii_of_nat (nat_of_ascii c + 32) else c.

Fixpoint lower (s : string) : string :=
  match s with
  | EmptyString => EmptyString
  | String c s' => String (lower_byte c) (lower s')
  end.


(** ** [flask_app.py]: the Lexus NX profile *)

Module flask_app.

Definition SEARCH_FILTERS : list (string * string) :=
  [ ("search-type", "filters");
    ("status", "Fast-buy");
    ("type", "Automobile");
    ("make", "Lexus");
    ("model", "NX");
    ("year-from", "2017");
    ("year-to", "2026");
    ("auction-type", "All");
    ("odometer-to", "85000");
    ("body-style", "SUV") ].

Definition SEARCH_PAGE_SIZE : nat := 50.
Definition STORAGE_SEEN_KEY : string := "bidcars:seen-lots".
Definition STORAGE_INIT_KEY : string := "bidcars:seen-initialized".
Definition TELEGRAM_MESSAGE_PREFIX : string := "🚗 ახალი Lexus NX (Bid.cars)".

(** The module's globals, the last four read from the environment at
    import time. *)
Definition G (environ : gmap string string) : globals :=
  Globals SEARCH_FILTERS SEARCH_PAGE_SIZE STORAGE_SEEN_KEY STORAGE_INIT_KEY
    TELEGRAM_MESSAGE_PREFIX
    (getenv environ "TELEGRAM_BOT_TOKEN")
    (getenv environ "TELEGRAM_CHAT_ID")
    (getenv environ "UPSTASH_REDIS_REST_URL")
    (getenv environ "UPSTASH_REDIS_REST_TOKEN").

Definition run_check (E : env) (dry_run : bool) : M CheckResult :=
  let G := G (environ E) in
  log_and_reraise
    (let* redis := get_redis_client G in
     let* is_init := exists_ E redis STORAGE_INIT_KEY in
     if negb is_init then bootstrap E G redis
     else
       let* listings := fetch_listings E G in
       let* _ := logger (INFO ("[check] Fetched " +:+ pretty (length listings)
                               +:+ " listings")) in
       let* seen_lots := smembers E redis STORAGE_SEEN_KEY in
       let* _ := logger (INFO ("[check] Found " +:+ pretty (size seen_lots)
                               +:+ " seen lots in storage")) in
       let new_listings := new_listings_of listings seen_lots in
       match new_listings with
       | [] =>
           ret {| sent := 0; reason := "no_new_listings"; new_count := None;
                  total := length listings |}
       | _ =>
           let* _ := logger (INFO ("[check] Found " +:+ pretty (length new_listings)
                                   +:+ " new listings")) in
           if dry_run then
             ret {| sent := 0; reason := "dry_run";
                    new_count := Some (length new_listings);
                    total := length listings |}
           else
             let* sent := notify E G redis new_listings 0 in
             ret {| sent := sent; reason := "new_listings";
                    new_count := Some (length new_listings);
                    total := length listings |}
       end).

(** [check_endpoint], the handler of [/check]; [args] is the query
    string of the request. *)
Definition dry_run_arg (args : gmap string string) : bool :=
  String.eqb (lower (default "" (args !! "dryRun"))) "true".

Definition check_endpoint (E : env) (args : gmap string string) : M response :=
  try_except
    (let dry_run := dry_run_arg args in
     let* result := run_check E dry_run in
     ret {| resp_status := 200;
            resp_body := result_fields result ∪ {[ "ok" := JBool true ]} |})
    (λ e,
       let* _ := logger (ERROR ("[api/check] error: " +:+ exn_str e)) in
       ret {| resp_status := 500;
              resp_body := {[ "ok" := JBool false;
                              "error" := JStr (exn_str e) ]} |}).

(** [scheduled_check], the job the scheduler runs every 30 minutes. *)
Definition scheduled_check (E : env) : M unit :=
  try_except
    (let* result := run_check E false in
     logger (INFO ("[scheduled] Completed: " +:+ repr_result result)))
    (λ e, logger (ERROR ("[scheduled] Failed: " +:+ exn_str e))).

(** The start-up check of [__main__],
    [[k for k in required if not os.getenv(k)]]: a non-empty list is
    logged and the process exits with status 1, before the scheduler
    and the server are started. *)
Definition required : list string :=
  [ "TELEGRAM_BOT_TOKEN"; "TELEGRAM_CHAT_ID";
    "UPSTASH_REDIS_REST_URL"; "UPSTASH_REDIS_REST_TOKEN" ].

Definition missing (environ : gmap string string) : list string :=
  List.filter (λ k, negb (truthy (getenv environ k))) required.

End flask_app.

(** ** [toyota.py]: the Toyota profile *)

Module toyota.

Definition SEARCH_FILTERS : list (string * string) :=
  [ ("search-type", "filters");
    ("status", "Fast-buy");
    ("type", "Automobile");
    ("make", "Toyota");
    ("year-from", "2017");
    ("auction-type", "All");
    ("odometer-to", "85000");
    ("body-style", "SUV");
    ("drive-type", "AWD");
    ("fuel-type", "Hybrid") ].

Definition SEARCH_PAGE_SIZE : nat := 50.
Definition STORAGE_SEEN_KEY : string := "bidcars:seen-lots".
Definition STORAGE_INIT_KEY : string := "bidcars:seen-initialized".
Definition TELEGRAM_MESSAGE_PREFIX : string := "🚗 ახალი Toyota (Bid.cars)".

Definition G (environ : gmap string string) : globals :=
  Globals SEARCH_FILTERS SEARCH_PAGE_SIZE STORAGE_SEEN_KEY STORAGE_INIT_KEY
    TELEGRAM_MESSAGE_PREFIX
    (getenv environ "TELEGRAM_BOT_TOKEN__TOYOTA")
    (getenv environ "TELEGRAM_CHAT_ID__TOYOTA")
    (getenv environ "UPSTASH_REDIS_REST_URL")
    (getenv environ "UPSTASH_REDIS_REST_TOKEN").

(** [dry_run] is a parameter of the function and is not read by it. *)
Definition run_check (E : env) (dry_run : bool) : M CheckResult :=
  let G := G (environ E) in
  log_and_reraise
    (let* redis := get_redis_client G in
     let* is_init := exists_ E redis STORAGE_INIT_KEY in
     if negb is_init then bootstrap E G redis
     else
       let* listings := fetch_listings E G in
       let* _ := logger (INFO ("[check] Fetched " +:+ pretty (length listings)
                               +:+ " listings")) in
       let* seen_lots := smembers E redis STORAGE_SEEN_KEY in
       let new_listings := new_listings_of listings seen_lots in
       match new_listings with
       | [] =>
           ret {| sent := 0; reason := "no_new_listings"; new_count := None;
                  total := length listings |}
       | _ =>
           let* sent := notify E G redis new_listings 0 in
           ret {| sent := sent; reason := "new_listings";
                  new_count := Some (length new_listings);
                  total := length listings |}
       end).

Definition required : list string :=
  [ "TELEGRAM_BOT_TOKEN"; "TELEGRAM_CHAT_ID";
    "UPSTASH_REDIS_REST_URL"; "UPSTASH_REDIS_REST_TOKEN" ].

Definition missing (environ : gmap string string) : list string :=
  List.filter (λ k, negb (truthy (getenv environ k))) required.

(** The [__main__] block: [Ok (Some 1)] is [exit(1)], [Ok None] the end
    of the script, [Raise e] an exception that nothing catches. *)
Definition main (E : env) : M (option nat) :=
  match missing (environ E) with
  | _ :: _ =>
      let* _ := logger (ERROR ("Missing required environment variables: "
                               +:+ join ", " (missing (environ E)))) in
      ret (Some 1)
  | [] =>
      let* _ := logger (INFO "Starting one-time check...") in
      let* result := run_check E false in
      let* _ := logger (INFO ("Check completed: " +:+ repr_result result)) in
      ret None
  end.

End toyota.

(** ** The two profiles side by side *)

Inductive profile : Type := Lexus | Toyota.

Definition globals_of (p : profile) (environ : gmap string string) : globals :=
  match p with
  | Lexus => flask_app.G environ
  | Toyota => toyota.G environ
  end.

Definition run_check (p : profile) : env → bool → M CheckResult :=
  match p with
  | Lexus => flask_app.run_check
  | Toyota => toyota.run_check
  end.

(** The key of the seen-set and the key of the init-flag of a profile. *)
Definition seen_key (p : profile) : string := STORAGE_SEEN_KEY (globals_of p ∅).
Definition init_key (p : profile) : string := STORAGE_INIT_KEY (globals_of p ∅).

(** The members of a profile's seen-set in a state. *)
Definition seen (p : profile) (σ : state) : gset string :=
  members (redis σ) (seen_key p).

(** Successive runs, each by one profile with its dry-run flag. *)
Fixpoint run_many (E : env) (rs : list (profile * bool)) (σ : state) : state :=
  match rs with
  | [] => σ
  | (p, dry_run) :: rest => run_many E rest (run_check p E dry_run σ).2
  end.

(** ** Vocabulary of the statements *)

(** *** Commands and traces *)

(** The commands [run_check] issues: the existence test and the scalar
    set on the init-flag, the listing of and the additions to the
    seen-set, each addition carrying identifiers in [A] only. *)
Definition cmd_ok (seen_key init_key : string) (A : string → Prop)
    (c : command) : Prop :=
  match c with
  | EXISTS k => k = init_key
  | SMEMBERS k => k = seen_key
  | SET k v => k = init_key ∧ v = "1"
  | SADD k vs => k = seen_key ∧ vs ≠ [] ∧ Forall A vs
  end.

Definition read_only (c : command) : Prop :=
  match c with
  | EXISTS _ | SMEMBERS _ => True
  | SADD _ _ | SET _ _ => False
  end.

(** The key a command works on. *)
Definition cmd_key (c : command) : string :=
  match c with
  | EXISTS k | SMEMBERS k | SADD k _ | SET k _ => k
  end.

(** One executed command satisfying [Pc], and any number of them. *)
Definition db_step (Pc : command → Prop) (d d' : db) : Prop :=
  ∃ c, Pc c ∧ d' = (redis_exec c d).2.
Definition db_reach (Pc : command → Prop) : db → db → Prop := rtc (db_step Pc).

(** [trace Pc Pt σ σ']: from [σ] to [σ'] the program issued only
    commands satisfying [Pc], the store moved by such commands only,
    and each call made to Telegram satisfies [Pt]. *)
Definition trace (Pc : command → Prop) (Pt : tg_call → Prop)
    (σ σ' : state) : Prop :=
  (∃ cs, redis_log σ' = redis_log σ ++ cs ∧ Forall Pc cs) ∧
  (∃ ts, outbox σ' = outbox σ ++ ts ∧ Forall Pt ts) ∧
  db_reach Pc (redis σ) (redis σ') ∧
  (∃ us, site_log σ' = site_log σ ++ us).

(** *** Delivery *)

(** Both credentials are set and non-empty. *)
Definition configured (G : globals) : bool :=
  truthy (TELEGRAM_BOT_TOKEN G) && truthy (TELEGRAM_CHAT_ID G).

(** The reply is a success status whose JSON body has [ok] true. *)
Definition acknowledged (r : tg_reply) : bool :=
  match r with
  | TgResponse true (TgJson fields) => default false (fields !! "ok")
  | _ => false
  end.

Definition the_call (G : globals) (text : string) : tg_call :=
  {| tg_token := py_str (TELEGRAM_BOT_TOKEN G);
     tg_chat_id := py_str (TELEGRAM_CHAT_ID G);
     tg_text := text |}.

Definition formattable (G : globals) (l : listing) : Prop :=
  ∃ text, format_listing_message G l = Ok text.

Definition message_of (G : globals) (l : listing) : string :=
  match format_listing_message G l with
  | Ok text => text
  | Raise _ => ""
  end.

Definition lot_of (l : listing) : string := py_str (get l "lot").

Definition lots_of (ls : list listing) : gset string :=
  list_to_set (map lot_of ls).

(** The listings of [new_listings] whose delivery is acknowledged, when
    the loop makes its first call to Telegram as call number [n]: each
    listing with a non-empty lot costs one call when the credentials
    are configured and none otherwise. *)
Fixpoint delivered (E : env) (G : globals) (n : nat)
    (new_listings : list listing) : list listing :=
  match new_listings with
  | [] => []
  | l :: rest =>
      if truthy (get l "lot") then
        let rest' := delivered E G (if configured G then S n else n) rest in
        if configured G && acknowledged (telegram E n) then l :: rest' else rest'
      else delivered E G n rest
  end.

(** Those the loop tries: the ones with a non-empty lot. *)
Definition attempted (new_listings : list listing) : list listing :=
  List.filter (λ l, truthy (get l "lot")) new_listings.

Definition not_configured_warning : log_record :=
  WARNING "Telegram credentials not configured".

#[global] Instance log_record_eq_dec : EqDecision log_record.
Proof. solve_decision. Defined.

(** How many times the missing credentials were reported. *)
Definition warnings (l : list log_record) : nat :=
  length (List.filter (λ r, bool_decide (r = not_configured_warning)) l).

(** *** Runs *)

(** The snapshot a run started in [σ] is given by the site. *)
Definition snapshot (E : env) (G : globals) (σ : state) : list listing :=
  match (fetch_listings E G σ).1 with
  | Ok listings => listings
  | Raise _ => []
  end.

(** A lot identifier carried, non-empty, by a listing of that snapshot. *)
Definition snapshot_lot (E : env) (G : globals) (σ : state) (s : string) : Prop :=
  ∃ l, l ∈ snapshot E G σ ∧ l !! "lot" = Some (VStr s) ∧ s ≠ "".

(** The listings a run started in [σ] may notify: those of the snapshot
    with a non-empty lot identifier that is not in the seen-set as the
    run starts. *)
Definition eligible (E : env) (G : globals) (σ : state) (l : listing) : Prop :=
  l ∈ snapshot E G σ ∧ truthy (get l "lot") = true
  ∧ not_in (get l "lot") (members (redis σ) (STORAGE_SEEN_KEY G)) = true.

Definition run_cmd (E : env) (G : globals) (σ : state) : command → Prop :=
  cmd_ok (STORAGE_SEEN_KEY G) (STORAGE_INIT_KEY G) (snapshot_lot E G σ).

Definition run_call (E : env) (G : globals) (σ : state) (t : tg_call) : Prop :=
  ∃ l, eligible E G σ l ∧ format_listing_message G l = Ok (tg_text t).

(** Every round trip to the store completes. *)
Definition healthy (E : env) : Prop := ∀ n, redis_net E n = Delivered.

(** The key holds a set or nothing: [SADD] and [SMEMBERS] are accepted. *)
Definition usable (d : db) (k : string) : Prop :=
  ∀ s, d !! k ≠ Some (RString s).

Definition store_configured (G : globals) : Prop :=
  truthy (UPSTASH_REDIS_REST_URL G) = true
  ∧ truthy (UPSTASH_REDIS_REST_TOKEN G) = true.

(** The site answers the next fetch with status 200 and a payload whose
    [data] field is [listings]. *)
Definition site_serves (E : env) (G : globals) (σ : state)
    (listings : list listing) : Prop :=
  ∃ p, site E (request_url G) (length (site_log σ)) = SiteResponse 200 (Payload p)
       ∧ p !! "data" = Some listings.

(** The database after [SADD k vs] on a usable key. *)
Definition db_add (d : db) (k : string) (vs : list string) : db :=
  <[k := RSet (members d k ∪ list_to_set vs)]> d.

(** Whether a profile's [run_check] reads its [dry_run] argument. *)
Definition reads_dry_run (p : profile) : bool :=
  match p with
  | Lexus => true
  | Toyota => false
  end.

(** The result of an incremental run: [dry] says that the run stops
    before the loop, [got] are the listings it delivered. *)
Definition incremental_result (dry : bool) (listings new_listings got : list listing)
  : CheckResult :=
  match new_listings with
  | [] => {| sent := 0; reason := "no_new_listings"; new_count := None;
             total := length listings |}
  | _ =>
      if dry then
        {| sent := 0; reason := "dry_run";
           new_count := Some (length new_listings); total := length listings |}
      else
        {| sent := length got; reason := "new_listings";
           new_count := Some (length new_listings); total := length listings |}
  end.

(** The delta in the words of the specification: a listing is new when
    its lot identifier is a non-empty string outside the seen-set. *)
Definition is_new (seen_lots : gset string) (l : listing) : Prop :=
  ∃ s, l !! "lot" = Some (VStr s) ∧ s ≠ "" ∧ s ∉ seen_lots.

#[global] Instance is_new_dec seen_lots l : Decision (is_new seen_lots l).
Proof.
  unfold is_new. destruct (l !! "lot") as [[|s]|].
  - right. by intros (? & ? & _).
  - destruct (decide (s ≠ "" ∧ s ∉ seen_lots)) as [H|H].
    + left. exists s. tauto.
    + right. intros (s' & [= <-] & ?). tauto.
  - right. by intros (? & ? & _).
Defined.

(** One or several runs: the commands issued never replace the
    seen-set, the seen-set has not lost a member, and every text posted
    to Telegram is the text of a listing whose lot identifier was
    outside the seen-set at the start. *)
Definition grows (E : env) (σ σ' : state) : Prop :=
  (∃ cs, redis_log σ' = redis_log σ ++ cs
     ∧ Forall (λ c, ∀ v, c ≠ SET (seen_key Lexus) v) cs)
  ∧ seen Lexus σ ⊆ seen Lexus σ'
  ∧ ∃ ts, outbox σ' = outbox σ ++ ts
      ∧ Forall (λ t, ∃ p l,
                  truthy (get l "lot") = true
                  ∧ (lot_of l ∉ seen Lexus σ)
                  ∧ format_listing_message (globals_of p (environ E)) l
                    = Ok (tg_text t)) ts.

(** *** Whitespace-delimited tokens *)

(** [w] is the encoding of exactly one whitespace character. *)
Definition ws_char (w : string) : Prop :=
  w ≠ "" ∧ ws_len w = String.length w.

(** A possibly empty run of whitespace characters. *)
Inductive ws_run : string → Prop :=
| ws_run_nil : ws_run ""
| ws_run_cons w s : ws_char w → ws_run s → ws_run (w +:+ s).

(** No whitespace character starts inside [tok] when [post] follows. *)
Definition no_ws_inside (tok post : string) : Prop :=
  ∀ a b, tok = a +:+ b → b ≠ "" → ws_len (b +:+ post) = 0.

(** [tok] is the first whitespace-delimited token of [s]. *)
Definition first_token (s tok : string) : Prop :=
  ∃ pre post,
    s = pre +:+ tok +:+ post ∧ ws_run pre ∧ tok ≠ "" ∧ no_ws_inside tok post
    ∧ (post = "" ∨ ws_len post ≠ 0).

(** A test for [no_ws_inside]. *)
Fixpoint no_ws_insideb (tok post : string) : bool :=
  match tok with
  | EmptyString => true
  | String _ tok' => (ws_len (tok +:+ post) =? 0)%nat && no_ws_insideb tok' post
  end.

(** What [format_listing_message] shows for an attribute with default
    ['N/A']. *)
Definition shown (l : listing) (k : string) : string :=
  match l !! k with
  | Some v => py_str v
  | None => "N/A"
  end.

(** The display name is absent or empty, or has a first token. *)
Definition name_ok (l : listing) : Prop :=
  truthy (get l "name") = false
  ∨ ∃ s tok, l !! "name" = Some (VStr s) ∧ first_token s tok.

(** The year shown: the first token of the name, ['N/A'] without a name. *)
Definition year_shown (l : listing) (y : string) : Prop :=
  (truthy (get l "name") = false ∧ y = "N/A")
  ∨ ∃ s, l !! "name" = Some (VStr s) ∧ first_token s y.

(** *** Configuration and entry points *)

(** A variable of the environment is unset or empty. *)
Definition unset (environ : gmap string string) (name : string) : Prop :=
  environ !! name = None ∨ environ !! name = Some "".

(** The variables a profile reads its Telegram credentials from. *)
Definition token_var (p : profile) : string :=
  match p with
  | Lexus => "TELEGRAM_BOT_TOKEN"
  | Toyota => "TELEGRAM_BOT_TOKEN__TOYOTA"
  end.

Definition chat_var (p : profile) : string :=
  match p with
  | Lexus => "TELEGRAM_CHAT_ID"
  | Toyota => "TELEGRAM_CHAT_ID__TOYOTA"
  end.

(** [n] slashes. *)
Fixpoint slashes (n : nat) : string :=
  match n with
  | O => EmptyString
  | S k => String "/" (slashes k)
  end.

(** The word true in any mix of small and capital letters. *)
Definition spells_true (s : string) : Prop :=
  ∃ a b c d : ascii,
    s = String a (String b (String c (String d EmptyString)))
    ∧ (a = "t" ∨ a = "T")%char ∧ (b = "r" ∨ b = "R")%char
    ∧ (c = "u" ∨ c = "U")%char ∧ (d = "e" ∨ d = "E")%char.

(** The commands of a first run and those of a later run. *)
Definition bootstrap_cmd (p : profile) (A : string → Prop) (c : command) : Prop :=
  c = EXISTS (init_key p) ∨ c = SET (init_key p) "1"
  ∨ ∃ vs, c = SADD (seen_key p) vs ∧ vs ≠ [] ∧ Forall A vs.

Definition incremental_cmd (p : profile) (c : command) : Prop :=
  c = EXISTS (init_key p) ∨ c = SMEMBERS (seen_key p)
  ∨ ∃ s, c = SADD (seen_key p) [s].

(** The title [format_listing_message] shows: the long name when it is
    non-empty, else the name when the attribute is there, whatever it
    holds. *)
Definition title_shown (l : listing) (t : string) : Prop :=
  (truthy (get l "name_long") = true ∧ t = py_str (get l "name_long"))
  ∨ (truthy (get l "name_long") = false
     ∧ ((∃ v, l !! "name" = Some v ∧ t = py_str v)
        ∨ (l !! "name" = None ∧ t = "Unknown"))).

(** *** The two [run_check] as one *)

(** The two functions differ in their globals, in two lines logged by
    [flask_app] only ([verbose]) and in the dry-run exit, which
    [toyota] does not have. *)
Definition run_check_both (G : globals) (verbose : bool) (E : env)
    (dry_run : bool) : M CheckResult :=
  log_and_reraise
    (let* redis := get_redis_client G in
     let* is_init := exists_ E redis (STORAGE_INIT_KEY G) in
     if negb is_init then bootstrap E G redis
     else
       let* listings := fetch_listings E G in
       let* _ := logger (INFO ("[check] Fetched " +:+ pretty (length listings)
                               +:+ " listings")) in
       let* seen_lots := smembers E redis (STORAGE_SEEN_KEY G) in
       let* _ := (if verbose
                  then logger (INFO ("[check] Found " +:+ pretty (size seen_lots)
                                     +:+ " seen lots in storage"))
                  else ret tt) in
       let new_listings := new_listings_of listings seen_lots in
       match new_listings with
       | [] =>
           ret {| sent := 0; reason := "no_new_listings"; new_count := None;
                  total := length listings |}
       | _ =>
           let* _ := (if verbose
                      then logger (INFO ("[check] Found "
                                         +:+ pretty (length new_listings)
                                         +:+ " new listings"))
                      else ret tt) in
           if dry_run then
             ret {| sent := 0; reason := "dry_run";
                    new_count := Some (length new_listings);
                    total := length listings |}
           else
             let* sent := notify E G redis new_listings 0 in
             ret {| sent := sent; reason := "new_listings";
                    new_count := Some (length new_listings);
                    total := length listings |}
       end).

(** [m], started in [σ], ends with an outcome and in a state that
    satisfy [Q]. *)
Definition ends {A} (m : M A) (σ : state) (Q : res A → state → Prop) : Prop :=
  Q (m σ).1 (m σ).2.

(** The step from [σ] to [σ'] left the store, the outbox and the clock
    alone, and sent read-only commands only. *)
Definition only_read (σ σ' : state) : Prop :=
  redis σ' = redis σ ∧ outbox σ' = outbox σ ∧ sleeps σ' = sleeps σ
  ∧ ∃ cs, redis_log σ' = redis_log σ ++ cs ∧ Forall read_only cs.

(** From [σ] to [σ'] the program made [f] fetches, [t] calls to
    Telegram, sent [c] commands to the store and paused [z] times. *)
Definition spent (σ σ' : state) (f t c z : nat) : Prop :=
  length (site_log σ') = length (site_log σ) + f
  ∧ length (outbox σ') = length (outbox σ) + t
  ∧ length (redis_log σ') = length (redis_log σ) + c
  ∧ sleeps σ' = sleeps σ + z.

(** ** Scenarios

    Concrete environments and states on which the statements below are
    evaluated. *)

Definition lot_listing (s : string) : listing := {[ "lot" := VStr s ]}.

Definition environ_full : gmap string string :=
  list_to_map
    [ ("TELEGRAM_BOT_TOKEN", "123:abc"); ("TELEGRAM_CHAT_ID", "42");
      ("TELEGRAM_BOT_TOKEN__TOYOTA", "456:def"); ("TELEGRAM_CHAT_ID__TOYOTA", "43");
      ("UPSTASH_REDIS_REST_URL", "https://example.upstash.io");
      ("UPSTASH_REDIS_REST_TOKEN", "secret") ].

(** The store credentials only: Telegram is not configured. *)
Definition environ_store_only : gmap string string :=
  list_to_map
    [ ("UPSTASH_REDIS_REST_URL", "https://example.upstash.io");
      ("UPSTASH_REDIS_REST_TOKEN", "secret") ].

Definition tg_ack : tg_reply := TgResponse true (TgJson {[ "ok" := true ]}).

(** An environment in which every fetch returns [listings], the store
    always answers and Telegram acknowledges every message. *)
Definition env_serving (environ : gmap string string) (listings : list listing)
  : env :=
  {| environ := environ;
     site := λ _ _, SiteResponse 200 (Payload {[ "data" := listings ]});
     redis_net := λ _, Delivered;
     telegram := λ _, tg_ack |}.

Definition state_of (d : db) : state :=
  {| redis := d; redis_log := []; outbox := []; site_log := [];
     logged := []; sleeps := 0 |}.

(** A store that was never used, and one initialised with a seen-set. *)
Definition state_fresh : state := state_of ∅.

Definition state_seen (lots : list string) : state :=
  state_of (<[ "bidcars:seen-initialized" := RString "1" ]>
              {[ "bidcars:seen-lots" := RSet (list_to_set lots) ]}).

(** Listings ["A"; "B"; "C"; "D"], Telegram failing on the second
    message only. *)
Definition env_second_fails : env :=
  {| environ := environ_full;
     site := λ _ _, SiteResponse 200
               (Payload {[ "data" := map lot_listing ["A"; "B"; "C"; "D"] ]});
     redis_net := λ _, Delivered;
     telegram := λ n, if (n =? 1)%nat then TgUnreachable else tg_ack |}.

(** Listing ["C"], the third request to the store lost on its way. *)
Definition env_lost_add : env :=
  {| environ := environ_full;
     site := λ _ _, SiteResponse 200 (Payload {[ "data" := [lot_listing "C"] ]});
     redis_net := λ n, if (n =? 2)%nat then LostRequest else Delivered;
     telegram := λ _, tg_ack |}.

(** An environment whose site answers every fetch with status 503. *)
Definition env_site_down : env :=
  {| environ := environ_full;
     site := λ _ _, SiteResponse 503 BadJson;
     redis_net := λ _, Delivered;
     telegram := λ _, tg_ack |}.

(** The Lexus variables only: what the start-up checks ask for. *)
Definition environ_lexus_only : gmap string string :=
  list_to_map
    [ ("TELEGRAM_BOT_TOKEN", "123:abc"); ("TELEGRAM_CHAT_ID", "42");
      ("UPSTASH_REDIS_REST_URL", "https://example.upstash.io/");
      ("UPSTASH_REDIS_REST_TOKEN", "secret") ].

(** ** Properties *)

(** *** Truthiness *)

Lemma truthy_VStr v : truthy v = true ↔ ∃ s, v = VStr s ∧ s ≠ "".
Proof.
  destruct v as [|s]; simpl.
  - split; [done|]. by intros (? & ? & ?).
  - rewrite negb_true_iff, String.eqb_neq. split; [eauto|].
    by intros (? & [= <-] & ?).
Qed.

Lemma truthy_py_str v : truthy v = true → py_str v ≠ "".
Proof. by intros (s & -> & ?)%truthy_VStr. Qed.

Lemma truthy_get l k :
  truthy (get l k) = true ↔ ∃ s, l !! k = Some (VStr s) ∧ s ≠ "".
Proof.
  rewrite truthy_VStr. unfold get. split.
  - intros (s & Hs & ?). exists s. split; [|done].
    by destruct (l !! k) as [v|]; simplify_eq/=.
  - intros (s & -> & ?). eauto.
Qed.

(** A lot identifier is falsy exactly when the attribute is missing,
    [null] or the empty string. *)
Lemma falsy_get l k :
  truthy (get l k) = false ↔
  l !! k = None ∨ l !! k = Some VNone ∨ l !! k = Some (VStr "").
Proof.
  unfold get. destruct (l !! k) as [[|s]|]; simpl.
  - split; auto.
  - rewrite negb_false_iff, String.eqb_eq. split.
    + intros ->. auto.
    + by intros [?|[?|[= ->]]].
  - split; auto.
Qed.

Lemma new_listings_of_spec listings seen_lots l :
  l ∈ new_listings_of listings seen_lots ↔
  l ∈ listings ∧ truthy (get l "lot") = true
  ∧ not_in (get l "lot") seen_lots = true.
Proof.
  unfold new_listings_of.
  rewrite !list_elem_of_In, filter_In, andb_true_iff. tauto.
Qed.

Lemma new_listings_attempted listings seen_lots :
  attempted (new_listings_of listings seen_lots) = new_listings_of listings seen_lots.
Proof.
  unfold attempted, new_listings_of.
  induction listings as [|l rest IH]; simpl; [done|].
  destruct (truthy (get l "lot")) eqn:Hl; simpl; [|done].
  destruct (not_in _ _); simpl; [|done]. by rewrite Hl, IH.
Qed.

Lemma bootstrap_lots_spec listings s :
  s ∈ bootstrap_lots listings ↔
  ∃ l, l ∈ listings ∧ l !! "lot" = Some (VStr s) ∧ s ≠ "".
Proof.
  unfold bootstrap_lots.
  rewrite elem_of_list_to_set, list_elem_of_fmap.
  split.
  - intros (l & -> & Hin). apply list_elem_of_In, filter_In in Hin as [Hin Ht].
    apply truthy_get in Ht as (s & Hs & ?). exists l.
    rewrite <- list_elem_of_In in Hin. unfold get. by rewrite Hs.
  - intros (l & Hin & Hs & ?). exists l. split.
    + unfold get. by rewrite Hs.
    + apply list_elem_of_In, filter_In. rewrite <- list_elem_of_In. split; [done|].
      apply truthy_get. eauto.
Qed.

(** *** The server *)

Lemma read_only_exec c d : read_only c → (redis_exec c d).2 = d.
Proof.
  destruct c as [k|k|k vs|k v]; simpl; try done.
  intros _. destruct (d !! k) as [[?|?]|]; done.
Qed.

Lemma db_reach_read_only d d' : db_reach read_only d d' → d' = d.
Proof.
  induction 1 as [|d1 d2 d3 (c & Hc & ->) _ IH]; [done|].
  by rewrite IH, read_only_exec.
Qed.

Lemma members_insert_ne d k k' v :
  k ≠ k' → members (<[k := v]> d) k' = members d k'.
Proof. intros ?. unfold members. by rewrite lookup_insert_ne. Qed.

Section server.
Variables seen_key init_key : string.
Variable A : string → Prop.
Hypothesis keys_differ : seen_key ≠ init_key.

Local Abbreviation ok := (cmd_ok seen_key init_key A).

Lemma exec_members_seen c d :
  ok c → members d seen_key ⊆ members (redis_exec c d).2 seen_key.
Proof.
  destruct c as [k|k|k vs|k v]; simpl.
  - done.
  - intros ->. destruct (d !! seen_key) as [[?|?]|]; done.
  - intros (-> & Hne & _). destruct vs as [|v vs]; [done|].
    unfold members. destruct (d !! seen_key) as [[?|m]|] eqn:Hd; simpl;
      rewrite ?Hd, ?lookup_insert_eq; set_solver.
  - intros [-> _]. by rewrite members_insert_ne.
Qed.

Lemma exec_members_seen_new c d s :
  ok c → s ∈ members (redis_exec c d).2 seen_key →
  s ∈ members d seen_key ∨ A s.
Proof.
  destruct c as [k|k|k vs|k v]; simpl.
  - auto.
  - intros ->. destruct (d !! seen_key) as [[?|?]|]; auto.
  - intros (-> & Hne & Hall). destruct vs as [|v vs]; [done|].
    unfold members.
    destruct (d !! seen_key) as [[?|m]|] eqn:Hd; simpl;
      rewrite ?Hd, ?lookup_insert_eq; auto.
    + intros [?|Hin]%elem_of_union; [by left|right].
      apply (elem_of_list_to_set (C := gset string) s (v :: vs)) in Hin.
      by eapply (proj1 (Forall_forall _ _) Hall).
    + intros Hin. right.
      apply (elem_of_list_to_set (C := gset string) s (v :: vs)) in Hin.
      by eapply (proj1 (Forall_forall _ _) Hall).
  - intros [-> _]. rewrite members_insert_ne; auto.
Qed.

Lemma exec_other_keys c d k :
  ok c → k ≠ seen_key → k ≠ init_key → (redis_exec c d).2 !! k = d !! k.
Proof.
  destruct c as [k'|k'|k' vs|k' v]; simpl.
  - done.
  - intros ->. destruct (d !! seen_key) as [[?|?]|]; done.
  - intros (-> & _). intros. destruct vs as [|v vs]; [done|].
    destruct (d !! seen_key) as [[?|m]|] eqn:Hd; simpl; try done;
      by rewrite lookup_insert_ne.
  - intros [-> _] ??. by rewrite lookup_insert_ne.
Qed.

Lemma exec_init_stays c d :
  ok c → is_Some (d !! init_key) → is_Some ((redis_exec c d).2 !! init_key).
Proof.
  destruct c as [k'|k'|k' vs|k' v]; simpl.
  - done.
  - intros ->. destruct (d !! seen_key) as [[?|?]|]; done.
  - intros (-> & _) ?. destruct vs as [|v vs]; [done|].
    destruct (d !! seen_key) as [[?|m]|] eqn:Hd; simpl; try done;
      by rewrite lookup_insert_ne.
  - intros [-> _] _. rewrite lookup_insert_eq. eauto.
Qed.

Lemma db_reach_members d d' :
  db_reach ok d d' → members d seen_key ⊆ members d' seen_key.
Proof.
  induction 1 as [|d1 d2 d3 (c & Hc & ->) _ IH]; [done|].
  etrans; [by apply exec_members_seen|done].
Qed.

Lemma db_reach_members_new d d' s :
  db_reach ok d d' → s ∈ members d' seen_key → s ∈ members d seen_key ∨ A s.
Proof.
  induction 1 as [|d1 d2 d3 (c & Hc & ->) _ IH]; [auto|].
  intros Hs. destruct (IH Hs) as [Hin|?]; [|by right].
  by eapply exec_members_seen_new.
Qed.

Lemma db_reach_other_keys d d' k :
  db_reach ok d d' → k ≠ seen_key → k ≠ init_key → d' !! k = d !! k.
Proof.
  induction 1 as [|d1 d2 d3 (c & Hc & ->) _ IH]; [done|].
  intros. rewrite IH by done. by apply exec_other_keys.
Qed.

Lemma db_reach_init_stays d d' :
  db_reach ok d d' → is_Some (d !! init_key) → is_Some (d' !! init_key).
Proof.
  induction 1 as [|d1 d2 d3 (c & Hc & ->) _ IH]; [done|].
  intros. by apply IH, exec_init_stays.
Qed.

Lemma cmd_ok_key c : ok c → cmd_key c = seen_key ∨ cmd_key c = init_key.
Proof. destruct c; simpl; intros H; try destruct H; auto. Qed.

End server.

(** *** Composing traces *)

Section trace_rules.
Variable E : env.
Variable Pc : command → Prop.
Variable Pt : tg_call → Prop.

Local Abbreviation tr := (trace Pc Pt).

Lemma trace_refl σ : tr σ σ.
Proof.
  repeat split.
  - exists []. by rewrite app_nil_r.
  - exists []. by rewrite app_nil_r.
  - apply rtc_refl.
  - exists []. by rewrite app_nil_r.
Qed.

Lemma trace_trans σ1 σ2 σ3 : tr σ1 σ2 → tr σ2 σ3 → tr σ1 σ3.
Proof.
  intros ((cs & Hc & Hcs) & (ts & Ht & Hts) & Hd & (us & Hu))
         ((cs' & Hc' & Hcs') & (ts' & Ht' & Hts') & Hd' & (us' & Hu')).
  repeat split.
  - exists (cs ++ cs'). rewrite Hc', Hc, app_assoc. split; [done|].
    by apply Forall_app.
  - exists (ts ++ ts'). rewrite Ht', Ht, app_assoc. split; [done|].
    by apply Forall_app.
  - by etrans.
  - exists (us ++ us'). by rewrite Hu', Hu, app_assoc.
Qed.

(** A step that leaves the store, the command log, the outbox and the
    site log alone. *)
Lemma trace_quiet σ σ' :
  redis σ' = redis σ → redis_log σ' = redis_log σ →
  outbox σ' = outbox σ → site_log σ' = site_log σ → tr σ σ'.
Proof.
  intros Hr Hl Ho Hs. repeat split.
  - exists []. by rewrite app_nil_r.
  - exists []. by rewrite app_nil_r.
  - rewrite Hr. apply rtc_refl.
  - exists []. by rewrite app_nil_r.
Qed.

(** Sequencing, and the handler of a [try]. *)
Lemma bind_trace {A B} (m : M A) (k : A → M B) σ :
  tr σ (m σ).2 →
  (∀ a σ1, m σ = (Ok a, σ1) → tr σ1 (k a σ1).2) →
  tr σ (bind m k σ).2.
Proof.
  unfold bind. destruct (m σ) as [[a|e] σ1]; simpl; intros Hm Hk; [|done].
  eapply trace_trans; [done|]. by apply Hk.
Qed.

Lemma try_trace {A} (m : M A) (h : exn → M A) σ :
  tr σ (m σ).2 →
  (∀ e σ1, m σ = (Raise e, σ1) → tr σ1 (h e σ1).2) →
  tr σ (try_except m h σ).2.
Proof.
  unfold try_except. destruct (m σ) as [[a|e] σ1]; simpl; intros Hm Hh; [done|].
  eapply trace_trans; [done|]. by apply Hh.
Qed.

Lemma logger_trace r σ : tr σ (logger r σ).2.
Proof. by apply trace_quiet. Qed.

Lemma sleep_trace σ : tr σ (sleep_half_second σ).2.
Proof. by apply trace_quiet. Qed.

Lemma handler_trace e σ :
  tr σ ((let* _ := logger (ERROR ("[check] Failed: " +:+ exn_str e)) in
         raise (A := CheckResult) e) σ).2.
Proof. by apply trace_quiet. Qed.

Lemma request_trace self c σ : Pc c → tr σ (_request E self c σ).2.
Proof.
  intros Hc. unfold _request.
  assert (Hstep : db_reach Pc (redis σ) (redis_exec c (redis σ)).2).
  { apply rtc_once. by exists c. }
  destruct (redis_net E (length (redis_log σ)));
    [destruct (redis_exec c (redis σ)) as [[err|r] d] eqn:Hx| |]; simpl in *.
  all: repeat split;
    [ exists [c]; split; [done|by apply Forall_singleton]
    | exists []; by rewrite app_nil_r
    | try done; try apply rtc_refl
    | exists []; by rewrite app_nil_r ].
Qed.

(** What a request that returns has returned, and what it did. *)
Lemma request_returns self c σ r σ' :
  _request E self c σ = (Ok r, σ') →
  redis_exec c (redis σ) = (inr r, redis σ')
  ∧ redis_log σ' = redis_log σ ++ [c] ∧ outbox σ' = outbox σ
  ∧ site_log σ' = site_log σ ∧ logged σ' = logged σ ∧ sleeps σ' = sleeps σ.
Proof.
  unfold _request.
  destruct (redis_net E (length (redis_log σ)));
    [destruct (redis_exec c (redis σ)) as [[err|r'] d] eqn:Hx| |];
    intros [= <- <-]; try done.
Qed.

Lemma exists_trace self k σ : Pc (EXISTS k) → tr σ (exists_ E self k σ).2.
Proof.
  intros Hk. unfold exists_.
  apply bind_trace; [by apply request_trace|]. intros; apply trace_refl.
Qed.

Lemma exists_returns self k σ b σ' :
  exists_ E self k σ = (Ok b, σ') →
  b = bool_decide (is_Some (redis σ !! k)) ∧ redis σ' = redis σ
  ∧ site_log σ' = site_log σ.
Proof.
  unfold exists_, bind.
  destruct (_request E self (EXISTS k) σ) as [[r|e] σ1] eqn:Hreq; [|done].
  apply request_returns in Hreq as (Hx & _ & _ & Hs & _).
  intros [= <- <-]. simpl in Hx. injection Hx as <- <-.
  split; [|done]. by destruct (redis σ !! k).
Qed.

Lemma smembers_trace self k σ : Pc (SMEMBERS k) → tr σ (smembers E self k σ).2.
Proof.
  intros Hk. unfold smembers.
  apply bind_trace; [by apply request_trace|]. intros; apply trace_refl.
Qed.

Lemma smembers_returns self k σ S σ' :
  smembers E self k σ = (Ok S, σ') →
  S = members (redis σ) k ∧ redis σ' = redis σ.
Proof.
  unfold smembers, bind, lift.
  destruct (_request E self (SMEMBERS k) σ) as [[r|e] σ1] eqn:Hreq; [|done].
  apply request_returns in Hreq as (Hx & _).
  intros [= HS <-]. simpl in Hx. unfold members.
  destruct (redis σ !! k) as [[?|m]|]; simplify_eq/=; split; try done.
  apply set_eq. intros x. by rewrite elem_of_list_to_set, elem_of_elements.
Qed.

Lemma fetch_trace G σ : tr σ (fetch_listings E G σ).2.
Proof.
  assert (∀ r, tr σ (r : res (list listing),
                     with_site_log (site_log σ ++ [request_url G]) σ).2) as H.
  { intros r. repeat split; simpl;
      try (exists []; by rewrite app_nil_r); [apply rtc_refl|by eexists]. }
  unfold fetch_listings.
  repeat (match goal with |- context [match ?x with _ => _ end] => destruct x end);
    apply H.
Qed.

End trace_rules.

(** Weaker predicates give a weaker trace. *)
Lemma trace_weaken (Pc Pc' : command → Prop) (Pt Pt' : tg_call → Prop) σ σ' :
  (∀ c, Pc c → Pc' c) → (∀ t, Pt t → Pt' t) →
  trace Pc Pt σ σ' → trace Pc' Pt' σ σ'.
Proof.
  intros Hc Ht ((cs & Hcs & Hall) & (ts & Hts & Hallt) & Hd & Hu).
  repeat split; [| |by eapply rtc_subrel; [|done]; intros d d' (c & ? & ->);
                     exists c; auto|done].
  - exists cs. split; [done|]. by eapply Forall_impl.
  - exists ts. split; [done|]. by eapply Forall_impl.
Qed.

(** *** Delivery *)

Section delivery.
Variable E : env.
Variable G : globals.

Lemma send_unconfigured text σ :
  configured G = false →
  send_telegram_message E G text σ =
    (Ok false, with_logged (logged σ ++ [not_configured_warning]) σ).
Proof.
  unfold configured, send_telegram_message. intros H.
  destruct (truthy (TELEGRAM_BOT_TOKEN G)), (truthy (TELEGRAM_CHAT_ID G)); done.
Qed.

(** [send_telegram_message] always returns: what it returns, and the
    state it leaves. *)
Lemma send_spec text σ :
  ∃ σ', send_telegram_message E G text σ =
          (Ok (configured G && acknowledged (telegram E (length (outbox σ)))), σ')
    ∧ redis σ' = redis σ ∧ redis_log σ' = redis_log σ
    ∧ site_log σ' = site_log σ ∧ sleeps σ' = sleeps σ
    ∧ outbox σ' = (if configured G then outbox σ ++ [the_call G text]
                   else outbox σ)
    ∧ warnings (logged σ')
      = (if configured G then warnings (logged σ) else S (warnings (logged σ))).
Proof.
  assert (Hw : ∀ e, warnings (logged σ ++ [ERROR e]) = warnings (logged σ)).
  { intros e. unfold warnings. rewrite List.filter_app, length_app. simpl. lia. }
  destruct (configured G) eqn:Hc.
  - unfold send_telegram_message. unfold configured in Hc.
    apply andb_true_iff in Hc as [-> ->]. simpl.
    unfold try_except, post_sendMessage.
    destruct (telegram E (length (outbox σ))) as [|[] [|fields]]; simpl;
      eexists; (split; [reflexivity|]); simpl; rewrite ?Hw; done.
  - rewrite send_unconfigured by done. eexists. split; [reflexivity|].
    simpl. repeat split; try done.
    unfold warnings. rewrite List.filter_app, length_app. simpl. lia.
Qed.

End delivery.

(** *** Fetching *)

Lemma get_redis_client_state G σ : (get_redis_client G σ).2 = σ.
Proof. unfold get_redis_client. by destruct (_ || _). Qed.

Lemma fetch_returns E G σ listings σ' :
  fetch_listings E G σ = (Ok listings, σ') →
  listings = snapshot E G σ ∧ redis σ' = redis σ
  ∧ redis_log σ' = redis_log σ ∧ outbox σ' = outbox σ
  ∧ site_log σ' = site_log σ ++ [request_url G]
  ∧ logged σ' = logged σ ∧ sleeps σ' = sleeps σ.
Proof.
  intros H. unfold snapshot. rewrite H. simpl. split; [done|].
  revert H. unfold fetch_listings.
  repeat (match goal with |- context [match ?x with _ => _ end] => destruct x end);
    by intros [= <- <-].
Qed.

Lemma snapshot_site_log E G σ σ' :
  site_log σ' = site_log σ → snapshot E G σ' = snapshot E G σ.
Proof.
  intros H. unfold snapshot, fetch_listings. rewrite H.
  destruct (site E (request_url G) (length (site_log σ))) as [|status body];
    [done|].
  destruct (negb _); [done|]. destruct body as [|p]; [done|].
  destruct (bool_decide _); [done|]. by destruct (p !! "data").
Qed.

(** *** The loop and the first run, whatever the remote parties do *)

Section loop.
Variable E : env.
Variable G : globals.
Variable Pc : command → Prop.
Variable Pt : tg_call → Prop.

Local Abbreviation tr := (trace Pc Pt).

Lemma send_trace text σ :
  Pt (the_call G text) → tr σ (send_telegram_message E G text σ).2.
Proof.
  intros HP.
  destruct (send_spec E G text σ) as (σ' & -> & Hr & Hl & Hs & _ & Ho & _).
  simpl. repeat split.
  - exists []. by rewrite app_nil_r.
  - destruct (configured G).
    + exists [the_call G text]. split; [done|]. by apply Forall_singleton.
    + exists []. by rewrite app_nil_r.
  - rewrite Hr. apply rtc_refl.
  - exists []. by rewrite app_nil_r.
Qed.

Lemma notify_trace self new_listings sent σ :
  (∀ l, l ∈ new_listings → truthy (get l "lot") = true →
        Pc (SADD (STORAGE_SEEN_KEY G) [py_str (get l "lot")])
        ∧ ∀ text, format_listing_message G l = Ok text → Pt (the_call G text)) →
  tr σ (notify E G self new_listings sent σ).2.
Proof.
  revert sent σ.
  induction new_listings as [|l rest IH]; intros sent σ HD; simpl.
  { apply trace_refl. }
  assert (HDrest : ∀ l', l' ∈ rest → truthy (get l' "lot") = true →
            Pc (SADD (STORAGE_SEEN_KEY G) [py_str (get l' "lot")])
            ∧ ∀ text, format_listing_message G l' = Ok text → Pt (the_call G text)).
  { intros l' Hin. apply HD. by right. }
  destruct (truthy (get l "lot")) eqn:Hlot; simpl; [|by apply IH].
  destruct (HD l (list_elem_of_here _ _) Hlot) as [Hadd Hcall].
  apply bind_trace; [apply trace_refl|].
  intros text σ0 [= Hf <-].
  apply bind_trace; [by apply send_trace, Hcall|].
  intros [] σ1 _; [|by apply IH].
  apply bind_trace; [by apply request_trace|].
  intros _ σ2 _.
  apply bind_trace; [apply sleep_trace|].
  intros _ σ3 _. by apply IH.
Qed.

Lemma bootstrap_trace self σ :
  Pc (SET (STORAGE_INIT_KEY G) "1") →
  (∀ vs, vs ≠ [] →
     Forall (λ s, ∃ l, l ∈ snapshot E G σ ∧ l !! "lot" = Some (VStr s) ∧ s ≠ "") vs →
     Pc (SADD (STORAGE_SEEN_KEY G) vs)) →
  tr σ (bootstrap E G self σ).2.
Proof.
  intros Hset Hadd. unfold bootstrap.
  apply bind_trace; [apply logger_trace|]. intros [] σ0 [= Hσ0].
  apply bind_trace; [apply fetch_trace|]. intros listings σ1 Hfetch.
  assert (Hls : listings = snapshot E G σ).
  { apply fetch_returns in Hfetch as (-> & _).
    apply snapshot_site_log. by subst σ0. }
  apply bind_trace.
  { case_bool_decide as Hne; [|apply trace_refl].
    apply request_trace, Hadd.
    - intros Hnil. by apply elements_empty_inv, leibniz_equiv in Hnil.
    - apply Forall_forall. intros s Hs%elem_of_elements.
      rewrite <- Hls. by apply bootstrap_lots_spec. }
  intros _ σ2 _.
  apply bind_trace; [by apply request_trace|]. intros _ σ3 _.
  apply trace_refl.
Qed.

End loop.

(** *** One run, whatever the remote parties do *)

Lemma eligible_new_listing E G σ σ1 σ2 listings seen_lots l :
  site_log σ1 = site_log σ → listings = snapshot E G σ1 →
  redis σ2 = redis σ → seen_lots = members (redis σ2) (STORAGE_SEEN_KEY G) →
  l ∈ new_listings_of listings seen_lots →
  truthy (get l "lot") = true →
  run_cmd E G σ (SADD (STORAGE_SEEN_KEY G) [py_str (get l "lot")])
  ∧ ∀ text, format_listing_message G l = Ok text → run_call E G σ (the_call G text).
Proof.
  intros Hs -> Hr -> (Hin & Ht & Hn)%new_listings_of_spec _.
  rewrite (snapshot_site_log E G σ σ1 Hs) in Hin. rewrite Hr in Hn.
  split.
  - repeat split; [done|]. apply Forall_singleton.
    apply truthy_get in Ht as (s & Hl & Hne). exists l.
    unfold get. rewrite Hl. simpl. done.
  - intros text Hf. exists l. by repeat split.
Qed.

Lemma bootstrap_run_cmd E G σ vs :
  vs ≠ [] →
  Forall (λ s, ∃ l, l ∈ snapshot E G σ ∧ l !! "lot" = Some (VStr s) ∧ s ≠ "") vs →
  run_cmd E G σ (SADD (STORAGE_SEEN_KEY G) vs).
Proof. intros. by repeat split. Qed.

Lemma run_cmd_site_log E G σ σ' c :
  site_log σ' = site_log σ → run_cmd E G σ c → run_cmd E G σ' c.
Proof.
  intros Hs. destruct c as [k|k|k vs|k v]; simpl; try done.
  intros (? & ? & Hall). repeat split; try done.
  eapply Forall_impl; [done|]. intros s (l & Hin & ?). exists l.
  by rewrite (snapshot_site_log E G σ σ' Hs).
Qed.

Lemma flask_run_trace E dry_run σ :
  let G := flask_app.G (environ E) in
  trace (run_cmd E G σ) (run_call E G σ) σ (flask_app.run_check E dry_run σ).2.
Proof.
  intros G.
  unfold flask_app.run_check, log_and_reraise. fold G.
  apply try_trace; [|intros; apply handler_trace].
  apply bind_trace.
  { rewrite get_redis_client_state. apply trace_refl. }
  intros self σ0 H0.
  assert (σ0 = σ) as -> by (by rewrite <- (get_redis_client_state G σ), H0).
  apply bind_trace; [by apply exists_trace|].
  intros is_init σ1 (_ & Hr1 & Hs1)%exists_returns.
  destruct is_init; simpl.
  2:{ eapply trace_weaken; [| |apply (bootstrap_trace E G (run_cmd E G σ1))].
      - intros c. apply run_cmd_site_log. done.
      - intros t Ht. exact Ht.
      - done.
      - apply bootstrap_run_cmd. }
  apply bind_trace; [apply fetch_trace|].
  intros listings σ2 (Hls & Hr2 & _)%fetch_returns.
  apply bind_trace; [apply logger_trace|]. intros [] σ3 [= Hσ3].
  apply bind_trace; [by apply smembers_trace|].
  intros seen_lots σ4 [Hseen _]%smembers_returns.
  apply bind_trace; [apply logger_trace|]. intros _ σ5 _.
  destruct (new_listings_of listings seen_lots) as [|l0 rest] eqn:Hnew;
    [apply trace_refl|].
  apply bind_trace; [apply logger_trace|]. intros _ σ6 _.
  destruct dry_run; [apply trace_refl|].
  apply bind_trace; [|intros; apply trace_refl].
  apply notify_trace. rewrite <- Hnew. intros l.
  apply (eligible_new_listing E G σ σ1 σ3); try done.
  subst σ3. simpl. by rewrite Hr2.
Qed.

Lemma toyota_run_trace E dry_run σ :
  let G := toyota.G (environ E) in
  trace (run_cmd E G σ) (run_call E G σ) σ (toyota.run_check E dry_run σ).2.
Proof.
  intros G.
  unfold toyota.run_check, log_and_reraise. fold G.
  apply try_trace; [|intros; apply handler_trace].
  apply bind_trace.
  { rewrite get_redis_client_state. apply trace_refl. }
  intros self σ0 H0.
  assert (σ0 = σ) as -> by (by rewrite <- (get_redis_client_state G σ), H0).
  apply bind_trace; [by apply exists_trace|].
  intros is_init σ1 (_ & Hr1 & Hs1)%exists_returns.
  destruct is_init; simpl.
  2:{ eapply trace_weaken; [| |apply (bootstrap_trace E G (run_cmd E G σ1))].
      - intros c. apply run_cmd_site_log. done.
      - intros t Ht. exact Ht.
      - done.
      - apply bootstrap_run_cmd. }
  apply bind_trace; [apply fetch_trace|].
  intros listings σ2 (Hls & Hr2 & _)%fetch_returns.
  apply bind_trace; [apply logger_trace|]. intros [] σ3 [= Hσ3].
  apply bind_trace; [by apply smembers_trace|].
  intros seen_lots σ4 [Hseen _]%smembers_returns.
  destruct (new_listings_of listings seen_lots) as [|l0 rest] eqn:Hnew;
    [apply trace_refl|].
  apply bind_trace; [|intros; apply trace_refl].
  apply notify_trace. rewrite <- Hnew. intros l.
  apply (eligible_new_listing E G σ σ1 σ3); try done.
  subst σ3. simpl. by rewrite Hr2.
Qed.

Lemma run_trace p E dry_run σ :
  let G := globals_of p (environ E) in
  trace (run_cmd E G σ) (run_call E G σ) σ (run_check p E dry_run σ).2.
Proof. destruct p; [apply flask_run_trace|apply toyota_run_trace]. Qed.

(** A dry run of [flask_app] on an initialised store only reads. *)
Lemma flask_dry_trace E σ :
  is_Some (redis σ !! flask_app.STORAGE_INIT_KEY) →
  trace read_only (λ _, False) σ (flask_app.run_check E true σ).2.
Proof.
  intros Hinit.
  set (G := flask_app.G (environ E)).
  unfold flask_app.run_check, log_and_reraise. fold G.
  apply try_trace; [|intros; apply handler_trace].
  apply bind_trace.
  { rewrite get_redis_client_state. apply trace_refl. }
  intros self σ0 H0.
  assert (σ0 = σ) as -> by (by rewrite <- (get_redis_client_state G σ), H0).
  apply bind_trace; [by apply exists_trace|].
  intros is_init σ1 (-> & Hr1 & Hs1)%exists_returns.
  rewrite bool_decide_true by done. simpl.
  apply bind_trace; [apply fetch_trace|]. intros listings σ2 _.
  apply bind_trace; [apply logger_trace|]. intros _ σ3 _.
  apply bind_trace; [by apply smembers_trace|]. intros seen_lots σ4 _.
  apply bind_trace; [apply logger_trace|]. intros _ σ5 _.
  destruct (new_listings_of listings seen_lots) as [|l0 rest];
    [apply trace_refl|].
  apply bind_trace; [apply logger_trace|]. intros _ σ6 _.
  apply trace_refl.
Qed.

(** *** Runs in which the store answers *)

Lemma bind_ok {A B} (m : M A) (k : A → M B) σ a σ' :
  m σ = (Ok a, σ') → bind m k σ = k a σ'.
Proof. intros H. unfold bind. by rewrite H. Qed.

Ltac norm_state :=
  cbn [redis redis_log outbox site_log logged sleeps
       with_redis with_redis_log with_outbox with_site_log with_logged
       with_sleeps logger ret fst snd] in *.

Lemma usable_db_add d k vs k' : usable d k' → usable (db_add d k vs) k'.
Proof.
  intros Hu s. unfold db_add.
  destruct (decide (k = k')) as [->|]; [by rewrite lookup_insert_eq|].
  rewrite lookup_insert_ne by done. apply Hu.
Qed.

Lemma members_db_add d k vs :
  members (db_add d k vs) k = members d k ∪ list_to_set vs.
Proof. unfold db_add. unfold members at 1. by rewrite lookup_insert_eq. Qed.

Lemma get_redis_client_configured G σ :
  store_configured G →
  get_redis_client G σ =
    (Ok {| url := rstrip_slash (py_str (UPSTASH_REDIS_REST_URL G));
           token := py_str (UPSTASH_REDIS_REST_TOKEN G) |}, σ).
Proof. intros [H1 H2]. unfold get_redis_client. by rewrite H1, H2. Qed.

Lemma fetch_served E G σ listings :
  site_serves E G σ listings →
  fetch_listings E G σ =
    (Ok listings, with_site_log (site_log σ ++ [request_url G]) σ).
Proof.
  intros (p & Hsite & Hdata). unfold fetch_listings. rewrite Hsite. simpl.
  case_bool_decide as Hp; [by rewrite Hp in Hdata|]. by rewrite Hdata.
Qed.

Lemma snapshot_served E G σ listings :
  site_serves E G σ listings → snapshot E G σ = listings.
Proof. intros H. unfold snapshot. by rewrite (fetch_served E G σ listings). Qed.

Lemma delivered_sublist E G n ls : sublist (delivered E G n ls) ls.
Proof.
  revert n. induction ls as [|l rest IH]; intros n; simpl; [done|].
  destruct (truthy _); [|by apply sublist_cons].
  destruct (_ && _); [by apply sublist_skip|by apply sublist_cons].
Qed.

Lemma delivered_unconfigured E G n ls :
  configured G = false → delivered E G n ls = [].
Proof.
  intros Hc. revert n. induction ls as [|l rest IH]; intros n; simpl; [done|].
  rewrite Hc. simpl. rewrite IH. by destruct (truthy _).
Qed.

Section answered.
Variable E : env.
Hypothesis Hnet : healthy E.

Lemma request_answered self c σ r d :
  redis_exec c (redis σ) = (inr r, d) →
  _request E self c σ =
    (Ok r, with_redis d (with_redis_log (redis_log σ ++ [c]) σ)).
Proof. intros Hx. unfold _request. by rewrite Hnet, Hx. Qed.

Lemma exists_answered self k σ :
  exists_ E self k σ =
    (Ok (bool_decide (is_Some (redis σ !! k))),
     with_redis (redis σ) (with_redis_log (redis_log σ ++ [EXISTS k]) σ)).
Proof.
  unfold exists_, bind. erewrite request_answered by reflexivity.
  unfold ret. f_equal. f_equal. by destruct (redis σ !! k).
Qed.

Lemma smembers_answered self k σ :
  usable (redis σ) k →
  smembers E self k σ =
    (Ok (members (redis σ) k),
     with_redis (redis σ) (with_redis_log (redis_log σ ++ [SMEMBERS k]) σ)).
Proof.
  intros Hu. unfold smembers, bind, members.
  destruct (redis σ !! k) as [[s|m]|] eqn:Hk.
  - by destruct (Hu s).
  - erewrite request_answered by (simpl; by rewrite Hk).
    unfold lift. simpl. do 2 f_equal.
    apply set_eq. intros x. by rewrite elem_of_list_to_set, elem_of_elements.
  - erewrite request_answered by (simpl; by rewrite Hk). done.
Qed.

Lemma sadd_answered self k vs σ :
  usable (redis σ) k → vs ≠ [] →
  ∃ r, sadd E self k vs σ =
    (Ok r, with_redis (db_add (redis σ) k vs)
             (with_redis_log (redis_log σ ++ [SADD k vs]) σ)).
Proof.
  intros Hu Hvs. unfold sadd, db_add, members.
  destruct vs as [|v vs]; [done|].
  destruct (redis σ !! k) as [[s|m]|] eqn:Hk.
  - by destruct (Hu s).
  - eexists. apply request_answered. simpl. by rewrite Hk.
  - eexists. erewrite request_answered; [|simpl; by rewrite Hk].
    do 3 f_equal. by rewrite (left_id_L ∅ (∪)).
Qed.

Lemma set_answered self k v σ :
  set E self k v σ =
    (Ok (RStatus "OK"),
     with_redis (<[k := RString v]> (redis σ))
       (with_redis_log (redis_log σ ++ [SET k v]) σ)).
Proof. unfold set. by apply request_answered. Qed.

Variable G : globals.

Lemma notify_answered self new_listings sent σ :
  usable (redis σ) (STORAGE_SEEN_KEY G) →
  Forall (formattable G) new_listings →
  let got := delivered E G (length (outbox σ)) new_listings in
  ∃ σ', notify E G self new_listings sent σ = (Ok (sent + length got), σ')
    ∧ members (redis σ') (STORAGE_SEEN_KEY G)
      = members (redis σ) (STORAGE_SEEN_KEY G) ∪ lots_of got
    ∧ (∀ k, k ≠ STORAGE_SEEN_KEY G → redis σ' !! k = redis σ !! k)
    ∧ usable (redis σ') (STORAGE_SEEN_KEY G)
    ∧ redis_log σ'
      = redis_log σ ++ map (λ l, SADD (STORAGE_SEEN_KEY G) [lot_of l]) got
    ∧ outbox σ'
      = outbox σ ++ (if configured G
                     then map (λ l, the_call G (message_of G l))
                            (attempted new_listings)
                     else [])
    ∧ sleeps σ' = sleeps σ + length got
    ∧ site_log σ' = site_log σ
    ∧ warnings (logged σ')
      = warnings (logged σ)
        + (if configured G then 0 else length (attempted new_listings))
    ∧ (got = [] → redis σ' = redis σ).
Proof.
  revert sent σ.
  induction new_listings as [|l rest IH]; intros sent σ Hu Hfmt; simpl.
  { exists σ. rewrite !app_nil_r, Nat.add_0_r. unfold lots_of. simpl.
    rewrite (right_id_L ∅ (∪)).
    destruct (configured G); rewrite ?app_nil_r, ?Nat.add_0_r; done. }
  apply Forall_cons in Hfmt as [[text Htext] Hfmt].
  unfold attempted. simpl. fold (attempted rest).
  destruct (truthy (get l "lot")) eqn:Hlot; simpl; [|by apply IH].
  unfold bind at 1, lift. rewrite Htext.
  destruct (send_spec E G text σ)
    as (σ1 & Hsend & Hr1 & Hl1 & Hs1 & Hz1 & Ho1 & Hw1).
  unfold bind at 1. rewrite Hsend.
  assert (Hlen : length (outbox σ1)
                 = if configured G then S (length (outbox σ)) else length (outbox σ)).
  { rewrite Ho1. destruct (configured G); [|done].
    rewrite length_app. simpl. lia. }
  assert (Hmsg : message_of G l = text) by (unfold message_of; by rewrite Htext).
  destruct (configured G && acknowledged (telegram E (length (outbox σ))))
    eqn:Hok.
  - apply andb_true_iff in Hok as [Hc Hack]. rewrite Hc in *.
    destruct (sadd_answered self (STORAGE_SEEN_KEY G) [lot_of l] σ1)
      as (r & Hadd); [by rewrite Hr1|done|].
    unfold bind at 1. unfold lot_of in Hadd. rewrite Hadd.
    unfold bind at 1. simpl.
    set (σ3 := with_sleeps _ _).
    destruct (IH (S sent) σ3)
      as (σ' & Hrun & Hm & Hk & Hu' & Hl & Ho & Hz & Hs & Hw & _); [|done|].
    { subst σ3. simpl. apply usable_db_add. by rewrite Hr1. }
    subst σ3. simpl in *. rewrite Hlen in *.
    exists σ'. rewrite Hrun. split; [f_equal; f_equal; lia|].
    split.
    { rewrite Hm, members_db_add, Hr1. unfold lots_of. simpl.
      unfold lot_of at 2. by rewrite (right_id_L ∅ (∪)), (assoc_L (∪)). }
    split.
    { intros k Hne. rewrite Hk by done. unfold db_add.
      rewrite lookup_insert_ne by done. by rewrite Hr1. }
    split; [done|]. split.
    { rewrite Hl, Hl1, <- app_assoc. done. }
    split.
    { rewrite Ho, Ho1, <- app_assoc. simpl. by rewrite Hmsg. }
    split; [rewrite Hz, Hz1; lia|]. split; [by rewrite Hs, Hs1|].
    split; [rewrite Hw, Hw1; lia|done].
  - destruct (IH sent σ1)
      as (σ' & Hrun & Hm & Hk & Hu' & Hl & Ho & Hz & Hs & Hw & Hsame);
      [by rewrite Hr1|done|].
    rewrite Hlen in *.
    exists σ'. rewrite Hrun. split; [done|].
    split; [by rewrite Hm, Hr1|].
    split; [intros k Hne; by rewrite Hk, Hr1|].
    split; [done|].
    split; [by rewrite Hl, Hl1|].
    split.
    { rewrite Ho, Ho1. destruct (configured G); [|done].
      rewrite <- app_assoc. simpl. by rewrite Hmsg. }
    split; [by rewrite Hz, Hz1|]. split; [by rewrite Hs, Hs1|].
    split; [rewrite Hw, Hw1; destruct (configured G); simpl; lia|].
    intros Hnil. by rewrite Hsame, Hr1.
Qed.

End answered.

Lemma warnings_app a b : warnings (a ++ b) = warnings a + warnings b.
Proof. unfold warnings. by rewrite List.filter_app, length_app. Qed.

Lemma warnings_info m : warnings [INFO m] = 0.
Proof. reflexivity. Qed.

Section incremental.
Variable E : env.
Hypothesis Hnet : healthy E.

Lemma flask_incremental (dry_run : bool) σ listings :
  let G := flask_app.G (environ E) in
  let new_listings :=
    new_listings_of listings (members (redis σ) (STORAGE_SEEN_KEY G)) in
  let got : list listing :=
    if dry_run then [] else delivered E G (length (outbox σ)) new_listings in
  store_configured G →
  is_Some (redis σ !! STORAGE_INIT_KEY G) →
  usable (redis σ) (STORAGE_SEEN_KEY G) →
  site_serves E G σ listings →
  (dry_run = false → Forall (formattable G) new_listings) →
  ∃ σ', flask_app.run_check E dry_run σ
        = (Ok (incremental_result dry_run listings new_listings got), σ')
    ∧ members (redis σ') (STORAGE_SEEN_KEY G)
      = members (redis σ) (STORAGE_SEEN_KEY G) ∪ lots_of got
    ∧ (∀ k, k ≠ STORAGE_SEEN_KEY G → redis σ' !! k = redis σ !! k)
    ∧ redis_log σ'
      = redis_log σ ++ [EXISTS (STORAGE_INIT_KEY G); SMEMBERS (STORAGE_SEEN_KEY G)]
        ++ map (λ l, SADD (STORAGE_SEEN_KEY G) [lot_of l]) got
    ∧ outbox σ'
      = outbox σ ++ (if configured G && negb dry_run
                     then map (λ l, the_call G (message_of G l)) new_listings
                     else [])
    ∧ sleeps σ' = sleeps σ + length got
    ∧ warnings (logged σ')
      = warnings (logged σ)
        + (if configured G || dry_run then 0 else length new_listings)
    ∧ (got = [] → redis σ' = redis σ).
Proof.
  intros G new_listings got Hcfg Hinit Hu Hsite Hfmt.
  unfold flask_app.run_check, log_and_reraise, try_except. fold G.
  erewrite (bind_ok (get_redis_client G))
    by (by apply get_redis_client_configured).
  erewrite bind_ok by apply (exists_answered E Hnet).
  rewrite bool_decide_true by done. change (negb true) with false. cbv iota.
  erewrite bind_ok by (by apply fetch_served).
  erewrite bind_ok by reflexivity.
  erewrite bind_ok by (by apply smembers_answered).
  erewrite bind_ok by reflexivity.
  norm_state.
  change (new_listings_of listings (members (redis σ) flask_app.STORAGE_SEEN_KEY))
    with new_listings.
  assert (Hatt : attempted new_listings = new_listings)
    by apply new_listings_attempted.
  subst got. clearbody new_listings.
  destruct new_listings as [|l0 rest].
  { eexists. split; [reflexivity|]. norm_state. unfold lots_of.
    replace (if dry_run then [] else delivered E G (length (outbox σ)) [])
      with (@nil listing) by (by destruct dry_run).
    cbn [map length list_to_set].
    rewrite (right_id_L ∅ (∪)), Nat.add_0_r, !warnings_app, ?warnings_info.
    repeat split; try done.
    - by rewrite <- app_assoc.
    - destruct (configured G && negb dry_run); by rewrite app_nil_r.
    - destruct (configured G || dry_run); lia. }
  set (new_listings := l0 :: rest) in *.
  erewrite bind_ok by reflexivity. norm_state.
  destruct dry_run.
  { eexists. split; [reflexivity|]. norm_state. unfold lots_of.
    cbn [map length list_to_set].
    rewrite (right_id_L ∅ (∪)), Nat.add_0_r, andb_false_r, orb_true_r,
      !warnings_app, ?warnings_info.
    repeat split; try done.
    - by rewrite <- app_assoc.
    - by rewrite app_nil_r.
    - simpl. lia. }
  match goal with |- context [bind (notify E G ?self new_listings 0) _ ?σ0] =>
    pose proof (notify_answered E Hnet G self new_listings 0 σ0 Hu
                  (Hfmt eq_refl)) as HH
  end.
  cbv zeta in HH.
  destruct HH as (σ' & Hrun & Hm & Hk & _ & Hl & Ho & Hz & _ & Hw & Hsame).
  revert Hrun Hm Hk Hl Ho Hz Hw Hsame. norm_state.
  intros Hrun Hm Hk Hl Ho Hz Hw Hsame.
  erewrite bind_ok by apply Hrun.
  exists σ'. split; [done|].
  rewrite Hatt in Ho, Hw. rewrite !warnings_app, ?warnings_info in Hw.
  rewrite Hl, <- app_assoc, andb_true_r, orb_false_r. repeat split; try done.
  - by rewrite <- app_assoc.
  - rewrite Hw. simpl. lia.
Qed.

Lemma toyota_incremental dry_run σ listings :
  let G := toyota.G (environ E) in
  let new_listings :=
    new_listings_of listings (members (redis σ) (STORAGE_SEEN_KEY G)) in
  let got := delivered E G (length (outbox σ)) new_listings in
  store_configured G →
  is_Some (redis σ !! STORAGE_INIT_KEY G) →
  usable (redis σ) (STORAGE_SEEN_KEY G) →
  site_serves E G σ listings →
  Forall (formattable G) new_listings →
  ∃ σ', toyota.run_check E dry_run σ
        = (Ok (incremental_result false listings new_listings got), σ')
    ∧ members (redis σ') (STORAGE_SEEN_KEY G)
      = members (redis σ) (STORAGE_SEEN_KEY G) ∪ lots_of got
    ∧ (∀ k, k ≠ STORAGE_SEEN_KEY G → redis σ' !! k = redis σ !! k)
    ∧ redis_log σ'
      = redis_log σ ++ [EXISTS (STORAGE_INIT_KEY G); SMEMBERS (STORAGE_SEEN_KEY G)]
        ++ map (λ l, SADD (STORAGE_SEEN_KEY G) [lot_of l]) got
    ∧ outbox σ'
      = outbox σ ++ (if configured G
                     then map (λ l, the_call G (message_of G l)) new_listings
                     else [])
    ∧ sleeps σ' = sleeps σ + length got
    ∧ warnings (logged σ')
      = warnings (logged σ) + (if configured G then 0 else length new_listings)
    ∧ (got = [] → redis σ' = redis σ).
Proof.
  intros G new_listings got Hcfg Hinit Hu Hsite Hfmt.
  unfold toyota.run_check, log_and_reraise, try_except. fold G.
  erewrite (bind_ok (get_redis_client G))
    by (by apply get_redis_client_configured).
  erewrite bind_ok by apply (exists_answered E Hnet).
  rewrite bool_decide_true by done. change (negb true) with false. cbv iota.
  erewrite bind_ok by (by apply fetch_served).
  erewrite bind_ok by reflexivity.
  erewrite bind_ok by (by apply smembers_answered).
  norm_state.
  change (new_listings_of listings (members (redis σ) toyota.STORAGE_SEEN_KEY))
    with new_listings.
  assert (Hatt : attempted new_listings = new_listings)
    by apply new_listings_attempted.
  subst got. clearbody new_listings.
  destruct new_listings as [|l0 rest].
  { eexists. split; [reflexivity|]. norm_state. unfold lots_of.
    cbn [delivered map length list_to_set].
    rewrite (right_id_L ∅ (∪)), Nat.add_0_r, !warnings_app, ?warnings_info.
    repeat split; try done.
    - by rewrite <- app_assoc.
    - destruct (configured G); by rewrite app_nil_r.
    - destruct (configured G); lia. }
  set (new_listings := l0 :: rest) in *.
  match goal with |- context [bind (notify E G ?self new_listings 0) _ ?σ0] =>
    pose proof (notify_answered E Hnet G self new_listings 0 σ0 Hu Hfmt) as HH
  end.
  cbv zeta in HH.
  destruct HH as (σ' & Hrun & Hm & Hk & _ & Hl & Ho & Hz & _ & Hw & Hsame).
  revert Hrun Hm Hk Hl Ho Hz Hw Hsame. norm_state.
  intros Hrun Hm Hk Hl Ho Hz Hw Hsame.
  erewrite bind_ok by apply Hrun.
  exists σ'. split; [done|].
  rewrite Hatt in Ho, Hw. rewrite !warnings_app, ?warnings_info in Hw.
  rewrite Hl, <- app_assoc. repeat split; try done.
  - by rewrite <- app_assoc.
  - rewrite Hw. simpl. lia.
Qed.

End incremental.

(** *** The first run when the store answers *)

Lemma bootstrap_answered E G self σ listings :
  healthy E →
  usable (redis σ) (STORAGE_SEEN_KEY G) →
  STORAGE_SEEN_KEY G ≠ STORAGE_INIT_KEY G →
  site_serves E G σ listings →
  let lots := bootstrap_lots listings in
  let adds :=
    if decide (lots = ∅) then []
    else [SADD (STORAGE_SEEN_KEY G) (elements lots)] in
  ∃ σ', bootstrap E G self σ
        = (Ok {| sent := 0; reason := "bootstrap"; new_count := None;
                 total := length listings |}, σ')
    ∧ redis_log σ' = redis_log σ ++ adds ++ [SET (STORAGE_INIT_KEY G) "1"]
    ∧ members (redis σ') (STORAGE_SEEN_KEY G)
      = members (redis σ) (STORAGE_SEEN_KEY G) ∪ lots
    ∧ redis σ' !! STORAGE_INIT_KEY G = Some (RString "1")
    ∧ (∀ k, k ≠ STORAGE_SEEN_KEY G → k ≠ STORAGE_INIT_KEY G →
            redis σ' !! k = redis σ !! k)
    ∧ outbox σ' = outbox σ ∧ sleeps σ' = sleeps σ
    ∧ site_log σ' = site_log σ ++ [request_url G].
Proof.
  intros Hnet Hu Hkeys Hsite lots adds. unfold bootstrap.
  erewrite bind_ok by reflexivity.
  erewrite bind_ok by (by apply fetch_served).
  fold lots. subst adds.
  destruct (decide (lots = ∅)) as [Hempty|Hne].
  - rewrite bool_decide_false by (by intros ?).
    erewrite bind_ok by reflexivity.
    erewrite bind_ok by apply (set_answered E Hnet).
    eexists. split; [reflexivity|]. norm_state.
    rewrite Hempty, (right_id_L ∅ (∪)), lookup_insert_eq, members_insert_ne
      by done.
    repeat split; try done. intros k _ ?. by rewrite lookup_insert_ne.
  - rewrite bool_decide_true by done.
    match goal with |- context [bind (sadd E self _ _) _ ?σ1] =>
      destruct (sadd_answered E Hnet self (STORAGE_SEEN_KEY G) (elements lots) σ1)
        as (r & Hadd); [exact Hu| |]
    end.
    { intros Hnil. by apply elements_empty_inv, leibniz_equiv in Hnil. }
    erewrite bind_ok by apply Hadd.
    erewrite bind_ok by apply (set_answered E Hnet).
    eexists. split; [reflexivity|]. norm_state.
    rewrite lookup_insert_eq, members_insert_ne, members_db_add,
      list_to_set_elements_L by done.
    repeat split; try done.
    + by rewrite <- app_assoc.
    + intros k ??. unfold db_add. by rewrite !lookup_insert_ne.
Qed.

Lemma run_check_bootstrap p E dry_run σ listings :
  let G := globals_of p (environ E) in
  healthy E → store_configured G →
  redis σ !! init_key p = None →
  usable (redis σ) (seen_key p) →
  site_serves E G σ listings →
  let lots := bootstrap_lots listings in
  let adds :=
    if decide (lots = ∅) then [] else [SADD (seen_key p) (elements lots)] in
  ∃ σ', run_check p E dry_run σ
        = (Ok {| sent := 0; reason := "bootstrap"; new_count := None;
                 total := length listings |}, σ')
    ∧ redis_log σ'
      = redis_log σ ++ [EXISTS (init_key p)] ++ adds ++ [SET (init_key p) "1"]
    ∧ seen p σ' = seen p σ ∪ lots
    ∧ redis σ' !! init_key p = Some (RString "1")
    ∧ (∀ k, k ≠ seen_key p → k ≠ init_key p → redis σ' !! k = redis σ !! k)
    ∧ outbox σ' = outbox σ ∧ sleeps σ' = sleeps σ
    ∧ site_log σ' = site_log σ ++ [request_url G].
Proof.
  intros G Hnet Hcfg Hinit Hu Hsite lots adds.
  assert (Hboot : ∀ self σ1,
            redis σ1 = redis σ → site_log σ1 = site_log σ →
            ∃ σ', bootstrap E G self σ1
                  = (Ok {| sent := 0; reason := "bootstrap"; new_count := None;
                           total := length listings |}, σ')
              ∧ redis_log σ' = redis_log σ1 ++ adds ++ [SET (init_key p) "1"]
              ∧ seen p σ' = seen p σ ∪ lots
              ∧ redis σ' !! init_key p = Some (RString "1")
              ∧ (∀ k, k ≠ seen_key p → k ≠ init_key p →
                      redis σ' !! k = redis σ !! k)
              ∧ outbox σ' = outbox σ1 ∧ sleeps σ' = sleeps σ1
              ∧ site_log σ' = site_log σ1 ++ [request_url G]).
  { intros self σ1 Hr Hs.
    destruct (bootstrap_answered E G self σ1 listings)
      as (σ' & Hrun & Hl & Hm & Hi & Hk & Ho & Hz & Hsl); try done.
    - rewrite Hr. by destruct p.
    - by destruct p.
    - destruct Hsite as (q & ? & ?). exists q. by rewrite Hs.
    - exists σ'. unfold seen. rewrite Hr in Hm, Hk.
      destruct p; by repeat split. }
  assert (Hcfg' := get_redis_client_configured G σ Hcfg).
  destruct p; simpl in *.
  - unfold flask_app.run_check, log_and_reraise, try_except. fold G.
    erewrite (bind_ok (get_redis_client G)) by exact Hcfg'.
    erewrite bind_ok by apply (exists_answered E Hnet).
    rewrite bool_decide_false by (unfold init_key in Hinit; simpl in Hinit;
                                  rewrite Hinit; by intros [? ?]).
    change (negb false) with true. cbv iota.
    edestruct Hboot as (σ' & -> & Hl & Hrest); [| |exists σ'; split; [done|]];
      [done..|].
    norm_state. rewrite Hl, <- app_assoc. done.
  - unfold toyota.run_check, log_and_reraise, try_except. fold G.
    erewrite (bind_ok (get_redis_client G)) by exact Hcfg'.
    erewrite bind_ok by apply (exists_answered E Hnet).
    rewrite bool_decide_false by (unfold init_key in Hinit; simpl in Hinit;
                                  rewrite Hinit; by intros [? ?]).
    change (negb false) with true. cbv iota.
    edestruct Hboot as (σ' & -> & Hl & Hrest); [| |exists σ'; split; [done|]];
      [done..|].
    norm_state. rewrite Hl, <- app_assoc. done.
Qed.


(** *** An incremental run of either profile when the store answers *)

Lemma run_check_incremental p E dry_run σ listings :
  let G := globals_of p (environ E) in
  let new_listings := new_listings_of listings (seen p σ) in
  let dry := reads_dry_run p && dry_run in
  let got : list listing :=
    if dry then [] else delivered E G (length (outbox σ)) new_listings in
  healthy E → store_configured G →
  is_Some (redis σ !! init_key p) →
  usable (redis σ) (seen_key p) →
  site_serves E G σ listings →
  (dry = false → Forall (formattable G) new_listings) →
  ∃ σ', run_check p E dry_run σ
        = (Ok (incremental_result dry listings new_listings got), σ')
    ∧ seen p σ' = seen p σ ∪ lots_of got
    ∧ (∀ k, k ≠ seen_key p → redis σ' !! k = redis σ !! k)
    ∧ redis_log σ'
      = redis_log σ ++ [EXISTS (init_key p); SMEMBERS (seen_key p)]
        ++ map (λ l, SADD (seen_key p) [lot_of l]) got
    ∧ outbox σ'
      = outbox σ ++ (if configured G && negb dry
                     then map (λ l, the_call G (message_of G l)) new_listings
                     else [])
    ∧ sleeps σ' = sleeps σ + length got
    ∧ warnings (logged σ')
      = warnings (logged σ)
        + (if configured G || dry then 0 else length new_listings)
    ∧ (got = [] → redis σ' = redis σ).
Proof.
  intros G new_listings dry got Hnet Hcfg Hinit Hu Hsite Hfmt.
  destruct p.
  - apply (flask_incremental E Hnet dry_run σ listings); done.
  - destruct (toyota_incremental E Hnet dry_run σ listings)
      as (σ' & Hrun & Hm & Hk & Hl & Ho & Hz & Hw & Hsame); try done.
    { by apply Hfmt. }
    exists σ'. subst dry got. simpl. rewrite andb_true_r, orb_false_r.
    by repeat split.
Qed.

(** *** The delta *)

(** The comprehension of the source selects the listings that are new
    in the words of the specification. *)
Lemma new_listings_filter listings seen_lots :
  new_listings_of listings seen_lots = filter (is_new seen_lots) listings.
Proof.
  unfold new_listings_of.
  induction listings as [|l rest IH]; [done|].
  rewrite filter_cons. simpl. rewrite IH.
  destruct (decide (is_new seen_lots l)) as [(s & Hl & Hne & Hs)|Hnot].
  - unfold get. rewrite Hl. simpl.
    rewrite bool_decide_false by done.
    apply String.eqb_neq in Hne. by rewrite Hne.
  - destruct (truthy (get l "lot") && not_in (get l "lot") seen_lots) eqn:Hb;
      [|done].
    destruct Hnot. apply andb_true_iff in Hb as [Ht Hn].
    apply truthy_get in Ht as (s & Hl & Hne). exists s.
    unfold get in Hn. rewrite Hl in Hn. simpl in Hn.
    apply negb_true_iff, bool_decide_eq_false in Hn. done.
Qed.

Lemma new_listings_sublist listings seen_lots :
  sublist (new_listings_of listings seen_lots) listings.
Proof. rewrite new_listings_filter. apply sublist_filter. Qed.

Lemma new_listings_not_seen listings seen_lots l s :
  l ∈ new_listings_of listings seen_lots → l !! "lot" = Some (VStr s) →
  s ∉ seen_lots.
Proof.
  rewrite new_listings_filter. intros [(s' & Hl & _ & Hs) _]%list_elem_of_filter Hl'.
  by simplify_eq.
Qed.

(** What a run posts to Telegram are texts of listings of its delta. *)
Lemma run_posts_delta p E dry_run σ listings :
  let G := globals_of p (environ E) in
  site_serves E G σ listings →
  ∃ ts, outbox (run_check p E dry_run σ).2 = outbox σ ++ ts
    ∧ Forall (λ t, ∃ l, l ∈ new_listings_of listings (seen p σ)
                        ∧ format_listing_message G l = Ok (tg_text t)) ts.
Proof.
  intros G Hsite.
  destruct (run_trace p E dry_run σ) as (_ & (ts & Ho & Hts) & _).
  exists ts. split; [done|]. eapply Forall_impl; [done|].
  intros t (l & (Hin & Ht & Hn) & Hf). exists l. split; [|done].
  apply new_listings_of_spec. rewrite (snapshot_served E _ σ listings) in Hin by done.
  repeat split; try done. unfold seen. by destruct p.
Qed.

(** *** The keys of the two profiles *)

Lemma seen_key_globals p environ :
  STORAGE_SEEN_KEY (globals_of p environ) = seen_key p.
Proof. by destruct p. Qed.

Lemma init_key_globals p environ :
  STORAGE_INIT_KEY (globals_of p environ) = init_key p.
Proof. by destruct p. Qed.

Lemma profile_keys_differ p : seen_key p ≠ init_key p.
Proof. by destruct p. Qed.

Lemma run_db_reach p E dry_run σ :
  db_reach (cmd_ok (seen_key p) (init_key p)
              (snapshot_lot E (globals_of p (environ E)) σ))
    (redis σ) (redis (run_check p E dry_run σ).2).
Proof.
  destruct (run_trace p E dry_run σ) as (_ & _ & Hdb & _).
  unfold run_cmd in Hdb. by rewrite seen_key_globals, init_key_globals in Hdb.
Qed.

(** *** The scenarios of the specification, evaluated *)

Example scenario_all_delivered :
  let E := env_serving environ_full (map lot_listing ["A"; "B"; "C"; "D"]) in
  let r := flask_app.run_check E false (state_seen ["A"; "B"]) in
  r.1 = Ok {| sent := 2; reason := "new_listings"; new_count := Some 2;
              total := 4 |}
  ∧ seen Lexus r.2 = {[ "A"; "B"; "C"; "D" ]}
  ∧ map tg_text (outbox r.2)
    = map (message_of (flask_app.G environ_full)) [lot_listing "C"; lot_listing "D"]
  ∧ sleeps r.2 = 2.
Proof. vm_compute. repeat split. Qed.

Example scenario_nothing_new :
  let E := env_serving environ_full [lot_listing "A"] in
  let r := toyota.run_check E false (state_seen ["A"]) in
  r.1 = Ok {| sent := 0; reason := "no_new_listings"; new_count := None;
              total := 1 |}
  ∧ redis r.2 = redis (state_seen ["A"]) ∧ outbox r.2 = [].
Proof. vm_compute. repeat split. Qed.

Example scenario_second_delivery_fails :
  let r := flask_app.run_check env_second_fails false (state_seen ["A"; "B"]) in
  r.1 = Ok {| sent := 1; reason := "new_listings"; new_count := Some 2;
              total := 4 |}
  ∧ seen Lexus r.2 = {[ "A"; "B"; "C" ]}
  ∧ redis_log r.2
    = [ EXISTS "bidcars:seen-initialized"; SMEMBERS "bidcars:seen-lots";
        SADD "bidcars:seen-lots" ["C"] ].
Proof. vm_compute. repeat split. Qed.

Example split_example :
  split "  2019  Lexus NX 300 " = ["2019"; "Lexus"; "NX"; "300"]
  ∧ split "   " = [] ∧ rstrip_slash "https://example.upstash.io//"
                       = "https://example.upstash.io".
Proof. vm_compute. repeat split. Qed.

(** ** The claims *)

Ltac scenario :=
  repeat match goal with
  | |- healthy _ => intros ?; reflexivity
  | |- store_configured _ => split; vm_compute; reflexivity
  | |- usable _ _ => intros ?; vm_compute; discriminate
  | |- site_serves _ _ _ _ => eexists; split; [reflexivity|vm_compute; reflexivity]
  | |- is_Some _ => vm_compute; eexists; reflexivity
  | |- Forall _ _ => constructor
  | |- formattable _ _ => eexists; vm_compute; reflexivity
  | |- _ ∧ _ => split
  end.

(** *** C1: dry run *)

(** C1, as stated, fails: a dry run of [flask_app] on a store without
    the init-flag performs the bootstrap (one [SADD], one [SET]), and
    [toyota.run_check] delivers and adds whatever its [dry_run]
    argument is. Here both are run with [dry_run = True] on a snapshot
    with the single lot "A". *)
Lemma C1_dry_run_writes :
  (let E := env_serving environ_full [lot_listing "A"] in
   let r := flask_app.run_check E true state_fresh in
   r.1 = Ok {| sent := 0; reason := "bootstrap"; new_count := None; total := 1 |}
   ∧ redis_log r.2
     = [ EXISTS "bidcars:seen-initialized";
         SADD "bidcars:seen-lots" ["A"];
         SET "bidcars:seen-initialized" "1" ]
   ∧ seen Lexus state_fresh = ∅ ∧ seen Lexus r.2 = {[ "A" ]})
  ∧
  (let E := env_serving environ_full [lot_listing "A"] in
   let r := toyota.run_check E true (state_seen []) in
   r.1 = Ok {| sent := 1; reason := "new_listings"; new_count := Some 1;
               total := 1 |}
   ∧ length (outbox r.2) = 1
   ∧ seen Toyota (state_seen []) = ∅ ∧ seen Toyota r.2 = {[ "A" ]}).
Proof. vm_compute. repeat split. Qed.

(** C1, amended: for every state of the store in which the init-flag
    exists and every environment, [flask_app.run_check] with dry-run
    enabled leaves the store as it is, issues read-only commands only
    ([EXISTS], [SMEMBERS]: no add, no scalar set) and makes no call to
    Telegram, whatever the size of the delta; and when the store
    answers, the site serves a snapshot and the delta is not empty, it
    returns reason [dry_run] with the delta count. *)
Theorem C1_dry_run_reads_only E σ :
  is_Some (redis σ !! init_key Lexus) →
  let G := globals_of Lexus (environ E) in
  redis (flask_app.run_check E true σ).2 = redis σ
  ∧ outbox (flask_app.run_check E true σ).2 = outbox σ
  ∧ (∃ cs, redis_log (flask_app.run_check E true σ).2 = redis_log σ ++ cs
           ∧ Forall read_only cs)
  ∧ ∀ listings,
      healthy E → store_configured G → usable (redis σ) (seen_key Lexus) →
      site_serves E G σ listings →
      new_listings_of listings (seen Lexus σ) ≠ [] →
      (flask_app.run_check E true σ).1
      = Ok {| sent := 0; reason := "dry_run";
              new_count := Some (length (new_listings_of listings (seen Lexus σ)));
              total := length listings |}.
Proof.
  intros Hinit G.
  destruct (flask_dry_trace E σ Hinit) as ((cs & Hcs & Hro) & (ts & Hts & Hno) & Hdb & _).
  split; [by apply db_reach_read_only|].
  split.
  { destruct ts as [|t ts]; [by rewrite Hts, app_nil_r|].
    by apply Forall_cons in Hno as [[] _]. }
  split; [by exists cs|].
  intros listings Hnet Hcfg Hu Hsite Hnew.
  destruct (run_check_incremental Lexus E true σ listings)
    as (σ' & Hrun & _); try done.
  simpl in Hrun. rewrite Hrun. simpl. unfold incremental_result.
  by destruct (new_listings_of listings (seen Lexus σ)).
Qed.

Lemma C1_dry_run_reads_only_witness :
  let E := env_serving environ_full (map lot_listing ["A"; "B"; "C"]) in
  let σ := state_seen ["A"] in
  is_Some (redis σ !! init_key Lexus)
  ∧ redis (flask_app.run_check E true σ).2 = redis σ
  ∧ outbox (flask_app.run_check E true σ).2 = outbox σ
  ∧ (flask_app.run_check E true σ).1
    = Ok {| sent := 0; reason := "dry_run"; new_count := Some 2; total := 3 |}.
Proof.
  intros E σ.
  assert (Hinit : is_Some (redis σ !! init_key Lexus)) by scenario.
  destruct (C1_dry_run_reads_only E σ Hinit) as (Hr & Ho & _ & Hres).
  split; [exact Hinit|]. split; [exact Hr|]. split; [exact Ho|].
  apply (Hres (map lot_listing ["A"; "B"; "C"])); [scenario..|].
  vm_compute. discriminate.
Defined.

(** *** C3: bootstrap *)

(** C3: whenever the init-flag does not exist (and the store answers,
    the site serves a snapshot [listings]), [run_check] of either
    profile, whatever its dry-run flag, fetches once, adds exactly the
    set of non-empty lot identifiers of [listings] to the seen-set in
    one [SADD] (none when that set is empty), then sets the init-flag,
    calls Telegram not at all and returns [sent = 0], reason
    [bootstrap] and the number of listings as total. *)
Theorem C3_bootstrap p E dry_run σ listings :
  let G := globals_of p (environ E) in
  healthy E → store_configured G →
  redis σ !! init_key p = None →
  usable (redis σ) (seen_key p) →
  site_serves E G σ listings →
  let lots := bootstrap_lots listings in
  (∀ s, s ∈ lots ↔ ∃ l, l ∈ listings ∧ l !! "lot" = Some (VStr s) ∧ s ≠ "")
  ∧ ∃ σ', run_check p E dry_run σ
          = (Ok {| sent := 0; reason := "bootstrap"; new_count := None;
                   total := length listings |}, σ')
      ∧ site_log σ' = site_log σ ++ [request_url G]
      ∧ redis_log σ'
        = redis_log σ ++ [EXISTS (init_key p)]
          ++ (if decide (lots = ∅) then []
              else [SADD (seen_key p) (elements lots)])
          ++ [SET (init_key p) "1"]
      ∧ seen p σ' = seen p σ ∪ lots
      ∧ redis σ' !! init_key p = Some (RString "1")
      ∧ outbox σ' = outbox σ.
Proof.
  intros G Hnet Hcfg Hinit Hu Hsite lots.
  split; [intros s; apply bootstrap_lots_spec|].
  destruct (run_check_bootstrap p E dry_run σ listings)
    as (σ' & Hrun & Hl & Hm & Hi & _ & Ho & _ & Hs); try done.
  exists σ'. by repeat split.
Qed.

Lemma C3_bootstrap_witness :
  let E := env_serving environ_full
             [lot_listing "A"; ∅; lot_listing ""; lot_listing "B"; lot_listing "A"] in
  let r := run_check Toyota E true state_fresh in
  (healthy E ∧ store_configured (globals_of Toyota (environ E))
   ∧ redis state_fresh !! init_key Toyota = None
   ∧ usable (redis state_fresh) (seen_key Toyota))
  ∧ r.1 = Ok {| sent := 0; reason := "bootstrap"; new_count := None; total := 5 |}
  ∧ seen Toyota r.2 = {[ "A"; "B" ]} ∧ outbox r.2 = [].
Proof.
  intros E r. split; [scenario; reflexivity|].
  destruct (C3_bootstrap Toyota E true state_fresh
              [lot_listing "A"; ∅; lot_listing ""; lot_listing "B"; lot_listing "A"])
    as (_ & σ' & Hrun & _ & _ & Hseen & _ & Ho); [scenario; reflexivity..|].
  subst r. rewrite Hrun. simpl. split; [reflexivity|]. split; [|exact Ho].
  rewrite Hseen. vm_compute. reflexivity.
Defined.

(** *** C4: the delta *)

(** C4: in an incremental run (the init-flag exists, the store answers,
    the site serves [listings]) of either profile, the delta the run
    computes, [new_listings_of listings (seen p σ)], is the sublist of
    [listings] whose lot identifier is a non-empty string outside the
    seen-set, in the order of the snapshot; a listing whose lot
    identifier is in the seen-set is not in it, whatever its other
    attributes; every text the run posts to Telegram is the text of a
    listing of the delta; and an empty delta yields reason
    [no_new_listings] with [sent = 0], the store and the outbox
    untouched. *)
Theorem C4_delta p E dry_run σ listings :
  let G := globals_of p (environ E) in
  healthy E → store_configured G →
  is_Some (redis σ !! init_key p) →
  usable (redis σ) (seen_key p) →
  site_serves E G σ listings →
  let new_listings := new_listings_of listings (seen p σ) in
  new_listings = filter (is_new (seen p σ)) listings
  ∧ sublist new_listings listings
  ∧ (∀ l s, l !! "lot" = Some (VStr s) → s ∈ seen p σ → l ∉ new_listings)
  ∧ (∃ ts, outbox (run_check p E dry_run σ).2 = outbox σ ++ ts
       ∧ Forall (λ t, ∃ l, l ∈ new_listings
                           ∧ format_listing_message G l = Ok (tg_text t)) ts)
  ∧ (new_listings = [] →
     (run_check p E dry_run σ).1
     = Ok {| sent := 0; reason := "no_new_listings"; new_count := None;
             total := length listings |}
     ∧ redis (run_check p E dry_run σ).2 = redis σ
     ∧ outbox (run_check p E dry_run σ).2 = outbox σ).
Proof.
  intros G Hnet Hcfg Hinit Hu Hsite new_listings.
  split; [apply new_listings_filter|].
  split; [apply new_listings_sublist|].
  split.
  { intros l s Hl Hs Hin. by eapply new_listings_not_seen. }
  split; [by apply run_posts_delta|].
  intros Hnil.
  destruct (run_check_incremental p E dry_run σ listings)
    as (σ' & Hrun & _ & _ & _ & Ho & _ & _ & Hsame); try done.
  { fold new_listings. by rewrite Hnil. }
  unfold new_listings in Hnil. rewrite Hnil in *.
  rewrite Hrun. simpl. split; [done|]. split.
  - apply Hsame. by destruct (reads_dry_run p && dry_run).
  - rewrite Ho. destruct (_ && negb _); by rewrite app_nil_r.
Qed.

Lemma C4_delta_witness :
  let E := env_serving environ_full (map lot_listing ["A"; "B"; "C"; "D"]) in
  let σ := state_seen ["A"; "B"] in
  (healthy E ∧ store_configured (globals_of Lexus (environ E))
   ∧ is_Some (redis σ !! init_key Lexus) ∧ usable (redis σ) (seen_key Lexus))
  ∧ new_listings_of (map lot_listing ["A"; "B"; "C"; "D"]) (seen Lexus σ)
    = filter (is_new (seen Lexus σ)) (map lot_listing ["A"; "B"; "C"; "D"])
  ∧ sublist (new_listings_of (map lot_listing ["A"; "B"; "C"; "D"]) (seen Lexus σ))
      (map lot_listing ["A"; "B"; "C"; "D"])
  ∧ lot_listing "A"
    ∉ new_listings_of (map lot_listing ["A"; "B"; "C"; "D"]) (seen Lexus σ).
Proof.
  intros E σ. split; [scenario|].
  destruct (C4_delta Lexus E false σ (map lot_listing ["A"; "B"; "C"; "D"]))
    as (Hfilter & Hsub & Hseen & _); [scenario..|].
  split; [exact Hfilter|]. split; [exact Hsub|].
  apply (Hseen (lot_listing "A") "A"); vm_compute; reflexivity.
Defined.

(** *** C9: delivery never raises *)

(** C9: [send_telegram_message] returns for every text, state and
    behaviour of the transport: an unreachable server, an error status
    or an unreadable body is caught and becomes [False]. It returns
    [True] only if the credentials are configured and the response is
    a success whose [ok] field is true. It never touches the store, and
    in the loop of [run_check] a delivery that returned [False] is
    followed by the rest of the delta, with the counter as it was. *)
Theorem C9_delivery_never_raises E G text σ :
  ∃ b σ',
    send_telegram_message E G text σ = (Ok b, σ')
    ∧ redis σ' = redis σ ∧ redis_log σ' = redis_log σ
    ∧ (b = true →
       configured G = true
       ∧ ∃ fields, telegram E (length (outbox σ)) = TgResponse true (TgJson fields)
                   ∧ fields !! "ok" = Some true)
    ∧ (configured G = true →
       (telegram E (length (outbox σ)) = TgUnreachable
        ∨ (∃ body, telegram E (length (outbox σ)) = TgResponse false body)
        ∨ telegram E (length (outbox σ)) = TgResponse true TgBadJson) →
       b = false ∧ outbox σ' = outbox σ ++ [the_call G text])
    ∧ (b = false →
       ∀ self l rest sent,
         truthy (get l "lot") = true → format_listing_message G l = Ok text →
         notify E G self (l :: rest) sent σ = notify E G self rest sent σ').
Proof.
  destruct (send_spec E G text σ) as (σ' & Hsend & Hr & Hl & _ & _ & Ho & _).
  eexists _, σ'. split; [exact Hsend|]. split; [done|]. split; [done|].
  split; [|split].
  - intros [Hc Hack]%andb_true_iff. split; [done|].
    destruct (telegram E (length (outbox σ))) as [|[] [|fields]]; try done.
    exists fields. split; [done|]. simpl in Hack.
    by destruct (fields !! "ok") as [[]|].
  - intros Hc Hfail. rewrite Hc in *. split; [|done].
    destruct Hfail as [->|[[body ->]| ->]]; done.
  - intros Hb self l rest sent Hlot Hf. simpl. rewrite Hlot. simpl.
    unfold bind at 1, lift. rewrite Hf.
    unfold bind at 1. by rewrite Hsend, Hb.
Qed.

(** *** C2: a failed delivery *)

Lemma next_delta_contains seen_lots listings l :
  l ∈ listings → truthy (get l "lot") = true → lot_of l ∉ seen_lots →
  l ∈ new_listings_of listings seen_lots.
Proof.
  intros Hin Ht Hs. apply new_listings_of_spec. repeat split; [done..|].
  apply truthy_VStr in Ht as (s & Hl & _). unfold lot_of in Hs.
  rewrite Hl in *. simpl in *. by rewrite bool_decide_false.
Qed.

(** With distinct lot identifiers, the lot of a listing that was not
    delivered is the lot of no listing that was. *)
Lemma undelivered_lot E G n ls l :
  NoDup (map lot_of ls) → l ∈ ls → l ∉ delivered E G n ls →
  lot_of l ∉ lots_of (delivered E G n ls).
Proof.
  intros Hnd Hin Hnot Hlot. apply elem_of_list_to_set, list_elem_of_fmap in Hlot
    as (l' & Heq & Hin').
  assert (Hin'' : l' ∈ ls).
  { eapply elem_of_sublist; [done|apply delivered_sublist]. }
  assert (l' = l); [|by subst].
  apply list_elem_of_lookup in Hin as [i Hi].
  apply list_elem_of_lookup in Hin'' as [j Hj].
  assert (i = j); [|by simplify_eq].
  eapply NoDup_lookup; [done| |].
  - rewrite list_lookup_fmap, Hi. done.
  - rewrite list_lookup_fmap, Hj. simpl. by rewrite Heq.
Qed.

(** The run adds the lots of the delivered listings and no other: a
    lot identifier of the delta carried by no delivered listing is
    outside the seen-set after the run and new again for any later
    snapshot. *)
Lemma undelivered_lot_stays_out (S S' G : gset string) listings l :
  S' = S ∪ G → l ∈ new_listings_of listings S → lot_of l ∉ G →
  (lot_of l ∉ S')
  ∧ ∀ listings' l',
      l' ∈ listings' → get l' "lot" = get l "lot" →
      l' ∈ new_listings_of listings' S'.
Proof.
  intros -> (_ & Ht & Hn)%new_listings_of_spec Hnot.
  assert (Hout : lot_of l ∉ S ∪ G).
  { intros [Hs|Hs]%elem_of_union; [|done].
    apply truthy_VStr in Ht as (s & Hls & _). unfold lot_of in Hs.
    rewrite Hls in *. simpl in *.
    by apply negb_true_iff, bool_decide_eq_false in Hn. }
  split; [done|].
  intros listings' l' Hin' Hsame. apply next_delta_contains; [done| |].
  - by rewrite Hsame.
  - unfold lot_of. by rewrite Hsame.
Qed.

(** C2: in an incremental run that notifies (the store answers, the
    site serves [listings], the listings of the delta carry distinct
    lot identifiers and can be formatted), a delivery that returns
    [False] leaves the store as it was and is followed by the rest of
    the delta with the counter as it was; the run returns, [sent] being
    the number of delivered listings [got], and adds their lot
    identifiers and no other; so for every listing of the delta whose
    delivery failed, its lot identifier is outside the seen-set after
    the run, and a listing carrying it is in the delta computed from
    any later snapshot that contains it. *)
Theorem C2_failed_delivery p E dry_run σ listings :
  let G := globals_of p (environ E) in
  let new_listings := new_listings_of listings (seen p σ) in
  let got := delivered E G (length (outbox σ)) new_listings in
  healthy E → store_configured G →
  is_Some (redis σ !! init_key p) →
  usable (redis σ) (seen_key p) →
  site_serves E G σ listings →
  reads_dry_run p && dry_run = false →
  NoDup (map lot_of new_listings) →
  Forall (formattable G) new_listings →
  (∀ self l rest sent text σ0 σ1,
     truthy (get l "lot") = true → format_listing_message G l = Ok text →
     send_telegram_message E G text σ0 = (Ok false, σ1) →
     notify E G self (l :: rest) sent σ0 = notify E G self rest sent σ1
     ∧ redis σ1 = redis σ0 ∧ redis_log σ1 = redis_log σ0)
  ∧ ∃ σ', run_check p E dry_run σ
          = (Ok (incremental_result false listings new_listings got), σ')
      ∧ seen p σ' = seen p σ ∪ lots_of got
      ∧ redis_log σ'
        = redis_log σ ++ [EXISTS (init_key p); SMEMBERS (seen_key p)]
          ++ map (λ l, SADD (seen_key p) [lot_of l]) got
      ∧ ∀ l, l ∈ new_listings → l ∉ got →
          (lot_of l ∉ seen p σ')
          ∧ ∀ listings' l',
              l' ∈ listings' → get l' "lot" = get l "lot" →
              l' ∈ new_listings_of listings' (seen p σ').
Proof.
  intros G new_listings got Hnet Hcfg Hinit Hu Hsite Hdry Hnd Hfmt.
  split.
  { intros self l rest sent text σ0 σ1 Hlot Hf Hsend.
    destruct (send_spec E G text σ0) as (σ' & Hsend' & Hr & Hl & _).
    rewrite Hsend in Hsend'. injection Hsend' as _ <-.
    split; [|done]. simpl. rewrite Hlot. simpl.
    unfold bind at 1, lift. rewrite Hf. unfold bind at 1. by rewrite Hsend. }
  destruct (run_check_incremental p E dry_run σ listings)
    as (σ' & Hrun & Hm & _ & Hl & _); try done.
  rewrite Hdry in Hrun, Hm, Hl.
  exists σ'. split; [done|]. split; [done|]. split; [done|].
  intros l Hin Hnot.
  eapply undelivered_lot_stays_out; [exact Hm|exact Hin|].
  by apply undelivered_lot.
Qed.

Lemma C2_failed_delivery_witness :
  let E := env_second_fails in
  let σ := state_seen ["A"; "B"] in
  let r := run_check Lexus E false σ in
  (healthy E ∧ store_configured (globals_of Lexus (environ E))
   ∧ is_Some (redis σ !! init_key Lexus) ∧ usable (redis σ) (seen_key Lexus))
  ∧ r.1 = Ok {| sent := 1; reason := "new_listings"; new_count := Some 2;
                total := 4 |}
  ∧ seen Lexus r.2 = {[ "A"; "B"; "C" ]}
  ∧ ("D" ∉ seen Lexus r.2)
  ∧ lot_listing "D" ∈ new_listings_of [lot_listing "D"] (seen Lexus r.2).
Proof.
  intros E σ r. split; [scenario|].
  destruct (C2_failed_delivery Lexus E false σ (map lot_listing ["A"; "B"; "C"; "D"]))
    as (_ & σ' & Hrun & Hseen & _ & Hnext);
    [scenario; try reflexivity..| |].
  { apply (bool_decide_unpack _). vm_compute. reflexivity. }
  { scenario. }
  subst r. rewrite Hrun. cbn [fst snd]. split; [reflexivity|].
  split; [rewrite Hseen; vm_compute; reflexivity|].
  destruct (Hnext (lot_listing "D")) as [Hout Hin].
  - vm_compute. right. left.
  - vm_compute. intros H. apply list_elem_of_singleton in H. discriminate.
  - split; [exact Hout|]. apply Hin; [left|reflexivity].
Defined.

(** *** C10: Telegram not configured *)

(** C10: if the bot token or the chat id of the profile is unset or
    empty, [send_telegram_message] returns [False] and changes nothing
    but the log (no call to the transport); and an incremental run that
    notifies (the store answers, the site serves [listings], the delta
    can be formatted) then tries every listing of the delta (one
    warning each), returns [sent = 0] and leaves the store and the
    outbox as they were, so that any later snapshot has the same delta
    as before the run. *)
Theorem C10_unconfigured p E dry_run σ listings :
  let G := globals_of p (environ E) in
  let new_listings := new_listings_of listings (seen p σ) in
  truthy (TELEGRAM_BOT_TOKEN G) = false ∨ truthy (TELEGRAM_CHAT_ID G) = false →
  healthy E → store_configured G →
  is_Some (redis σ !! init_key p) →
  usable (redis σ) (seen_key p) →
  site_serves E G σ listings →
  reads_dry_run p && dry_run = false →
  Forall (formattable G) new_listings →
  (∀ text σ0,
     send_telegram_message E G text σ0
     = (Ok false, with_logged (logged σ0 ++ [not_configured_warning]) σ0))
  ∧ ∃ σ', run_check p E dry_run σ
          = (Ok (incremental_result false listings new_listings []), σ')
      ∧ warnings (logged σ') = warnings (logged σ) + length new_listings
      ∧ outbox σ' = outbox σ
      ∧ redis σ' = redis σ
      ∧ ∀ listings',
          new_listings_of listings' (seen p σ')
          = new_listings_of listings' (seen p σ).
Proof.
  intros G new_listings Hcred Hnet Hcfg Hinit Hu Hsite Hdry Hfmt.
  assert (Hc : configured G = false).
  { unfold configured. destruct Hcred as [-> | ->]; [done|apply andb_false_r]. }
  split; [intros; by apply send_unconfigured|].
  destruct (run_check_incremental p E dry_run σ listings)
    as (σ' & Hrun & _ & _ & _ & Ho & _ & Hw & Hsame); try done.
  unfold G in Hc. rewrite Hdry in Hrun, Ho, Hw, Hsame. rewrite Hc in Ho, Hw.
  simpl in Ho, Hw.
  rewrite delivered_unconfigured in Hrun, Hsame by done.
  rewrite app_nil_r in Ho.
  exists σ'. split; [done|]. split; [done|]. split; [done|].
  split; [by apply Hsame|].
  intros listings'. unfold seen. by rewrite Hsame.
Qed.

Lemma C10_unconfigured_witness :
  let E := env_serving environ_store_only (map lot_listing ["A"; "B"; "C"]) in
  let σ := state_seen ["A"] in
  let r := run_check Toyota E false σ in
  (truthy (TELEGRAM_BOT_TOKEN (globals_of Toyota (environ E))) = false
   ∧ healthy E ∧ store_configured (globals_of Toyota (environ E))
   ∧ is_Some (redis σ !! init_key Toyota) ∧ usable (redis σ) (seen_key Toyota))
  ∧ r.1 = Ok {| sent := 0; reason := "new_listings"; new_count := Some 2;
                total := 3 |}
  ∧ warnings (logged r.2) = 2 ∧ outbox r.2 = [] ∧ redis r.2 = redis σ.
Proof.
  intros E σ r. split; [scenario; reflexivity|].
  destruct (C10_unconfigured Toyota E false σ (map lot_listing ["A"; "B"; "C"]))
    as (_ & σ' & Hrun & Hw & Ho & Hr & _);
    [left; reflexivity|scenario; reflexivity..|].
  subst r. rewrite Hrun. cbn [fst snd].
  split; [reflexivity|]. split; [exact Hw|]. split; [exact Ho|exact Hr].
Defined.

(** *** C7: listings without a lot identifier *)

(** C7: a lot identifier is falsy exactly when the attribute is
    missing, [null] or empty; such a listing is in no delta and
    contributes nothing to the set built at bootstrap; and in every run
    of either profile, bootstrap or incremental, whatever the remote
    parties do, each identifier added to the seen-set is the non-empty
    lot identifier of a listing of the snapshot, and each text posted
    to Telegram is the text of a listing of the snapshot whose lot
    identifier is non-empty. *)
Theorem C7_no_lot_no_trace p E dry_run σ :
  let G := globals_of p (environ E) in
  let σ' := (run_check p E dry_run σ).2 in
  (∀ l : listing,
     truthy (get l "lot") = false ↔
     l !! "lot" = None ∨ l !! "lot" = Some VNone ∨ l !! "lot" = Some (VStr ""))
  ∧ (∀ listings seen_lots l,
       truthy (get l "lot") = false → l ∉ new_listings_of listings seen_lots)
  ∧ (∀ listings s,
       s ∈ bootstrap_lots listings →
       s ≠ "" ∧ ∃ l, l ∈ listings ∧ l !! "lot" = Some (VStr s))
  ∧ (∃ cs, redis_log σ' = redis_log σ ++ cs
       ∧ Forall (λ c, ∀ k vs, c = SADD k vs → Forall (snapshot_lot E G σ) vs) cs)
  ∧ (∀ s, s ∈ seen p σ' → s ∈ seen p σ ∨ snapshot_lot E G σ s)
  ∧ (∃ ts, outbox σ' = outbox σ ++ ts
       ∧ Forall (λ t, ∃ l, l ∈ snapshot E G σ ∧ truthy (get l "lot") = true
                           ∧ format_listing_message G l = Ok (tg_text t)) ts).
Proof.
  intros G σ'.
  split; [intros l; apply falsy_get|].
  split.
  { intros listings seen_lots l Hf (_ & Ht & _)%new_listings_of_spec. congruence. }
  split.
  { intros listings s (l & ? & ? & ?)%bootstrap_lots_spec. eauto. }
  destruct (run_trace p E dry_run σ) as ((cs & Hcs & Hall) & (ts & Hts & Hallt) & Hdb & _).
  fold G σ' in Hcs, Hts, Hdb, Hall, Hallt.
  split.
  { exists cs. split; [done|]. eapply Forall_impl; [done|].
    intros c Hc k vs ->. by destruct Hc as (_ & _ & ?). }
  split.
  { intros s Hs. unfold seen in *.
    eapply (db_reach_members_new (seen_key p) (init_key p)).
    - apply profile_keys_differ.
    - apply run_db_reach.
    - done. }
  exists ts. split; [done|]. eapply Forall_impl; [done|].
  intros t (l & (? & ? & _) & ?). eauto.
Qed.

(** *** C5: the keys of the two profiles *)

(** C5, as stated, fails: the two profiles have the same seen-set key
    and the same init-flag key. On a store never used, after the
    bootstrap of the Lexus profile on a snapshot with lot "A", the
    Toyota profile finds the init-flag set and "A" in its seen-set, so
    that its first run is no bootstrap and a Toyota listing with lot
    "A" is not new. *)
Lemma C5_profiles_share_state :
  let E := env_serving environ_full [lot_listing "A"] in
  let σ1 := (run_check Lexus E false state_fresh).2 in
  seen Toyota state_fresh = ∅
  ∧ redis state_fresh !! init_key Toyota = None
  ∧ seen Toyota σ1 = {[ "A" ]}
  ∧ redis σ1 !! init_key Toyota = Some (RString "1")
  ∧ (run_check Toyota E false σ1).1
    = Ok {| sent := 0; reason := "no_new_listings"; new_count := None;
            total := 1 |}.
Proof. vm_compute. repeat split. Qed.

(** C5, amended: both filter profiles use the same seen-set key and the
    same init-flag key; a run for either profile issues commands on
    those two keys only and leaves every other key of the store
    unchanged. *)
Theorem C5_two_shared_keys :
  seen_key Lexus = seen_key Toyota
  ∧ init_key Lexus = init_key Toyota
  ∧ ∀ p E dry_run σ,
      (∃ cs, redis_log (run_check p E dry_run σ).2 = redis_log σ ++ cs
         ∧ Forall (λ c, cmd_key c = seen_key p ∨ cmd_key c = init_key p) cs)
      ∧ ∀ k, k ≠ seen_key p → k ≠ init_key p →
             redis (run_check p E dry_run σ).2 !! k = redis σ !! k.
Proof.
  split; [done|]. split; [done|].
  intros p E dry_run σ. split.
  - destruct (run_trace p E dry_run σ) as ((cs & Hcs & Hall) & _).
    exists cs. split; [done|]. eapply Forall_impl; [done|].
    intros c Hc. unfold run_cmd in Hc.
    rewrite seen_key_globals, init_key_globals in Hc.
    exact (cmd_ok_key _ _ _ (profile_keys_differ p) c Hc).
  - intros k ??. eapply db_reach_other_keys; [apply run_db_reach|done..].
Qed.

(** *** C8: the seen-set only grows *)

Lemma grows_refl E σ : grows E σ σ.
Proof.
  repeat split; [exists []|done|exists []]; by rewrite app_nil_r.
Qed.

Lemma grows_trans E σ1 σ2 σ3 : grows E σ1 σ2 → grows E σ2 σ3 → grows E σ1 σ3.
Proof.
  intros ((cs & Hc & Hcs) & Hsub & (ts & Ht & Hts))
         ((cs' & Hc' & Hcs') & Hsub' & (ts' & Ht' & Hts')).
  repeat split.
  - exists (cs ++ cs'). rewrite Hc', Hc, app_assoc. split; [done|].
    by apply Forall_app.
  - by etrans.
  - exists (ts ++ ts'). rewrite Ht', Ht, app_assoc. split; [done|].
    apply Forall_app. split; [done|].
    eapply Forall_impl; [done|]. intros t (p & l & ? & Hout & ?).
    exists p, l. repeat split; try done. intros Hin. by apply Hout, Hsub.
Qed.

Lemma run_grows p E dry_run σ : grows E σ (run_check p E dry_run σ).2.
Proof.
  destruct (run_trace p E dry_run σ) as ((cs & Hcs & Hall) & (ts & Hts & Hallt) & _).
  repeat split.
  - exists cs. split; [done|]. eapply Forall_impl; [done|].
    intros c Hc v ->. unfold run_cmd in Hc. simpl in Hc.
    destruct Hc as [Hk _]. rewrite init_key_globals in Hk. by destruct p.
  - pose proof (db_reach_members _ _ _ (profile_keys_differ p) _ _
                  (run_db_reach p E dry_run σ)) as Hsub.
    unfold seen. by destruct p.
  - exists ts. split; [done|]. eapply Forall_impl; [done|].
    intros t (l & (_ & Ht & Hn) & Hf). exists p, l. repeat split; try done.
    apply truthy_VStr in Ht as (s & Hl & _). unfold lot_of. rewrite Hl in *.
    simpl in *. apply negb_true_iff, bool_decide_eq_false in Hn.
    unfold seen. by destruct p.
Qed.

(** C8, as stated, fails: the add that follows a delivery is a request
    of its own, and when it does not reach the store the run stops with
    the lot delivered and not recorded; the next run delivers it again.
    Here the snapshot has the single lot "C", the seen-set is empty and
    the third request to the store (the first [SADD]) is lost; the
    store receives nothing but what the two runs send. *)
Lemma C8_notified_twice :
  let E := env_lost_add in
  let σ0 := state_seen [] in
  let σ2 := run_many E [(Lexus, false); (Lexus, false)] σ0 in
  (run_check Lexus E false σ0).1 = Raise (RequestException "connection error")
  ∧ redis_log σ2
    = [ EXISTS "bidcars:seen-initialized"; SMEMBERS "bidcars:seen-lots";
        SADD "bidcars:seen-lots" ["C"];
        EXISTS "bidcars:seen-initialized"; SMEMBERS "bidcars:seen-lots";
        SADD "bidcars:seen-lots" ["C"] ]
  ∧ map tg_text (outbox σ2)
    = [ message_of (flask_app.G environ_full) (lot_listing "C");
        message_of (flask_app.G environ_full) (lot_listing "C") ].
Proof. vm_compute. repeat split. Qed.

(** C8, amended: [run_check] only ever issues [EXISTS], [SMEMBERS],
    [SADD] and [SET], the last never on the seen-set, so that across
    every sequence of runs of the two profiles, failed runs included,
    the seen-set loses no member; consequently a lot identifier that is
    in the seen-set is never notified again by any later run. (A lot
    identifier is in the seen-set after its delivery only if the add
    that follows the delivery reaches the store.) *)
Theorem C8_seen_set_grows E rs σ :
  (∃ cs, redis_log (run_many E rs σ) = redis_log σ ++ cs
     ∧ Forall (λ c, ∀ v, c ≠ SET (seen_key Lexus) v) cs)
  ∧ seen Lexus σ ⊆ seen Lexus (run_many E rs σ)
  ∧ seen Toyota σ ⊆ seen Toyota (run_many E rs σ)
  ∧ ∃ ts, outbox (run_many E rs σ) = outbox σ ++ ts
      ∧ Forall (λ t, ∃ p l,
                  truthy (get l "lot") = true
                  ∧ (lot_of l ∉ seen p σ)
                  ∧ format_listing_message (globals_of p (environ E)) l
                    = Ok (tg_text t)) ts.
Proof.
  assert (H : grows E σ (run_many E rs σ)).
  { revert σ. induction rs as [|[p dry_run] rs IH]; intros σ; simpl.
    - apply grows_refl.
    - eapply grows_trans; [apply run_grows|apply IH]. }
  destruct H as (Hc & Hsub & (ts & Hts & Hall)).
  split; [done|]. split; [done|]. split; [done|].
  exists ts. split; [done|]. eapply Forall_impl; [done|].
  intros t (p & l & ? & ? & ?). exists p, l. by destruct p.
Qed.

(** *** C6: formatting *)

Lemma append_cons x (a b : string) : String x a +:+ b = String x (a +:+ b).
Proof. reflexivity. Qed.

Lemma append_nil_l (b : string) : "" +:+ b = b.
Proof. reflexivity. Qed.

Lemma append_assoc (a b c : string) : (a +:+ b) +:+ c = a +:+ (b +:+ c).
Proof.
  induction a as [|x a IH]; [done|]. rewrite !append_cons. by rewrite IH.
Qed.

Lemma append_nil_r (a : string) : a +:+ "" = a.
Proof. induction a as [|x a IH]; [done|]. rewrite append_cons. by rewrite IH. Qed.

(** What follows a whitespace character does not matter to [ws_len]. *)
Lemma ws_len_append w s : ws_char w → ws_len (w +:+ s) = String.length w.
Proof.
  intros [Hne Hlen]. rewrite <- Hlen.
  destruct w as [|c0 w1]; [done|]. clear Hne. rewrite append_cons.
  unfold ws_len in *. cbn [String.length] in *.
  destruct (byte_in 9 13 c0 || byte_in 28 32 c0); [done|].
  destruct w1 as [|c1 w2]; [done|]. rewrite append_cons.
  cbn [String.length] in *.
  destruct (byte_in 194 194 c0); [done|].
  destruct w2 as [|c2 w3]; [done|]. rewrite append_cons.
  done.
Qed.

Lemma split_go_skip u tok s :
  split_go (String.length u) tok (u +:+ s) = split_go 0 tok s.
Proof.
  induction u as [|c u IH]; [done|]. rewrite append_cons. exact IH.
Qed.

Lemma split_go_ws w tok s :
  ws_char w → split_go 0 tok (w +:+ s) = emit tok (split_go 0 "" s).
Proof.
  intros Hw. pose proof (ws_len_append w s Hw) as Hlen.
  destruct w as [|c w]; [by destruct Hw|].
  rewrite append_cons in *. cbn [split_go]. rewrite Hlen. cbn [String.length].
  by rewrite split_go_skip.
Qed.

Lemma split_go_ws_run pre s :
  ws_run pre → split_go 0 "" (pre +:+ s) = split_go 0 "" s.
Proof.
  induction 1 as [|w pre Hw _ IH]; [done|].
  by rewrite append_assoc, split_go_ws.
Qed.

Lemma split_go_token tok acc post :
  no_ws_inside tok post →
  split_go 0 acc (tok +:+ post) = split_go 0 (acc +:+ tok) post.
Proof.
  revert acc. induction tok as [|c tok IH]; intros acc Hno.
  { by rewrite append_nil_r. }
  rewrite append_cons. cbn [split_go].
  pose proof (Hno "" (String c tok) eq_refl) as H0.
  rewrite append_cons in H0. rewrite H0 by done.
  rewrite IH.
  - by rewrite append_assoc.
  - intros a b -> Hb. by apply (Hno (String c a) b).
Qed.

Lemma split_go_token_end acc post :
  acc ≠ "" → post = "" ∨ ws_len post ≠ 0 →
  ∃ rest, split_go 0 acc post = acc :: rest.
Proof.
  intros Hacc [->|Hws].
  - exists []. simpl. by destruct acc.
  - destruct post as [|c post]; [done|]. cbn [split_go].
    destruct (ws_len (String c post)) as [|k]; [done|].
    eexists. by destruct acc.
Qed.

(** [split] finds the first token, and finds nothing in a blank string. *)
Lemma split_first_token s tok :
  first_token s tok → ∃ rest, split s = tok :: rest.
Proof.
  intros (pre & post & -> & Hpre & Hne & Hno & Hpost). unfold split.
  rewrite split_go_ws_run, split_go_token by done.
  by apply split_go_token_end.
Qed.

Lemma split_blank s : ws_run s → split s = [].
Proof.
  intros Hs. unfold split.
  by rewrite <- (append_nil_r s), split_go_ws_run.
Qed.

Lemma no_ws_insideb_spec tok post :
  no_ws_insideb tok post = true → no_ws_inside tok post.
Proof.
  induction tok as [|c tok IH]; intros H a b Hab Hb.
  - destruct a, b; done.
  - cbn [no_ws_insideb] in H. apply andb_true_iff in H as [H0 H].
    destruct a as [|c' a].
    + rewrite append_nil_l in Hab. subst b. by apply Nat.eqb_eq.
    + rewrite append_cons in Hab. injection Hab as -> ->. by apply (IH H a b).
Qed.

Lemma first_token_nonempty s tok : first_token s tok → s ≠ "".
Proof.
  intros (pre & post & -> & _ & Hne & _) H.
  destruct pre; [|done]. rewrite append_nil_l in H. by destruct tok.
Qed.

Lemma year_of_token l s tok :
  l !! "name" = Some (VStr s) → first_token s tok → year_of l = Ok (VStr tok).
Proof.
  intros Hl Ht. unfold year_of, get, get_or. rewrite Hl. simpl.
  apply first_token_nonempty in Ht as Hne.
  apply String.eqb_neq in Hne. rewrite Hne. simpl.
  by destruct (split_first_token s tok Ht) as (rest & ->).
Qed.

Lemma year_of_no_name l :
  truthy (get l "name") = false → year_of l = Ok (VStr "N/A").
Proof. intros H. unfold year_of. by rewrite H. Qed.

(** A display name made of whitespace only has no first token:
    [split()] is empty and taking its first element raises. *)
Lemma year_of_blank l s :
  l !! "name" = Some (VStr s) → s ≠ "" → ws_run s →
  year_of l = Raise (IndexError "list index out of range").
Proof.
  intros Hl Hne Hs. unfold year_of, get, get_or. rewrite Hl. simpl.
  apply String.eqb_neq in Hne. rewrite Hne. simpl. by rewrite split_blank.
Qed.

Lemma format_blank_name_raises G l s :
  l !! "name" = Some (VStr s) → s ≠ "" → ws_run s →
  format_listing_message G l = Raise (IndexError "list index out of range").
Proof.
  intros Hl Hne Hs. unfold format_listing_message, listing_lines.
  by rewrite (year_of_blank l s).
Qed.

Lemma get_or_shown l k : py_str (get_or l k "N/A") = shown l k.
Proof. unfold get_or, shown. by destruct (l !! k). Qed.

Lemma name_ok_year l :
  name_ok l → ∃ y, year_of l = Ok (VStr y) ∧ year_shown l y.
Proof.
  intros [Hno|(s & tok & Hl & Ht)].
  - exists "N/A". split; [by apply year_of_no_name|by left].
  - exists tok. split; [by eapply year_of_token|]. right. eauto.
Qed.

Lemma length_append (a b : string) :
  String.length (a +:+ b) = String.length a + String.length b.
Proof.
  induction a as [|x a IH]; [done|]. rewrite append_cons. simpl. by rewrite IH.
Qed.

(** A whitespace character recognised at the head of a string can be
    cut off it. *)
Lemma ws_len_cut s k :
  ws_len s = S k → ∃ w rest, s = w +:+ rest ∧ ws_char w.
Proof.
  destruct s as [|c0 s1]; [done|]. unfold ws_len.
  destruct (byte_in 9 13 c0 || byte_in 28 32 c0) eqn:H0.
  { intros _. exists (String c0 ""), s1. split; [done|]. split; [done|].
    unfold ws_len. by rewrite H0. }
  destruct s1 as [|c1 s2]; [done|].
  destruct (byte_in 194 194 c0) eqn:H1.
  { destruct (byte_in 133 133 c1 || byte_in 160 160 c1) eqn:H2; [|done].
    intros _. exists (String c0 (String c1 "")), s2. split; [done|].
    split; [done|]. unfold ws_len. by rewrite H0, H1, H2. }
  destruct s2 as [|c2 s3]; [done|].
  intros Hk. exists (String c0 (String c1 (String c2 ""))), s3.
  split; [done|]. split; [done|]. unfold ws_len. rewrite H0, H1.
  cbn [String.length].
  repeat match goal with
  | H : (if ?b then _ else _) = S _ |- _ => destruct b; [done|]
  end.
  done.
Qed.

(** A string that does not start with whitespace starts with a token. *)
Lemma token_exists s :
  s ≠ "" → ws_len s = 0 →
  ∃ tok post, s = tok +:+ post ∧ tok ≠ "" ∧ no_ws_inside tok post
              ∧ (post = "" ∨ ws_len post ≠ 0).
Proof.
  induction s as [|c s IH]; [done|]. intros _ Hc.
  destruct s as [|c' s'].
  { exists (String c ""), "". repeat split; try done; [|by left].
    intros a b Hab Hb. destruct a as [|x a].
    - rewrite append_nil_l in Hab. by subst b.
    - rewrite append_cons in Hab. injection Hab as _ Hab. by destruct a, b. }
  destruct (ws_len (String c' s')) as [|k] eqn:Hnext.
  - destruct IH as (tok & post & Hs & Hne & Hno & Hpost); [done..|].
    exists (String c tok), post. rewrite append_cons, <- Hs.
    repeat split; try done.
    intros a b Hab Hb. destruct a as [|x a].
    + rewrite append_nil_l in Hab. subst b. by rewrite append_cons, <- Hs.
    + rewrite append_cons in Hab. injection Hab as _ Hab. by apply (Hno a b).
  - exists (String c ""), (String c' s'). repeat split; try done.
    + intros a b Hab Hb. destruct a as [|x a].
      * rewrite append_nil_l in Hab. by subst b.
      * rewrite append_cons in Hab. injection Hab as _ Hab. by destruct a, b.
    + right. by rewrite Hnext.
Qed.

(** Every string is blank or has a first token. *)
Lemma blank_or_token s : ws_run s ∨ ∃ tok, first_token s tok.
Proof.
  remember (String.length s) as n eqn:Hn.
  revert s Hn. induction (lt_wf n) as [n _ IH]. intros s ->.
  destruct s as [|c s]; [left; constructor|].
  destruct (ws_len (String c s)) as [|k] eqn:Hws.
  - right. destruct (token_exists (String c s)) as (tok & post & Hs & ?);
      [done..|].
    exists tok, "", post. split; [done|]. split; [apply ws_run_nil|done].
  - destruct (ws_len_cut _ _ Hws) as (w & rest & Hs & Hw).
    destruct (IH (String.length rest)) with (s := rest) as [Hrun|(tok & Ht)];
      [|done| |].
    + rewrite Hs, length_append. destruct Hw as [Hne _]. destruct w; [done|].
      simpl. lia.
    + left. rewrite Hs. by constructor.
    + right. exists tok. destruct Ht as (pre & post & -> & Hpre & ?).
      exists (w +:+ pre), post. rewrite Hs, append_assoc.
      split; [done|]. split; [by constructor|done].
Qed.

(** [format_listing_message] returns exactly on the listings whose
    display name is absent, [null], empty, or has a first token. *)
Lemma formattable_iff G l : formattable G l ↔ name_ok l.
Proof.
  split.
  - intros [text Hf]. destruct (truthy (get l "name")) eqn:Hn; [|by left].
    apply truthy_get in Hn as (s & Hl & Hne).
    destruct (blank_or_token s) as [Hblank|[tok Ht]].
    + by rewrite (format_blank_name_raises G l s) in Hf.
    + right. eauto.
  - intros (y & Hy & _)%name_ok_year. unfold formattable, format_listing_message,
      listing_lines. rewrite Hy. eauto.
Qed.

(** C6, as stated, fails. A missing [final_bid_formatted] renders no
    marker: its line is left out (the message of the empty listing has
    thirteen lines, none for the final bid). And formatting raises
    [IndexError] when the display name is a non-empty string of
    whitespace, which [split()] cuts into no token. *)
Lemma C6_format_omits_and_raises :
  format_listing_message (flask_app.G ∅) ∅
  = Ok (join LF
          [ "🚗 ახალი Lexus NX (Bid.cars)"; "";
            "<b>Unknown</b>"; "";
            "📅 Year: N/A";
            "🔢 Lot: <code>N/A</code>";
            "🔑 VIN: <code>N/A</code>";
            "📊 Odometer: N/AK miles";
            "📍 Location: N/A";
            "💰 Prebid: N/A";
            "📌 Status: N/A"; "";
            "🔗 <a href=" +:+ DQ +:+ "https://bid.cars/en/lot/N/A" +:+ DQ
              +:+ ">View on Bid.cars</a>" ])
  ∧ format_listing_message (flask_app.G ∅) {[ "name" := VStr " " ]}
    = Raise (IndexError "list index out of range").
Proof. vm_compute. split; reflexivity. Qed.

(** C6, amended: [format_listing_message] is a function of the listing
    (and of the profile's prefix) and returns a text for every listing
    whose display name is absent, [null] or empty, or has a first
    whitespace-delimited token. In that text the year is that first
    token when the name has one and N/A when there is no name; an
    absent lot, VIN, odometer, location, prebid price or status is
    shown as N/A, an absent title as Unknown; the final-bid line is
    present exactly when that attribute is non-empty. *)
Theorem C6_format_total G l :
  name_ok l →
  ∃ lines y,
    listing_lines G l = Ok lines
    ∧ format_listing_message G l = Ok (join LF lines)
    ∧ year_shown l y
    ∧ (∀ k, l !! k = None → shown l k = "N/A")
    ∧ (truthy (get l "name_long") = false → l !! "name" = None →
       lines !! 2 = Some "<b>Unknown</b>")
    ∧ lines !! 4 = Some ("📅 Year: " +:+ y)
    ∧ lines !! 5 = Some ("🔢 Lot: <code>" +:+ shown l "lot" +:+ "</code>")
    ∧ lines !! 6 = Some ("🔑 VIN: <code>" +:+ shown l "vin" +:+ "</code>")
    ∧ lines !! 7
      = Some ("📊 Odometer: " +:+ shown l "odometer_substr" +:+ "K miles")
    ∧ lines !! 8 = Some ("📍 Location: " +:+ shown l "location")
    ∧ lines !! 9 = Some ("💰 Prebid: " +:+ shown l "prebid_price")
    ∧ (if truthy (get l "final_bid_formatted")
       then length lines = 14
            ∧ lines !! 10
              = Some ("🏆 Final Bid: " +:+ py_str (get l "final_bid_formatted"))
            ∧ lines !! 11 = Some ("📌 Status: " +:+ shown l "search_status")
       else length lines = 13
            ∧ lines !! 10 = Some ("📌 Status: " +:+ shown l "search_status")).
Proof.
  intros Hname. destruct (name_ok_year l Hname) as (y & Hy & Hshown).
  unfold format_listing_message, listing_lines. rewrite Hy.
  rewrite !get_or_shown. cbn [py_str].
  destruct (truthy (get l "final_bid_formatted"));
    (eexists _, y; split; [reflexivity|]; split; [reflexivity|];
     split; [done|];
     split; [intros k Hk; unfold shown; by rewrite Hk|];
     split; [intros Hlong Hn; unfold py_or, get_or; by rewrite Hlong, Hn|];
     by repeat split).
Qed.

Lemma C6_format_total_witness :
  let l : listing :=
    <[ "name" := VStr "2019 Lexus NX 300" ]> (lot_listing "1-234") in
  name_ok l
  ∧ ∃ lines,
      format_listing_message (flask_app.G ∅) l = Ok (join LF lines)
      ∧ lines !! 4 = Some "📅 Year: 2019"
      ∧ lines !! 6 = Some "🔑 VIN: <code>N/A</code>"
      ∧ length lines = 13.
Proof.
  intros l.
  assert (Hname : name_ok l).
  { right. exists "2019 Lexus NX 300", "2019". split; [vm_compute; reflexivity|].
    exists "", " Lexus NX 300". split; [reflexivity|].
    split; [constructor|]. split; [discriminate|].
    split; [apply no_ws_insideb_spec; vm_compute; reflexivity|].
    right. vm_compute. discriminate. }
  split; [exact Hname|].
  destruct (C6_format_total (flask_app.G ∅) l Hname)
    as (lines & y & Hlines & Hfmt & Hy & _ & _ & H4 & _ & H6 & _ & _ & _ & Hlast).
  exists lines. split; [exact Hfmt|].
  assert (y = "2019") as ->.
  { destruct Hy as [[Hno _]|(s & Hs & Ht)]; [vm_compute in Hno; discriminate|].
    pose proof (year_of_token l s y Hs Ht) as Hyear.
    vm_compute in Hyear. congruence. }
  split; [exact H4|]. split; [exact H6|].
  exact (proj1 Hlast).
Defined.

(** ** Further properties of the two files *)

(** *** Sequencing *)

Lemma bind_raise {A B} (m : M A) (k : A → M B) σ e σ' :
  m σ = (Raise e, σ') → bind m k σ = (Raise e, σ').
Proof. intros H. unfold bind. by rewrite H. Qed.

Lemma bind_inv {A B} (m : M A) (k : A → M B) σ b σ' :
  bind m k σ = (Ok b, σ') → ∃ a σ1, m σ = (Ok a, σ1) ∧ k a σ1 = (Ok b, σ').
Proof. unfold bind. destruct (m σ) as [[a|e] σ1]; [eauto|done]. Qed.

Lemma log_and_reraise_ok {A} (m : M A) σ a σ' :
  log_and_reraise m σ = (Ok a, σ') → m σ = (Ok a, σ').
Proof.
  unfold log_and_reraise, try_except. by destruct (m σ) as [[a'|e] σ1].
Qed.

Lemma log_and_reraise_raise {A} (m : M A) σ e σ' :
  log_and_reraise m σ = (Raise e, σ') →
  ∃ σ1, m σ = (Raise e, σ1)
        ∧ σ' = with_logged (logged σ1 ++ [ERROR ("[check] Failed: " +:+ exn_str e)]) σ1.
Proof.
  unfold log_and_reraise, try_except. destruct (m σ) as [[a'|e'] σ1]; [done|].
  intros [= <- <-]. eauto.
Qed.

(** *** The store client *)

Lemma unset_getenv environ name :
  truthy (getenv environ name) = false ↔ unset environ name.
Proof.
  unfold getenv, unset. destruct (environ !! name) as [s|]; simpl.
  - rewrite negb_false_iff, String.eqb_eq. split.
    + intros ->. auto.
    + by intros [?|[= ->]].
  - split; auto.
Qed.

Lemma store_url_var p environ :
  UPSTASH_REDIS_REST_URL (globals_of p environ)
  = getenv environ "UPSTASH_REDIS_REST_URL".
Proof. by destruct p. Qed.

Lemma store_token_var p environ :
  UPSTASH_REDIS_REST_TOKEN (globals_of p environ)
  = getenv environ "UPSTASH_REDIS_REST_TOKEN".
Proof. by destruct p. Qed.

Lemma get_redis_client_unconfigured G σ :
  truthy (UPSTASH_REDIS_REST_URL G) = false
  ∨ truthy (UPSTASH_REDIS_REST_TOKEN G) = false →
  get_redis_client G σ
  = (Raise (ValueError
       "UPSTASH_REDIS_REST_URL and UPSTASH_REDIS_REST_TOKEN must be set"), σ).
Proof.
  unfold get_redis_client. intros [->| ->]; [done|].
  by rewrite orb_true_r.
Qed.

(** X1: with the store URL or the store token unset or empty, a run of
    either profile raises [ValueError] at once: it logs the failure
    and does nothing else (no request to the store, to the site or to
    Telegram). *)
Theorem run_check_store_unconfigured p E dry_run σ :
  unset (environ E) "UPSTASH_REDIS_REST_URL"
  ∨ unset (environ E) "UPSTASH_REDIS_REST_TOKEN" →
  let msg := "UPSTASH_REDIS_REST_URL and UPSTASH_REDIS_REST_TOKEN must be set" in
  run_check p E dry_run σ
  = (Raise (ValueError msg),
     with_logged (logged σ ++ [ERROR ("[check] Failed: " +:+ msg)]) σ).
Proof.
  intros Hun msg.
  assert (Hraise : get_redis_client (globals_of p (environ E)) σ
                   = (Raise (ValueError msg), σ)).
  { apply get_redis_client_unconfigured.
    rewrite store_url_var, store_token_var, !unset_getenv. done. }
  destruct p; simpl in Hraise;
    [unfold run_check, flask_app.run_check|unfold run_check, toyota.run_check];
    unfold log_and_reraise, try_except;
    by erewrite bind_raise by exact Hraise.
Qed.

Lemma run_check_store_unconfigured_witness :
  let E := env_serving ∅ [lot_listing "A"] in
  (run_check Toyota E false state_fresh).1
  = Raise (ValueError
      "UPSTASH_REDIS_REST_URL and UPSTASH_REDIS_REST_TOKEN must be set")
  ∧ redis_log (run_check Toyota E false state_fresh).2 = []
  ∧ site_log (run_check Toyota E false state_fresh).2 = []
  ∧ outbox (run_check Toyota E false state_fresh).2 = [].
Proof.
  intros E.
  rewrite (run_check_store_unconfigured Toyota E false state_fresh)
    by (left; left; reflexivity).
  repeat split.
Defined.

(** [rstrip('/')] takes off every trailing slash and nothing else. *)
Lemma rstrip_slash_spec s :
  ∃ n, s = rstrip_slash s +:+ slashes n ∧ ∀ t, rstrip_slash s ≠ t +:+ "/".
Proof.
  induction s as [|c s (n & Hs & Hno)].
  { exists 0. split; [done|]. by intros [|??]. }
  cbn [rstrip_slash].
  destruct (rstrip_slash s) as [|c' r] eqn:Hr.
  - rewrite append_nil_l in Hs.
    destruct (Ascii.eqb c "/") eqn:Hc.
    + apply Ascii.eqb_eq in Hc as ->. exists (S n). rewrite append_nil_l.
      split; [by rewrite Hs|]. by intros [|??].
    + exists n. rewrite append_cons, append_nil_l. split; [by rewrite Hs|].
      intros [|x t]; rewrite ?append_nil_l, ?append_cons.
      * intros [= ->]. by rewrite Ascii.eqb_refl in Hc.
      * intros [= _ H]. by destruct t.
  - exists n. rewrite append_cons. split; [by rewrite Hs|].
    intros [|x t]; rewrite ?append_nil_l, ?append_cons.
    + done.
    + intros [= _ H]. by apply (Hno t).
Qed.

(** X2: when both store variables are set, [get_redis_client] returns,
    without touching anything, a client that holds the token as it is
    and the URL with its trailing slashes, all of them and nothing
    else, taken off. *)
Theorem get_redis_client_url G σ :
  store_configured G →
  ∃ self n,
    get_redis_client G σ = (Ok self, σ)
    ∧ token self = py_str (UPSTASH_REDIS_REST_TOKEN G)
    ∧ py_str (UPSTASH_REDIS_REST_URL G) = url self +:+ slashes n
    ∧ ∀ t, url self ≠ t +:+ "/".
Proof.
  intros Hcfg. rewrite get_redis_client_configured by done.
  destruct (rstrip_slash_spec (py_str (UPSTASH_REDIS_REST_URL G)))
    as (n & Hs & Hno).
  eexists _, n. split; [reflexivity|]. simpl. done.
Qed.

Lemma get_redis_client_url_witness :
  ∃ self,
    get_redis_client (flask_app.G environ_lexus_only) state_fresh
    = (Ok self, state_fresh)
    ∧ url self = "https://example.upstash.io".
Proof.
  destruct (get_redis_client_url (flask_app.G environ_lexus_only) state_fresh)
    as (self & n & Hrun & _ & _ & _).
  { split; vm_compute; reflexivity. }
  exists self. split; [exact Hrun|].
  vm_compute in Hrun. by injection Hrun as <-.
Defined.


(** *** The two [run_check] as one *)

Lemma run_check_both_eq p E dry_run :
  run_check p E dry_run
  = run_check_both (globals_of p (environ E)) (reads_dry_run p) E
      (reads_dry_run p && dry_run).
Proof. destruct p; reflexivity. Qed.

(** *** Outcomes *)

Lemma ends_weaken {A} (m : M A) σ (Q Q' : res A → state → Prop) :
  ends m σ Q → (∀ r σ', Q r σ' → Q' r σ') → ends m σ Q'.
Proof. unfold ends. auto. Qed.

Lemma ends_bind {A B} (m : M A) (k : A → M B) σ Q :
  ends m σ (λ r σ1, match r with
                    | Ok a => ends (k a) σ1 Q
                    | Raise e => Q (Raise e) σ1
                    end) →
  ends (bind m k) σ Q.
Proof. unfold ends, bind. by destruct (m σ) as [[a|e] σ1]. Qed.

Lemma ends_try {A} (m : M A) (h : exn → M A) σ Q :
  ends m σ (λ r σ1, match r with
                    | Ok a => Q (Ok a) σ1
                    | Raise e => ends (h e) σ1 Q
                    end) →
  ends (try_except m h) σ Q.
Proof. unfold ends, try_except. by destruct (m σ) as [[a|e] σ1]. Qed.

(** A failure of the body of [run_check] is logged and raised again. *)
Lemma ends_log_and_reraise {A} (m : M A) σ Q :
  ends m σ (λ r σ1,
    match r with
    | Ok a => Q (Ok a) σ1
    | Raise e =>
        Q (Raise e)
          (with_logged (logged σ1 ++ [ERROR ("[check] Failed: " +:+ exn_str e)]) σ1)
    end) →
  ends (log_and_reraise m) σ Q.
Proof.
  unfold ends, log_and_reraise, try_except. by destruct (m σ) as [[a|e] σ1].
Qed.

(** What one request does, whatever happens to it on the way. *)
Lemma request_ends E self c σ :
  ends (_request E self c) σ (λ r σ',
    redis_log σ' = redis_log σ ++ [c] ∧ outbox σ' = outbox σ
    ∧ site_log σ' = site_log σ ∧ logged σ' = logged σ ∧ sleeps σ' = sleeps σ
    ∧ match r with
      | Ok v => redis_exec c (redis σ) = (inr v, redis σ')
      | Raise _ => redis σ' = redis σ ∨ redis σ' = (redis_exec c (redis σ)).2
      end).
Proof.
  unfold ends, _request.
  destruct (redis_net E (length (redis_log σ)));
    [destruct (redis_exec c (redis σ)) as [[err|v] d]| |]; simpl; auto 10.
Qed.

Lemma exists_ends E self k σ :
  ends (exists_ E self k) σ (λ r σ',
    redis σ' = redis σ ∧ redis_log σ' = redis_log σ ++ [EXISTS k]
    ∧ outbox σ' = outbox σ ∧ site_log σ' = site_log σ
    ∧ logged σ' = logged σ ∧ sleeps σ' = sleeps σ
    ∧ ∀ b, r = Ok b → b = bool_decide (is_Some (redis σ !! k))).
Proof.
  unfold exists_. apply ends_bind.
  eapply ends_weaken; [apply request_ends|].
  intros [v|e] σ' (Hl & Ho & Hs & Hg & Hz & Hx); simpl in Hx.
  - injection Hx as <- Hd. unfold ends. simpl. repeat split; try done.
    intros b [= <-]. by destruct (redis σ !! k).
  - repeat split; try done. by destruct Hx.
Qed.

Lemma smembers_ends E self k σ :
  ends (smembers E self k) σ (λ r σ',
    redis σ' = redis σ ∧ redis_log σ' = redis_log σ ++ [SMEMBERS k]
    ∧ outbox σ' = outbox σ ∧ site_log σ' = site_log σ
    ∧ logged σ' = logged σ ∧ sleeps σ' = sleeps σ
    ∧ ∀ S, r = Ok S → S = members (redis σ) k ∧ usable (redis σ) k).
Proof.
  unfold smembers. apply ends_bind.
  eapply ends_weaken; [apply request_ends|].
  intros [v|e] σ' (Hl & Ho & Hs & Hg & Hz & Hx); simpl in Hx.
  - unfold ends, lift, members, usable. simpl.
    destruct (redis σ !! k) as [[s|m]|] eqn:Hk; simplify_eq/=.
    + do 6 (split; [done|]). intros S' [= <-]. split; [|done].
      apply set_eq. intros x. by rewrite elem_of_list_to_set, elem_of_elements.
    + do 6 (split; [done|]). by intros S' [= <-].
  - assert (redis σ' = redis σ) as ->.
    { destruct Hx as [?|Hx]; [done|]. rewrite Hx.
      by destruct (redis σ !! k) as [[?|?]|]. }
    by repeat split.
Qed.

(** [fetch_listings] asks the site once and touches nothing else; its
    outcome depends on the state by the number of fetches made so far
    only. *)
Lemma fetch_state E G σ :
  (fetch_listings E G σ).2 = with_site_log (site_log σ ++ [request_url G]) σ.
Proof.
  unfold fetch_listings.
  by repeat (match goal with |- context [match ?x with _ => _ end] => destruct x end).
Qed.

Lemma fetch_outcome E G σ σ1 :
  site_log σ1 = site_log σ → (fetch_listings E G σ1).1 = (fetch_listings E G σ).1.
Proof.
  intros Hs. unfold fetch_listings. rewrite Hs.
  by repeat (match goal with |- context [match ?x with _ => _ end] => destruct x end).
Qed.

Lemma fetch_ends E G σ :
  ends (fetch_listings E G) σ (λ r σ',
    r = (fetch_listings E G σ).1
    ∧ σ' = with_site_log (site_log σ ++ [request_url G]) σ).
Proof. unfold ends. by rewrite fetch_state. Qed.

(** *** A run while the site is down *)

Lemma only_read_refl σ : only_read σ σ.
Proof. do 3 (split; [done|]). exists []. by rewrite app_nil_r. Qed.

Lemma only_read_logged σ σ' l : only_read σ σ' → only_read σ (with_logged l σ').
Proof. done. Qed.

Lemma only_read_step σ σ1 σ2 c :
  only_read σ σ1 → read_only c →
  redis σ2 = redis σ1 → outbox σ2 = outbox σ1 → sleeps σ2 = sleeps σ1 →
  redis_log σ2 = redis_log σ1 ++ [c] → only_read σ σ2.
Proof.
  intros (Hr & Ho & Hz & cs & Hl & Hcs) Hc Hr2 Ho2 Hz2 Hl2.
  repeat split; [congruence..|]. exists (cs ++ [c]).
  rewrite Hl2, Hl, app_assoc. split; [done|].
  apply Forall_app. split; [done|]. by apply Forall_singleton.
Qed.

Lemma only_read_quiet σ σ1 σ2 :
  only_read σ σ1 →
  redis σ2 = redis σ1 → outbox σ2 = outbox σ1 → sleeps σ2 = sleeps σ1 →
  redis_log σ2 = redis_log σ1 → only_read σ σ2.
Proof.
  intros (Hr & Ho & Hz & cs & Hl & Hcs) Hr2 Ho2 Hz2 Hl2.
  repeat split; [congruence..|]. exists cs. split; [congruence|done].
Qed.

(** The fetch that fails, wherever it stands in the run. *)
Lemma fetch_fails_ends E G σ σ1 e0 {B} (k : list listing → M B) Q :
  (fetch_listings E G σ).1 = Raise e0 → site_log σ1 = site_log σ →
  (∀ e σ2, redis σ2 = redis σ1 → outbox σ2 = outbox σ1 →
           sleeps σ2 = sleeps σ1 → redis_log σ2 = redis_log σ1 →
           Q (Raise e) σ2) →
  ends (bind (fetch_listings E G) k) σ1 Q.
Proof.
  intros Hf Hs HQ. apply ends_bind.
  eapply ends_weaken; [apply fetch_ends|]. intros r σ2 [-> ->].
  rewrite (fetch_outcome E G σ σ1), Hf by done. by apply HQ.
Qed.

Lemma both_site_failure G verbose E dry_run σ e0 :
  (fetch_listings E G σ).1 = Raise e0 →
  ends (run_check_both G verbose E dry_run) σ (λ r σ',
    (∃ e, r = Raise e) ∧ only_read σ σ').
Proof.
  intros Hf. unfold run_check_both.
  apply ends_log_and_reraise, ends_bind.
  unfold ends at 1.
  pose proof (get_redis_client_state G σ) as H0.
  destruct (get_redis_client G σ) as [[self|e] σ0]; simpl in H0; subst σ0; simpl.
  2:{ split; [eauto|]. apply only_read_logged, only_read_refl. }
  apply ends_bind. eapply ends_weaken; [apply exists_ends|].
  intros [b|e] σ1 (Hr & Hl & Ho & Hs & Hg & Hz & Hb).
  2:{ split; [eauto|]. apply only_read_logged.
      by apply (only_read_step σ σ σ1 (EXISTS (STORAGE_INIT_KEY G)));
        [apply only_read_refl|..]. }
  assert (H1 : only_read σ σ1).
  { by apply (only_read_step σ σ σ1 (EXISTS (STORAGE_INIT_KEY G)));
      [apply only_read_refl|..]. }
  destruct b; simpl.
  - apply (fetch_fails_ends E G σ σ1 e0); [done..|].
    intros e σ2 ????. split; [eauto|].
    by apply only_read_logged, (only_read_quiet σ σ1).
  - unfold bootstrap. apply ends_bind. unfold ends at 1. simpl.
    apply (fetch_fails_ends E G σ _ e0); [done..|].
    intros e σ2 ????. split; [eauto|].
    by apply only_read_logged, (only_read_quiet σ σ1).
Qed.

(** X3: when the site does not hand over a snapshot (no answer, a status
    other than 200, a body that is not JSON or has no [data]), the run
    of either profile raises; whatever the store does, it is left as it
    was, in particular without the init-flag if it had none, and
    nothing is sent to Telegram. *)
Theorem site_failure_changes_nothing p E dry_run σ e0 :
  (fetch_listings E (globals_of p (environ E)) σ).1 = Raise e0 →
  ∃ e σ', run_check p E dry_run σ = (Raise e, σ') ∧ only_read σ σ'.
Proof.
  intros Hf. rewrite run_check_both_eq.
  pose proof (both_site_failure _ (reads_dry_run p) E
                (reads_dry_run p && dry_run) σ e0 Hf) as H.
  unfold ends in H.
  destruct (run_check_both _ _ _ _ σ) as [r σ']. simpl in H.
  destruct H as ([e ->] & H). by exists e, σ'.
Qed.

Lemma site_failure_changes_nothing_witness :
  ∃ e σ',
    run_check Lexus env_site_down false state_fresh = (Raise e, σ')
    ∧ redis σ' = ∅ ∧ outbox σ' = [].
Proof.
  destruct (site_failure_changes_nothing Lexus env_site_down false state_fresh
              (Exception_ "Bid.cars request failed"))
    as (e & σ' & Hrun & Hr & Ho & _); [reflexivity|].
  by exists e, σ'.
Defined.

(** *** What a run that returns reports *)

(** The loop, whatever the remote parties do: at most one call to
    Telegram for each listing, and for each listing counted one call
    and one pause. *)
Lemma notify_ends E G self ls sent σ :
  ends (notify E G self ls sent) σ (λ r σ',
    site_log σ' = site_log σ
    ∧ ∃ ts, outbox σ' = outbox σ ++ ts ∧ (length ts ≤ length ls)%nat
        ∧ ∀ n, r = Ok n →
            (sent ≤ n)%nat ∧ (n - sent ≤ length ts)%nat
            ∧ sleeps σ' = sleeps σ + (n - sent)).
Proof.
  revert sent σ. induction ls as [|l rest IH]; intros sent σ.
  { unfold ends. simpl. split; [done|]. exists []. rewrite app_nil_r.
    do 2 (split; [done|]). intros n [= <-]. lia. }
  cbn [notify]. destruct (truthy (get l "lot")); cbn [negb].
  2:{ eapply ends_weaken; [apply IH|].
      intros r σ' (Hs & ts & Ho & Hlen & Hn). split; [done|]. exists ts.
      split; [done|]. split; [simpl; lia|done]. }
  apply ends_bind. unfold ends at 1, lift. cbn [fst snd].
  destruct (format_listing_message G l) as [text|e].
  2:{ split; [done|]. exists []. rewrite app_nil_r. split; [done|].
      split; [simpl; lia|done]. }
  apply ends_bind.
  destruct (send_spec E G text σ) as (σ1 & Hsend & Hr1 & Hl1 & Hs1 & Hz1 & Ho1 & _).
  unfold ends at 1. rewrite Hsend. cbn [fst snd].
  destruct (configured G && acknowledged (telegram E (length (outbox σ)))) eqn:Hb.
  - apply andb_true_iff in Hb as [Hc _]. rewrite Hc in Ho1.
    apply ends_bind. unfold sadd.
    eapply ends_weaken; [apply request_ends|].
    intros [v|e] σ2 (Hl2 & Ho2 & Hs2 & Hg2 & Hz2 & _).
    2:{ split; [congruence|]. exists [the_call G text].
        split; [congruence|]. split; [simpl; lia|done]. }
    apply ends_bind. unfold ends at 1. cbn [sleep_half_second fst snd].
    eapply ends_weaken; [apply IH|].
    intros r σ' (Hs & ts & Ho & Hlen & Hn). revert Hs Ho Hn. norm_state.
    intros Hs Ho Hn. split; [congruence|].
    exists (the_call G text :: ts). split.
    { rewrite Ho, Ho2, Ho1, <- app_assoc. done. }
    split; [simpl; lia|].
    intros n Hr. destruct (Hn n Hr) as (? & ? & Hz). simpl. lia.
  - eapply ends_weaken; [apply IH|].
    intros r σ' (Hs & ts & Ho & Hlen & Hn). split; [congruence|].
    exists ((if configured G then [the_call G text] else []) ++ ts). split.
    { rewrite Ho, Ho1. destruct (configured G); by rewrite <- ?app_assoc, ?app_nil_r. }
    split; [rewrite length_app; destruct (configured G); simpl; lia|].
    intros n Hr. destruct (Hn n Hr) as (? & ? & Hz).
    rewrite length_app. split; [done|]. split; [lia|congruence].
Qed.

Lemma both_returns G verbose E dry_run σ :
  ends (run_check_both G verbose E dry_run) σ (λ r σ',
    ∀ res, r = Ok res →
      let listings := snapshot E G σ in
      let delta :=
        new_listings_of listings (members (redis σ) (STORAGE_SEEN_KEY G)) in
      total res = length listings
      ∧ (reason res = "bootstrap" ↔ redis σ !! STORAGE_INIT_KEY G = None)
      ∧ match new_count res with
        | None =>
            sent res = 0
            ∧ (reason res = "bootstrap"
               ∨ (reason res = "no_new_listings" ∧ delta = []))
        | Some n =>
            n = length delta ∧ (0 < n)%nat ∧ (sent res ≤ n)%nat
            ∧ (n ≤ total res)%nat
            ∧ ((reason res = "new_listings" ∧ dry_run = false)
               ∨ (reason res = "dry_run" ∧ sent res = 0 ∧ dry_run = true))
        end
      ∧ sleeps σ' = sleeps σ + sent res
      ∧ ∃ ts, outbox σ' = outbox σ ++ ts ∧ (sent res ≤ length ts)%nat
              ∧ (length ts ≤ default 0 (new_count res))%nat).
Proof.
  unfold run_check_both.
  apply ends_log_and_reraise, ends_bind.
  unfold ends at 1.
  pose proof (get_redis_client_state G σ) as H0.
  destruct (get_redis_client G σ) as [[self|e] σ0]; simpl in H0; subst σ0;
    cbn [fst snd]; [|done].
  apply ends_bind. eapply ends_weaken; [apply exists_ends|].
  intros [b|e] σ1 (Hr1 & Hl1 & Ho1 & Hs1 & Hg1 & Hz1 & Hb); [|done].
  specialize (Hb b eq_refl).
  destruct b; cbn [negb].
  - (* a later run *)
    symmetry in Hb. apply bool_decide_eq_true in Hb.
    apply ends_bind. eapply ends_weaken; [apply fetch_ends|].
    intros r σ2 [-> ->]. rewrite (fetch_outcome E G σ σ1) by done.
    unfold snapshot.
    destruct (fetch_listings E G σ).1 as [listings|e]; [|done].
    apply ends_bind. unfold ends at 1. cbn [logger fst snd].
    apply ends_bind. eapply ends_weaken; [apply smembers_ends|].
    intros [seen_lots|e] σ4 (Hr4 & Hl4 & Ho4 & Hs4 & Hg4 & Hz4 & HS); [|done].
    destruct (HS seen_lots eq_refl) as [-> _]. clear HS.
    revert Hr4 Ho4 Hz4. norm_state. intros Hr4 Ho4 Hz4. rewrite Hr1.
    assert (Hlen : (length (new_listings_of listings
                              (members (redis σ) (STORAGE_SEEN_KEY G)))
                    ≤ length listings)%nat).
    { apply sublist_length, new_listings_sublist. }
    apply ends_bind.
    assert (Hquiet : ∀ Q : res unit → state → Prop,
              (∀ σ5, outbox σ5 = outbox σ → sleeps σ5 = sleeps σ → Q (Ok tt) σ5) →
              ends (if verbose
                    then logger (INFO ("[check] Found "
                           +:+ pretty (size (members (redis σ) (STORAGE_SEEN_KEY G)))
                           +:+ " seen lots in storage"))
                    else ret tt) σ4 Q).
    { intros Q HQ. destruct verbose; unfold ends; apply HQ; simpl; congruence. }
    apply Hquiet. intros σ5 Ho5 Hz5.
    destruct (new_listings_of listings (members (redis σ) (STORAGE_SEEN_KEY G)))
      as [|l0 rest] eqn:Hdelta.
    { unfold ends. intros res [= <-]. cbn.
      split; [done|]. split; [split; [done|intros Hn; by rewrite Hn in Hb; destruct Hb]|].
      split; [auto|]. split; [lia|]. exists []. by rewrite app_nil_r. }
    set (delta := l0 :: rest) in *.
    assert (Hpos : (0 < length delta)%nat) by (subst delta; simpl; lia).
    clearbody delta.
    apply ends_bind.
    assert (Hquiet' : ∀ Q : res unit → state → Prop,
              (∀ σ6, outbox σ6 = outbox σ → sleeps σ6 = sleeps σ → Q (Ok tt) σ6) →
              ends (if verbose
                    then logger (INFO ("[check] Found " +:+ pretty (length delta)
                                       +:+ " new listings"))
                    else ret tt) σ5 Q).
    { intros Q HQ. destruct verbose; unfold ends; apply HQ; simpl; congruence. }
    apply Hquiet'. intros σ6 Ho6 Hz6.
    assert (Hinit : ¬ (redis σ !! STORAGE_INIT_KEY G = None)).
    { intros Hn. rewrite Hn in Hb. by destruct Hb. }
    destruct dry_run.
    { unfold ends. intros res [= <-]. cbn [total reason new_count sent default ret fst snd].
      split; [done|]. split; [split; [done|by intros ?]|].
      split; [repeat split; try done; try lia; auto|].
      split; [lia|]. exists []. rewrite app_nil_r. split; [done|]. simpl. lia. }
    apply ends_bind. eapply ends_weaken; [apply notify_ends|].
    intros [n|e] σ7 (_ & ts & Ho7 & Hlen7 & Hn); [|done].
    destruct (Hn n eq_refl) as (_ & Hnts & Hz7).
    unfold ends. intros res [= <-]. cbn [total reason new_count sent default ret fst snd].
    split; [done|]. split; [split; [done|by intros ?]|].
    split; [repeat split; try done; try lia; auto|].
    split; [rewrite Hz7, Hz6; lia|].
    exists ts. rewrite Ho7, Ho6. split; [done|]. unfold id. lia.
  - (* the first run *)
    symmetry in Hb. apply bool_decide_eq_false in Hb.
    assert (Hnone : redis σ !! STORAGE_INIT_KEY G = None).
    { destruct (redis σ !! STORAGE_INIT_KEY G) eqn:Hk; [|done].
      destruct Hb. eauto. }
    unfold bootstrap.
    apply ends_bind. unfold ends at 1. cbn [logger fst snd].
    apply ends_bind. eapply ends_weaken; [apply fetch_ends|].
    intros r σ2 [-> ->]. rewrite (fetch_outcome E G σ) by done.
    unfold snapshot.
    destruct (fetch_listings E G σ).1 as [listings|e]; [|done].
    apply ends_bind.
    assert (Hadd : ∀ Q : res reply → state → Prop,
              (∀ e σ3, Q (Raise e) σ3) →
              (∀ v σ3, outbox σ3 = outbox σ → sleeps σ3 = sleeps σ → Q (Ok v) σ3) →
              ends (if bool_decide (bootstrap_lots listings ≠ ∅)
                    then sadd E self (STORAGE_SEEN_KEY G)
                           (elements (bootstrap_lots listings))
                    else ret (RInt 0))
                (with_site_log (site_log (with_logged
                   (logged σ1 ++ [INFO "[check] First run: initializing storage"]) σ1)
                     ++ [request_url G])
                   (with_logged
                      (logged σ1 ++ [INFO "[check] First run: initializing storage"])
                      σ1)) Q).
    { intros Q HR HQ. destruct (bool_decide _).
      - unfold sadd. eapply ends_weaken; [apply request_ends|].
        intros [v|e] σ3 (_ & Ho3 & _ & _ & Hz3 & _); [|apply HR].
        apply HQ; simpl in *; congruence.
      - unfold ends. apply HQ; simpl; congruence. }
    apply Hadd; [done|]. intros v σ3 Ho3 Hz3.
    apply ends_bind. unfold set.
    eapply ends_weaken; [apply request_ends|].
    intros [v'|e] σ4 (_ & Ho4 & _ & _ & Hz4 & _); [|done].
    unfold ends. intros res [= <-]. cbn [total reason new_count sent default ret fst snd].
    split; [done|]. split; [done|]. split; [auto|].
    split; [rewrite Hz4, Hz3; lia|]. exists []. rewrite app_nil_r.
    split; [congruence|]. simpl. lia.
Qed.

(** X4: what a run that returns reports, whatever the remote parties
    did: [total] is the size of the snapshot; the reason is [bootstrap]
    exactly when the init-flag was missing; [new_count] is reported
    only with a delta that is not empty, of which it is the size, and
    then [sent <= new_count <= total]; without it [sent = 0]. The run
    paused once for each listing it counted, and called Telegram at
    least [sent] times and at most [new_count] times. *)
Theorem run_check_returns p E dry_run σ r σ' :
  run_check p E dry_run σ = (Ok r, σ') →
  let listings := snapshot E (globals_of p (environ E)) σ in
  let delta := new_listings_of listings (seen p σ) in
  total r = length listings
  ∧ (reason r = "bootstrap" ↔ redis σ !! init_key p = None)
  ∧ match new_count r with
    | None =>
        sent r = 0
        ∧ (reason r = "bootstrap" ∨ (reason r = "no_new_listings" ∧ delta = []))
    | Some n =>
        n = length delta ∧ (0 < n)%nat ∧ (sent r ≤ n)%nat ∧ (n ≤ total r)%nat
        ∧ (reason r = "new_listings"
           ∨ (reason r = "dry_run" ∧ sent r = 0 ∧ p = Lexus ∧ dry_run = true))
    end
  ∧ sleeps σ' = sleeps σ + sent r
  ∧ ∃ ts, outbox σ' = outbox σ ++ ts ∧ (sent r ≤ length ts)%nat
          ∧ (length ts ≤ default 0 (new_count r))%nat.
Proof.
  intros Hrun listings delta.
  pose proof (both_returns (globals_of p (environ E)) (reads_dry_run p) E
                (reads_dry_run p && dry_run) σ) as H.
  unfold ends in H. rewrite <- run_check_both_eq, Hrun in H.
  specialize (H r eq_refl). cbv zeta in H.
  rewrite init_key_globals, seen_key_globals in H.
  destruct H as (Ht & Hb & Hn & Hz & Ho).
  split; [done|]. split; [done|]. split; [|done].
  destruct (new_count r) as [n|]; [|done].
  destruct Hn as (? & ? & ? & ? & Hreason). repeat split; try done.
  destruct Hreason as [[? _]|(? & ? & Hdry)]; [by left|right].
  apply andb_true_iff in Hdry as [Hp ?]. by destruct p.
Qed.

Lemma run_check_returns_witness :
  let E := env_second_fails in
  let σ := state_seen ["A"; "B"] in
  let r := {| sent := 1; reason := "new_listings"; new_count := Some 2;
              total := 4 |} in
  let σ' := (run_check Lexus E false σ).2 in
  run_check Lexus E false σ = (Ok r, σ')
  ∧ sleeps σ' = 1
  ∧ ∃ ts, outbox σ' = ts ∧ (1 ≤ length ts)%nat ∧ (length ts ≤ 2)%nat.
Proof.
  intros E σ r σ'.
  assert (Hrun : run_check Lexus E false σ = (Ok r, σ'))
    by (vm_compute; reflexivity).
  split; [exact Hrun|].
  destruct (run_check_returns Lexus E false σ r σ' Hrun)
    as (_ & _ & _ & Hz & ts & Ho & Hlen).
  split; [exact Hz|]. exists ts. split; [exact Ho|exact Hlen].
Defined.

(** *** Traces of a run, for every profile at once *)

Section both_trace.
Variable E : env.
Variable G : globals.
Variable Pc : command → Prop.
Variable Pt : tg_call → Prop.

(** Without credentials the loop asks nothing of [Pc] and [Pt]. *)
Lemma notify_trace_configured self new_listings sent σ :
  (configured G = true →
   ∀ l, l ∈ new_listings → truthy (get l "lot") = true →
        Pc (SADD (STORAGE_SEEN_KEY G) [py_str (get l "lot")])
        ∧ ∀ text, format_listing_message G l = Ok text → Pt (the_call G text)) →
  trace Pc Pt σ (notify E G self new_listings sent σ).2.
Proof.
  destruct (configured G) eqn:Hc; intros H.
  { apply notify_trace. by apply H. }
  clear H. revert sent σ.
  induction new_listings as [|l rest IH]; intros sent σ; simpl.
  { apply trace_refl. }
  destruct (truthy (get l "lot")); simpl; [|by apply IH].
  apply bind_trace; [apply trace_refl|].
  intros text σ0 [= Hf <-].
  apply bind_trace.
  { rewrite send_unconfigured by done. by apply trace_quiet. }
  intros b σ1. rewrite send_unconfigured by done. intros [= <- <-]. apply IH.
Qed.

Lemma both_trace verbose dry_run σ :
  Pc (EXISTS (STORAGE_INIT_KEY G)) →
  (redis σ !! STORAGE_INIT_KEY G = None →
   Pc (SET (STORAGE_INIT_KEY G) "1")
   ∧ ∀ vs, vs ≠ [] → Forall (snapshot_lot E G σ) vs →
           Pc (SADD (STORAGE_SEEN_KEY G) vs)) →
  (is_Some (redis σ !! STORAGE_INIT_KEY G) →
   Pc (SMEMBERS (STORAGE_SEEN_KEY G))
   ∧ (dry_run = false → configured G = true →
      ∀ l, eligible E G σ l →
           Pc (SADD (STORAGE_SEEN_KEY G) [lot_of l])
           ∧ ∀ text, format_listing_message G l = Ok text →
                     Pt (the_call G text))) →
  trace Pc Pt σ (run_check_both G verbose E dry_run σ).2.
Proof.
  intros Hex Hfirst Hlater.
  unfold run_check_both, log_and_reraise.
  apply try_trace; [|intros; apply handler_trace].
  apply bind_trace.
  { rewrite get_redis_client_state. apply trace_refl. }
  intros self σ0 H0.
  assert (σ0 = σ) as -> by (by rewrite <- (get_redis_client_state G σ), H0).
  apply bind_trace; [by apply exists_trace|].
  intros is_init σ1 (-> & Hr1 & Hs1)%exists_returns.
  case_bool_decide as Hinit; simpl.
  2:{ assert (Hnone : redis σ !! STORAGE_INIT_KEY G = None).
      { destruct (redis σ !! STORAGE_INIT_KEY G) eqn:Hk; [|done].
        destruct Hinit. eauto. }
      destruct (Hfirst Hnone) as [Hset Hadd].
      apply bootstrap_trace; [done|].
      intros vs Hne Hvs. apply Hadd; [done|].
      eapply Forall_impl; [exact Hvs|]. intros s (l & Hin & ?). exists l.
      by rewrite <- (snapshot_site_log E G σ σ1 Hs1). }
  destruct (Hlater Hinit) as [Hsm Hloop].
  apply bind_trace; [apply fetch_trace|].
  intros listings σ2 (Hls & Hr2 & _)%fetch_returns.
  apply bind_trace; [apply logger_trace|]. intros [] σ3 [= Hσ3].
  apply bind_trace; [by apply smembers_trace|].
  intros seen_lots σ4 [Hseen _]%smembers_returns.
  apply bind_trace.
  { destruct verbose; [apply logger_trace|apply trace_refl]. }
  intros _ σ5 _.
  destruct (new_listings_of listings seen_lots) as [|l0 rest] eqn:Hnew;
    [apply trace_refl|].
  apply bind_trace.
  { destruct verbose; [apply logger_trace|apply trace_refl]. }
  intros _ σ6 _.
  destruct dry_run; [apply trace_refl|].
  apply bind_trace; [|intros; apply trace_refl].
  apply notify_trace_configured. rewrite <- Hnew. intros Hc l Hin Ht.
  apply (Hloop eq_refl Hc).
  apply new_listings_of_spec in Hin as (Hin & _ & Hn).
  split; [|split; [done|]].
  - rewrite <- (snapshot_site_log E G σ σ1 Hs1). by rewrite <- Hls.
  - rewrite Hseen in Hn. subst σ3. simpl in Hn. by rewrite Hr2, Hr1 in Hn.
Qed.

End both_trace.

Lemma Forall_False_nil {A} (l : list A) : Forall (λ _, False) l → l = [].
Proof. destruct l; [done|]. by intros [[] _]%Forall_cons. Qed.

(** *** The first run *)

(** X5: a run that finds no init-flag calls Telegram never, whatever the
    store, the site and Telegram do; the commands it issues are the
    existence test of the flag, additions to the seen-set of non-empty
    lot identifiers of the snapshot, and the setting of the flag. *)
Theorem first_run_is_silent p E dry_run σ :
  redis σ !! init_key p = None →
  let G := globals_of p (environ E) in
  let σ' := (run_check p E dry_run σ).2 in
  outbox σ' = outbox σ
  ∧ ∃ cs, redis_log σ' = redis_log σ ++ cs
          ∧ Forall (bootstrap_cmd p (snapshot_lot E G σ)) cs.
Proof.
  intros Hnone G σ'. subst σ'. rewrite run_check_both_eq. fold G.
  destruct (both_trace E G (bootstrap_cmd p (snapshot_lot E G σ)) (λ _, False)
              (reads_dry_run p) (reads_dry_run p && dry_run) σ)
    as ((cs & Hl & Hcs) & (ts & Ho & Hts) & _).
  - left. unfold G. by rewrite init_key_globals.
  - intros _. unfold G. rewrite init_key_globals, seen_key_globals. split.
    + right. by left.
    + intros vs ??. right. right. by exists vs.
  - unfold G. rewrite init_key_globals, Hnone. by intros [? ?].
  - apply Forall_False_nil in Hts as ->. rewrite app_nil_r in Ho.
    split; [done|]. by exists cs.
Qed.

Lemma first_run_is_silent_witness :
  let E := env_serving environ_full [lot_listing "A"; lot_listing "B"] in
  redis state_fresh !! init_key Toyota = None
  ∧ outbox (run_check Toyota E false state_fresh).2 = [].
Proof.
  intros E. split; [reflexivity|].
  exact (proj1 (first_run_is_silent Toyota E false state_fresh eq_refl)).
Defined.

(** *** The credentials of a profile *)

Lemma token_of_profile p environ :
  TELEGRAM_BOT_TOKEN (globals_of p environ) = getenv environ (token_var p).
Proof. by destruct p. Qed.

Lemma chat_of_profile p environ :
  TELEGRAM_CHAT_ID (globals_of p environ) = getenv environ (chat_var p).
Proof. by destruct p. Qed.

Lemma truthy_getenv environ name :
  truthy (getenv environ name) = true →
  environ !! name = Some (py_str (getenv environ name))
  ∧ py_str (getenv environ name) ≠ "".
Proof.
  unfold getenv. destruct (environ !! name) as [s|]; simpl; [|done].
  rewrite negb_true_iff, String.eqb_neq. done.
Qed.

Lemma run_outbox_credentials p E dry_run σ :
  ∃ ts, outbox (run_check p E dry_run σ).2 = outbox σ ++ ts
    ∧ Forall (λ t, environ E !! token_var p = Some (tg_token t)
                   ∧ tg_token t ≠ ""
                   ∧ environ E !! chat_var p = Some (tg_chat_id t)
                   ∧ tg_chat_id t ≠ "") ts.
Proof.
  set (G := globals_of p (environ E)).
  rewrite run_check_both_eq. fold G.
  destruct (both_trace E G (λ _, True)
              (λ t, environ E !! token_var p = Some (tg_token t)
                    ∧ tg_token t ≠ ""
                    ∧ environ E !! chat_var p = Some (tg_chat_id t)
                    ∧ tg_chat_id t ≠ "")
              (reads_dry_run p) (reads_dry_run p && dry_run) σ)
    as (_ & Hts & _); try done.
  intros _. split; [done|]. intros _ Hc l _. split; [done|]. intros text _.
  unfold configured in Hc. apply andb_true_iff in Hc as [Ht Hi].
  unfold G in Ht, Hi. rewrite token_of_profile in Ht.
  rewrite chat_of_profile in Hi.
  apply truthy_getenv in Ht as [Ht ?]. apply truthy_getenv in Hi as [Hi ?].
  unfold the_call, G. simpl. rewrite token_of_profile, chat_of_profile.
  done.
Qed.

Lemma run_outbox_unconfigured p E dry_run σ :
  unset (environ E) (token_var p) ∨ unset (environ E) (chat_var p) →
  outbox (run_check p E dry_run σ).2 = outbox σ.
Proof.
  destruct (run_outbox_credentials p E dry_run σ) as (ts & Ho & Hts).
  intros Hun. rewrite Ho.
  destruct ts as [|t ts]; [by rewrite app_nil_r|].
  apply Forall_cons in Hts as [(Ht & Hne & Hi & Hne') _].
  destruct Hun as [[Hun|Hun]|[Hun|Hun]]; rewrite Hun in *; by simplify_eq.
Qed.

(** X6: every call that a run makes to Telegram carries the token and
    the chat id of the profile that runs, read from that profile's own
    two variables, both non-empty; so a profile one of whose variables
    is unset or empty calls Telegram never, whatever its run finds and
    whatever the remote parties do. *)
Theorem calls_carry_own_credentials p E dry_run σ :
  (∃ ts, outbox (run_check p E dry_run σ).2 = outbox σ ++ ts
     ∧ Forall (λ t, environ E !! token_var p = Some (tg_token t)
                    ∧ tg_token t ≠ ""
                    ∧ environ E !! chat_var p = Some (tg_chat_id t)
                    ∧ tg_chat_id t ≠ "") ts)
  ∧ (unset (environ E) (token_var p) ∨ unset (environ E) (chat_var p) →
     outbox (run_check p E dry_run σ).2 = outbox σ).
Proof.
  split; [apply run_outbox_credentials|apply run_outbox_unconfigured].
Qed.

(** *** Once the store is initialised *)

Lemma init_key_shared p : init_key p = init_key Lexus.
Proof. by destruct p. Qed.

Lemma seen_key_shared p : seen_key p = seen_key Lexus.
Proof. by destruct p. Qed.

Lemma incremental_cmd_shared p c : incremental_cmd p c → incremental_cmd Lexus c.
Proof. unfold incremental_cmd. by rewrite init_key_shared, seen_key_shared. Qed.

Lemma incremental_cmd_init p c d :
  incremental_cmd p c → (redis_exec c d).2 !! init_key p = d !! init_key p.
Proof.
  intros [->|[->|[s ->]]]; simpl.
  - done.
  - by destruct (d !! seen_key p) as [[?|?]|].
  - destruct (d !! seen_key p) as [[?|?]|]; simpl; [done|..];
      by rewrite lookup_insert_ne by apply profile_keys_differ.
Qed.

Lemma run_incremental_trace p E dry_run σ :
  is_Some (redis σ !! init_key p) →
  trace (incremental_cmd p) (λ _, True) σ (run_check p E dry_run σ).2.
Proof.
  intros Hinit. rewrite run_check_both_eq.
  apply both_trace; rewrite ?init_key_globals, ?seen_key_globals.
  - by left.
  - intros Hnone. rewrite Hnone in Hinit. by destruct Hinit.
  - intros _. split; [right; by left|]. intros _ _ l _.
    split; [|done]. right. right. by exists (lot_of l).
Qed.

(** X7: once the init-flag exists, no run of either profile, in any
    sequence and whatever the remote parties do, runs the bootstrap
    again: the runs send nothing but the existence test of the flag,
    the listing of the seen-set and additions of one identifier to it,
    and the flag keeps its value. *)
Theorem initialised_for_good E rs σ :
  is_Some (redis σ !! init_key Lexus) →
  redis (run_many E rs σ) !! init_key Lexus = redis σ !! init_key Lexus
  ∧ ∃ cs, redis_log (run_many E rs σ) = redis_log σ ++ cs
          ∧ Forall (incremental_cmd Lexus) cs.
Proof.
  revert σ. induction rs as [|[p dry_run] rs IH]; intros σ Hinit; simpl.
  { split; [done|]. exists []. by rewrite app_nil_r. }
  destruct (run_incremental_trace p E dry_run σ)
    as ((cs & Hl & Hcs) & _ & Hdb & _).
  { by rewrite init_key_shared. }
  assert (Hkeep : redis (run_check p E dry_run σ).2 !! init_key Lexus
                  = redis σ !! init_key Lexus).
  { clear -Hdb. rewrite <- (init_key_shared p).
    induction Hdb as [|d1 d2 d3 (c & Hc & ->) _ IH]; [done|].
    rewrite IH. by apply incremental_cmd_init. }
  destruct (IH (run_check p E dry_run σ).2) as (Hk & cs' & Hl' & Hcs').
  { by rewrite Hkeep. }
  split; [by rewrite Hk|].
  exists (cs ++ cs'). rewrite Hl', Hl, app_assoc. split; [done|].
  apply Forall_app. split; [|done].
  eapply Forall_impl; [exact Hcs|]. apply incremental_cmd_shared.
Qed.

Lemma initialised_for_good_witness :
  let E := env_serving environ_full [lot_listing "A"; lot_listing "C"] in
  let σ := state_seen ["A"] in
  redis (run_many E [(Lexus, false); (Toyota, true); (Lexus, true)] σ)
    !! init_key Lexus = Some (RString "1").
Proof.
  intros E σ.
  rewrite (proj1 (initialised_for_good E
                    [(Lexus, false); (Toyota, true); (Lexus, true)] σ
                    (ex_intro _ (RString "1") eq_refl))).
  reflexivity.
Defined.

(** *** The type of the seen-set *)

Lemma cmd_ok_usable seen_key init_key A c d :
  seen_key ≠ init_key → cmd_ok seen_key init_key A c →
  usable d seen_key → usable (redis_exec c d).2 seen_key.
Proof.
  intros Hne Hc Hu s. destruct c as [k|k|k vs|k v]; simpl in *.
  - apply Hu.
  - destruct (d !! k) as [[?|?]|]; apply Hu.
  - destruct Hc as (-> & _). destruct vs as [|v vs]; [apply Hu|].
    destruct (d !! seen_key) as [[?|m]|] eqn:Hd; simpl;
      rewrite ?lookup_insert_eq; done.
  - destruct Hc as (-> & _). rewrite lookup_insert_ne by done. apply Hu.
Qed.

Lemma run_usable p E dry_run σ :
  usable (redis σ) (seen_key p) →
  usable (redis (run_check p E dry_run σ).2) (seen_key p).
Proof.
  intros Hu. pose proof (run_db_reach p E dry_run σ) as Hdb.
  induction Hdb as [|d1 d2 d3 (c & Hc & ->) _ IH]; [done|].
  apply IH. eapply cmd_ok_usable; [apply profile_keys_differ|done..].
Qed.

(** X8: the runs never turn the key of the seen-set into something that
    is not a set: if it holds a set or nothing, it does so after any
    sequence of runs of the two profiles, whatever the remote parties
    do, so that no run meets a seen-set of the wrong type of its own
    making. *)
Theorem seen_set_stays_a_set E rs σ :
  usable (redis σ) (seen_key Lexus) →
  usable (redis (run_many E rs σ)) (seen_key Lexus).
Proof.
  revert σ. induction rs as [|[p dry_run] rs IH]; intros σ Hu; simpl; [done|].
  apply IH. rewrite <- (seen_key_shared p). apply run_usable.
  by rewrite seen_key_shared.
Qed.

Lemma seen_set_stays_a_set_witness :
  let E := env_lost_add in
  usable (redis (run_many E [(Lexus, false); (Toyota, false)] state_fresh))
    (seen_key Lexus).
Proof.
  intros E. apply seen_set_stays_a_set. intros s. vm_compute. discriminate.
Defined.

(** *** A seen-set of the wrong type *)

Lemma both_wrong_type G verbose E dry_run σ s :
  redis σ !! STORAGE_SEEN_KEY G = Some (RString s) →
  is_Some (redis σ !! STORAGE_INIT_KEY G) →
  ends (run_check_both G verbose E dry_run) σ (λ r σ',
    (∃ e, r = Raise e) ∧ only_read σ σ').
Proof.
  intros Hs Hinit. unfold run_check_both.
  apply ends_log_and_reraise, ends_bind.
  unfold ends at 1.
  pose proof (get_redis_client_state G σ) as H0.
  destruct (get_redis_client G σ) as [[self|e] σ0]; simpl in H0; subst σ0; simpl.
  2:{ split; [eauto|]. apply only_read_logged, only_read_refl. }
  apply ends_bind. eapply ends_weaken; [apply exists_ends|].
  intros [b|e] σ1 (Hr & Hl & Ho & Hs1 & Hg & Hz & Hb).
  2:{ split; [eauto|]. apply only_read_logged.
      by apply (only_read_step σ σ σ1 (EXISTS (STORAGE_INIT_KEY G)));
        [apply only_read_refl|..]. }
  assert (H1 : only_read σ σ1).
  { by apply (only_read_step σ σ σ1 (EXISTS (STORAGE_INIT_KEY G)));
      [apply only_read_refl|..]. }
  rewrite (Hb b eq_refl), bool_decide_true by done. cbn [negb].
  apply ends_bind. eapply ends_weaken; [apply fetch_ends|].
  intros r σ2 [-> ->].
  destruct (fetch_listings E G σ1).1 as [listings|e].
  2:{ split; [eauto|]. by apply only_read_logged, (only_read_quiet σ σ1). }
  apply ends_bind. unfold ends at 1. cbn [logger fst snd].
  apply ends_bind. eapply ends_weaken; [apply smembers_ends|].
  intros [seen_lots|e] σ4 (Hr4 & Hl4 & Ho4 & _ & _ & Hz4 & HS).
  { destruct (HS seen_lots eq_refl) as [_ Hu]. destruct (Hu s).
    simpl. by rewrite Hr. }
  split; [eauto|]. apply only_read_logged.
  by apply (only_read_step σ σ1 σ4 (SMEMBERS (STORAGE_SEEN_KEY G))).
Qed.

(** X9: if the key of the seen-set holds a string and the init-flag
    exists, the run of either profile raises, whatever the remote
    parties do: it changes nothing in the store and sends nothing to
    Telegram. *)
Theorem wrong_type_seen_set p E dry_run σ s :
  redis σ !! seen_key p = Some (RString s) →
  is_Some (redis σ !! init_key p) →
  ∃ e σ', run_check p E dry_run σ = (Raise e, σ') ∧ only_read σ σ'.
Proof.
  intros Hs Hinit. rewrite run_check_both_eq.
  pose proof (both_wrong_type (globals_of p (environ E)) (reads_dry_run p) E
                (reads_dry_run p && dry_run) σ s) as H.
  rewrite seen_key_globals, init_key_globals in H.
  specialize (H Hs Hinit). unfold ends in H.
  destruct (run_check_both _ _ _ _ σ) as [r σ']. simpl in H.
  destruct H as ([e ->] & H). by exists e, σ'.
Qed.

Lemma wrong_type_seen_set_witness :
  let E := env_serving environ_full [lot_listing "A"] in
  let σ := state_of (<[ "bidcars:seen-initialized" := RString "1" ]>
                       {[ "bidcars:seen-lots" := RString "A" ]}) in
  ∃ e σ', run_check Lexus E false σ = (Raise e, σ') ∧ outbox σ' = [].
Proof.
  intros E σ.
  destruct (wrong_type_seen_set Lexus E false σ "A")
    as (e & σ' & Hrun & _ & Ho & _).
  - reflexivity.
  - vm_compute. eexists. reflexivity.
  - by exists e, σ'.
Defined.

(** *** Runs that follow one another *)

Lemma new_listings_of_nil listings seen_lots :
  (∀ l, l ∈ listings → truthy (get l "lot") = true → lot_of l ∈ seen_lots) →
  new_listings_of listings seen_lots = [].
Proof.
  intros H. destruct (new_listings_of listings seen_lots) as [|l rest] eqn:Hnew;
    [done|].
  assert (Hin : l ∈ new_listings_of listings seen_lots)
    by (rewrite Hnew; left).
  apply new_listings_of_spec in Hin as (Hin & Ht & Hn).
  specialize (H l Hin Ht). apply truthy_get in Ht as (s & Hl & _).
  unfold lot_of, get in *. rewrite Hl in *. simpl in *.
  by rewrite bool_decide_true in Hn.
Qed.

Lemma store_configured_shared p p' environ :
  store_configured (globals_of p environ) →
  store_configured (globals_of p' environ).
Proof. by destruct p, p'. Qed.

Lemma lot_in_bootstrap_lots listings l :
  l ∈ listings → truthy (get l "lot") = true → lot_of l ∈ bootstrap_lots listings.
Proof.
  intros Hin Ht. apply bootstrap_lots_spec. exists l. split; [done|].
  apply truthy_get in Ht as (s & Hl & Hne). unfold lot_of, get. by rewrite Hl.
Qed.

(** X10: bootstrap, then a run. When the store answers, after the first
    run on a snapshot [listings], a run of either profile on a snapshot
    that holds listings of [listings] only (the same snapshot, say)
    finds nothing new: it returns [no_new_listings], changes nothing in
    the store and sends nothing. *)
Theorem bootstrap_then_nothing_new p p' E dry_run dry_run' σ listings listings' :
  let G := globals_of p (environ E) in
  let G' := globals_of p' (environ E) in
  let σ1 := (run_check p E dry_run σ).2 in
  healthy E → store_configured G →
  redis σ !! init_key p = None →
  usable (redis σ) (seen_key p) →
  site_serves E G σ listings →
  site_serves E G' σ1 listings' →
  listings' ⊆ listings →
  (run_check p E dry_run σ).1
  = Ok {| sent := 0; reason := "bootstrap"; new_count := None;
          total := length listings |}
  ∧ ∃ σ2,
      run_check p' E dry_run' σ1
      = (Ok {| sent := 0; reason := "no_new_listings"; new_count := None;
               total := length listings' |}, σ2)
      ∧ redis σ2 = redis σ1 ∧ outbox σ2 = outbox σ.
Proof.
  intros G G' σ1 Hnet Hcfg Hnone Hu Hsite Hsite' Hsub.
  destruct (run_check_bootstrap p E dry_run σ listings)
    as (σ1' & Hrun & _ & Hseen & Hinit & _ & Ho & _); try done.
  assert (σ1 = σ1') as Hσ1 by (unfold σ1; by rewrite Hrun).
  rewrite Hrun. split; [done|]. rewrite <- Hσ1 in *. clear Hσ1 σ1'.
  assert (Hnew : new_listings_of listings' (seen p' σ1) = []).
  { apply new_listings_of_nil. intros l Hin Ht.
    unfold seen. rewrite (seen_key_shared p'), <- (seen_key_shared p).
    fold (seen p σ1). rewrite Hseen. apply elem_of_union_r.
    apply lot_in_bootstrap_lots; [|done]. by apply Hsub. }
  destruct (run_check_incremental p' E dry_run' σ1 listings')
    as (σ2 & Hrun2 & _ & _ & _ & Ho2 & _ & _ & Hsame); try done.
  - by apply (store_configured_shared p).
  - rewrite init_key_shared, <- (init_key_shared p), Hinit. eauto.
  - rewrite seen_key_shared, <- (seen_key_shared p). by apply run_usable.
  - rewrite Hnew. constructor.
  - exists σ2. rewrite Hnew in *. split; [exact Hrun2|]. split.
    + apply Hsame. by destruct (reads_dry_run p' && dry_run').
    + rewrite Ho2, <- Ho. destruct (configured _ && _); simpl; by rewrite app_nil_r.
Qed.

Lemma bootstrap_then_nothing_new_witness :
  let E := env_serving environ_full [lot_listing "A"; lot_listing "B"] in
  let σ1 := (run_check Lexus E false state_fresh).2 in
  (run_check Lexus E false state_fresh).1
  = Ok {| sent := 0; reason := "bootstrap"; new_count := None; total := 2 |}
  ∧ ∃ σ2,
      run_check Toyota E false σ1
      = (Ok {| sent := 0; reason := "no_new_listings"; new_count := None;
               total := 2 |}, σ2)
      ∧ redis σ2 = redis σ1 ∧ outbox σ2 = [].
Proof.
  intros E σ1.
  apply (bootstrap_then_nothing_new Lexus Toyota E false false state_fresh
           [lot_listing "A"; lot_listing "B"] [lot_listing "A"; lot_listing "B"]);
    try done; scenario.
Defined.

Lemma delivered_all E G n ls :
  configured G = true → (∀ k, acknowledged (telegram E k) = true) →
  delivered E G n ls = attempted ls.
Proof.
  intros Hc Hack. revert n. unfold attempted.
  induction ls as [|l rest IH]; intros n; simpl; [done|].
  destruct (truthy (get l "lot")); [|apply IH].
  by rewrite Hc, Hack, IH.
Qed.

Lemma lot_in_lots_of ls l : l ∈ ls → lot_of l ∈ lots_of ls.
Proof.
  intros Hin. unfold lots_of. rewrite elem_of_list_to_set.
  apply list_elem_of_fmap. eauto.
Qed.

(** X11: a run in which everything goes well. When the store answers,
    the profile is configured and Telegram acknowledges every message,
    a later run posts one message for each listing of its delta, in the
    order of the snapshot (two listings with the same lot identifier
    are two messages), counts them all ([sent = new_count]), pauses
    once for each and adds their identifiers; the same snapshot then
    has an empty delta. *)
Theorem run_all_acknowledged p E dry_run σ listings :
  let G := globals_of p (environ E) in
  let delta := new_listings_of listings (seen p σ) in
  healthy E → store_configured G → configured G = true →
  (∀ n, acknowledged (telegram E n) = true) →
  is_Some (redis σ !! init_key p) →
  usable (redis σ) (seen_key p) →
  site_serves E G σ listings →
  reads_dry_run p && dry_run = false →
  Forall (formattable G) delta →
  ∃ σ',
    run_check p E dry_run σ
    = (Ok (incremental_result false listings delta delta), σ')
    ∧ outbox σ' = outbox σ ++ map (λ l, the_call G (message_of G l)) delta
    ∧ sleeps σ' = sleeps σ + length delta
    ∧ seen p σ' = seen p σ ∪ lots_of delta
    ∧ new_listings_of listings (seen p σ') = [].
Proof.
  intros G delta Hnet Hcfg Hc Hack Hinit Hu Hsite Hdry Hfmt.
  destruct (run_check_incremental p E dry_run σ listings)
    as (σ' & Hrun & Hseen & _ & _ & Ho & Hz & _); try done.
  revert Hrun Hseen Ho Hz. rewrite Hdry. fold G. fold delta.
  assert (Hatt : attempted delta = delta) by apply new_listings_attempted.
  rewrite (delivered_all E G), Hatt, Hc by done.
  simpl. intros Hrun Hseen Ho Hz.
  exists σ'. repeat split; try done.
  apply new_listings_of_nil. intros l Hin Ht. rewrite Hseen.
  destruct (decide (lot_of l ∈ seen p σ)) as [?|Hnot].
  { by apply elem_of_union_l. }
  apply elem_of_union_r, lot_in_lots_of, new_listings_of_spec.
  split; [done|]. split; [done|].
  apply truthy_get in Ht as (s & Hl & _).
  unfold lot_of, get in *. rewrite Hl in *. simpl in *.
  by rewrite bool_decide_false.
Qed.

Lemma run_all_acknowledged_witness :
  let E := env_serving environ_full (map lot_listing ["A"; "C"; "B"; "C"]) in
  let σ := state_seen ["A"] in
  ∃ σ',
    run_check Toyota E false σ
    = (Ok {| sent := 3; reason := "new_listings"; new_count := Some 3;
             total := 4 |}, σ')
    ∧ map tg_text (outbox σ')
      = map (message_of (toyota.G environ_full))
          [lot_listing "C"; lot_listing "B"; lot_listing "C"].
Proof.
  intros E σ.
  destruct (run_all_acknowledged Toyota E false σ (map lot_listing ["A"; "C"; "B"; "C"]))
    as (σ' & Hrun & Ho & _); try done; scenario.
  exists σ'. split; [exact Hrun|]. rewrite Ho. reflexivity.
Defined.

(** *** The entry points of [flask_app] *)

Lemma lower_byte_small x c :
  byte_in 97 122 c = true → lower_byte x = c →
  x = c ∨ x = ascii_of_nat (nat_of_ascii c - 32).
Proof.
  unfold lower_byte, byte_in. rewrite !andb_true_iff, !Nat.leb_le.
  intros [Hlo Hhi].
  destruct ((65 <=? nat_of_ascii x)%nat && (nat_of_ascii x <=? 90)%nat) eqn:Hx;
    [|auto].
  apply andb_true_iff in Hx as [H1 H2]. apply Nat.leb_le in H1, H2.
  intros Hc. right.
  assert (Hn : nat_of_ascii c = nat_of_ascii x + 32).
  { rewrite <- Hc. apply nat_ascii_embedding. lia. }
  rewrite Hn, Nat.add_sub. by rewrite ascii_nat_embedding.
Qed.

Lemma lower_true s : lower s = "true" ↔ spells_true s.
Proof.
  split.
  - destruct s as [|a [|b [|c [|d [|??]]]]]; try done.
    cbn [lower]. intros [= Ha Hb Hc Hd]. exists a, b, c, d. split; [done|].
    apply lower_byte_small in Ha, Hb, Hc, Hd; done.
  - intros (a & b & c & d & -> & [-> | ->] & [-> | ->] & [-> | ->] & [-> | ->]);
      reflexivity.
Qed.

(** X12: the [/check] handler runs dry exactly when the query string has
    a parameter [dryRun] whose value is the word true in any mix of
    small and capital letters; without the parameter, or with any other
    value (1, yes, the word true with a space), the run is a real one. *)
Theorem dry_run_arg_spec args :
  flask_app.dry_run_arg args = true
  ↔ ∃ s, args !! "dryRun" = Some s ∧ spells_true s.
Proof.
  unfold flask_app.dry_run_arg. rewrite String.eqb_eq, lower_true.
  destruct (args !! "dryRun") as [s|]; simpl.
  - split; [eauto|]. by intros (? & [= <-] & ?).
  - split.
    + by intros (? & ? & ? & ? & ? & _).
    + by intros (? & ? & _).
Qed.

Lemma result_fields_lookup r :
  let body := result_fields r ∪ {[ "ok" := JBool true ]} in
  body !! "ok" = Some (JBool true)
  ∧ body !! "sent" = Some (JNum (sent r))
  ∧ body !! "reason" = Some (JStr (reason r))
  ∧ body !! "total" = Some (JNum (total r))
  ∧ body !! "new_count" = JNum <$> new_count r
  ∧ body !! "error" = None.
Proof.
  unfold result_fields. destruct (new_count r) as [n|]; vm_compute; done.
Qed.

(** X13: the [/check] handler never raises. When the run returns, the
    response has status 200 and carries [ok] true beside the fields of
    the result ([new_count] only if the result has it), and the handler
    has done what the run did and nothing more; when the run raises,
    the response has status 500 and carries [ok] false and the text of
    the exception, which has been logged twice, by the run and by the
    handler. *)
Theorem check_endpoint_spec E args σ :
  let run := flask_app.run_check E (flask_app.dry_run_arg args) σ in
  ∃ resp σ',
    flask_app.check_endpoint E args σ = (Ok resp, σ')
    ∧ match run.1 with
      | Ok r =>
          σ' = run.2 ∧ resp_status resp = 200
          ∧ resp_body resp !! "ok" = Some (JBool true)
          ∧ resp_body resp !! "sent" = Some (JNum (sent r))
          ∧ resp_body resp !! "reason" = Some (JStr (reason r))
          ∧ resp_body resp !! "total" = Some (JNum (total r))
          ∧ resp_body resp !! "new_count" = JNum <$> new_count r
          ∧ resp_body resp !! "error" = None
      | Raise e =>
          resp_status resp = 500
          ∧ resp_body resp
            = {[ "ok" := JBool false; "error" := JStr (exn_str e) ]}
          ∧ ∃ σ1 : state,
              run.2 = with_logged
                        (logged σ1 ++ [ERROR ("[check] Failed: " +:+ exn_str e)]) σ1
              ∧ σ' = with_logged
                       (logged run.2 ++ [ERROR ("[api/check] error: " +:+ exn_str e)])
                       run.2
      end.
Proof.
  intros run. unfold flask_app.check_endpoint, try_except, bind. fold run.
  destruct run as [[r|e] σ1] eqn:Hrun; cbn [fst snd].
  - eexists _, _. split; [reflexivity|]. split; [done|]. split; [done|].
    apply result_fields_lookup.
  - eexists _, _. split; [reflexivity|]. split; [done|]. split; [done|].
    apply log_and_reraise_raise in Hrun as (σ0 & _ & ->). by exists σ0.
Qed.

Lemma dry_run_arg_true args s :
  args !! "dryRun" = Some s → spells_true s → flask_app.dry_run_arg args = true.
Proof.
  intros Hs Ht. unfold flask_app.dry_run_arg. rewrite Hs. simpl.
  by apply String.eqb_eq, lower_true.
Qed.

(** X14: a request to [/check] with [dryRun=true], in any mix of small
    and capital letters, on a store that has the init-flag: whatever
    the remote parties do, the handler leaves the store as it is, sends
    it read-only commands only and sends nothing to Telegram. *)
Theorem check_endpoint_dry_run E args σ s :
  args !! "dryRun" = Some s → spells_true s →
  is_Some (redis σ !! init_key Lexus) →
  let σ' := (flask_app.check_endpoint E args σ).2 in
  redis σ' = redis σ ∧ outbox σ' = outbox σ
  ∧ ∃ cs, redis_log σ' = redis_log σ ++ cs ∧ Forall read_only cs.
Proof.
  intros Hs Ht Hinit σ'.
  destruct (flask_dry_trace E σ Hinit)
    as ((cs & Hl & Hcs) & (ts & Ho & Hts) & Hdb & _).
  apply Forall_False_nil in Hts as ->. rewrite app_nil_r in Ho.
  apply db_reach_read_only in Hdb.
  subst σ'. unfold flask_app.check_endpoint, try_except, bind.
  rewrite (dry_run_arg_true args s) by done.
  destruct (flask_app.run_check E true σ) as [[r|e] σ1]; simpl in *;
    (split; [done|]; split; [done|]; by exists cs).
Qed.

Lemma check_endpoint_dry_run_witness :
  let E := env_serving environ_full [lot_listing "A"; lot_listing "B"] in
  let σ' := (flask_app.check_endpoint E {[ "dryRun" := "True" ]}
               (state_seen ["A"])).2 in
  redis σ' = redis (state_seen ["A"]) ∧ outbox σ' = [].
Proof.
  intros E σ'.
  destruct (check_endpoint_dry_run E {[ "dryRun" := "True" ]} (state_seen ["A"])
              "True") as (Hr & Ho & _).
  - reflexivity.
  - exists "T"%char, "r"%char, "u"%char, "e"%char. repeat split; auto.
  - vm_compute. eexists. reflexivity.
  - split; [exact Hr|exact Ho].
Defined.

(** X15: the scheduled job never raises and is never a dry run: it does
    what [run_check] does with [dry_run] false, then logs one record,
    the result when the run returned and the failure when it raised. *)
Theorem scheduled_check_spec E σ :
  let run := flask_app.run_check E false σ in
  ∃ record,
    flask_app.scheduled_check E σ
    = (Ok tt, with_logged (logged run.2 ++ [record]) run.2)
    ∧ match run.1 with
      | Ok r => record = INFO ("[scheduled] Completed: " +:+ repr_result r)
      | Raise e =>
          record = ERROR ("[scheduled] Failed: " +:+ exn_str e)
          ∧ last (logged run.2) = Some (ERROR ("[check] Failed: " +:+ exn_str e))
      end.
Proof.
  intros run. unfold flask_app.scheduled_check, try_except, bind. fold run.
  destruct run as [[r|e] σ1] eqn:Hrun; cbn [fst snd].
  - by eexists.
  - eexists. split; [reflexivity|]. split; [done|].
    apply log_and_reraise_raise in Hrun as (σ0 & _ & ->). simpl.
    by rewrite last_snoc.
Qed.

(** *** The start-up checks *)

Lemma missing_nil_iff (required : list string) environ :
  List.filter (λ k, negb (truthy (getenv environ k))) required = []
  ↔ ∀ k, k ∈ required → truthy (getenv environ k) = true.
Proof.
  induction required as [|k rest IH]; simpl.
  - split; [|done]. intros _ k Hk. by apply elem_of_nil in Hk.
  - destruct (truthy (getenv environ k)) eqn:Hk; simpl.
    + rewrite IH. split.
      * intros H k' [->|?]%elem_of_cons; auto.
      * intros H k' ?. apply H. by right.
    + split; [done|]. intros H. specialize (H k (list_elem_of_here _ _)).
      congruence.
Qed.

(** X16: the start-up check of [flask_app] lists the required variables
    that are unset or empty, in the order of the list; it lets the
    process start exactly when the Telegram credentials and the store
    credentials that [run_check] reads are all set. *)
Theorem flask_startup_check environ :
  (∀ k, k ∈ flask_app.missing environ
        ↔ k ∈ flask_app.required ∧ unset environ k)
  ∧ sublist (flask_app.missing environ) flask_app.required
  ∧ (flask_app.missing environ = []
     ↔ configured (flask_app.G environ) = true
       ∧ store_configured (flask_app.G environ)).
Proof.
  split; [|split].
  - intros k. unfold flask_app.missing.
    rewrite !list_elem_of_In, filter_In, negb_true_iff, unset_getenv. done.
  - unfold flask_app.missing.
    induction flask_app.required as [|k rest IH]; simpl; [done|].
    destruct (negb _); [by apply sublist_skip|by apply sublist_cons].
  - unfold flask_app.missing. rewrite missing_nil_iff.
    unfold configured, store_configured, flask_app.G, flask_app.required. simpl.
    rewrite andb_true_iff. split.
    + intros H.
      repeat split; apply H;
        by repeat first [apply list_elem_of_here|apply list_elem_of_further].
    + intros ([? ?] & ? & ?) k Hk.
      repeat (apply elem_of_cons in Hk as [->|Hk]; [done|]).
      by apply elem_of_nil in Hk.
Qed.

(** The script of [toyota] asks for the variables that [flask_app]
    reads. *)
Lemma toyota_missing_nil environ :
  toyota.missing environ = []
  ↔ configured (flask_app.G environ) = true
    ∧ store_configured (toyota.G environ).
Proof.
  unfold toyota.missing. rewrite missing_nil_iff.
  unfold configured, store_configured, flask_app.G, toyota.G, toyota.required.
  simpl. rewrite andb_true_iff. split.
  - intros H.
    repeat split; apply H;
      by repeat first [apply list_elem_of_here|apply list_elem_of_further].
  - intros ([? ?] & ? & ?) k Hk.
    repeat (apply elem_of_cons in Hk as [->|Hk]; [done|]).
    by apply elem_of_nil in Hk.
Qed.

(** X17: the script of [toyota]. Its start-up check asks for the four
    variables without suffix, those of the Lexus profile, and not for
    the two Telegram variables that [toyota] itself reads: if one of
    the four is unset or empty the script logs the missing names and
    exits with status 1 without any request; otherwise it runs
    [run_check] once, not dry, and ends, or dies of the exception of
    the run. In every case, if one of the two variables with the
    suffix is unset or empty, nothing is sent to Telegram. *)
Theorem toyota_main_spec E σ :
  (toyota.missing (environ E) = []
   ↔ configured (flask_app.G (environ E)) = true
     ∧ store_configured (toyota.G (environ E)))
  ∧ (toyota.missing (environ E) ≠ [] →
     toyota.main E σ
     = (Ok (Some 1),
        with_logged
          (logged σ ++ [ERROR ("Missing required environment variables: "
                               +:+ join ", " (toyota.missing (environ E)))]) σ))
  ∧ (toyota.missing (environ E) = [] →
     let σ0 := with_logged (logged σ ++ [INFO "Starting one-time check..."]) σ in
     let run := toyota.run_check E false σ0 in
     match run.1 with
     | Ok r =>
         toyota.main E σ
         = (Ok None,
            with_logged
              (logged run.2 ++ [INFO ("Check completed: " +:+ repr_result r)])
              run.2)
     | Raise e => toyota.main E σ = (Raise e, run.2)
     end)
  ∧ (unset (environ E) (token_var Toyota) ∨ unset (environ E) (chat_var Toyota) →
     outbox (toyota.main E σ).2 = outbox σ).
Proof.
  split; [apply toyota_missing_nil|].
  split; [|split].
  - intros Hne. unfold toyota.main.
    by destruct (toyota.missing (environ E)).
  - intros Hnil σ0 run. unfold toyota.main. rewrite Hnil.
    unfold bind. cbn [logger]. fold σ0. fold run.
    by destruct run as [[r|e] σ1].
  - intros Hun. unfold toyota.main.
    destruct (toyota.missing (environ E)); [|done].
    unfold bind. cbn [logger].
    set (σ0 := with_logged _ σ).
    pose proof (run_outbox_unconfigured Toyota E false σ0 Hun) as Ho.
    unfold run_check in Ho.
    by destruct (toyota.run_check E false σ0) as [[r|e] σ1].
Qed.

(** The start-up check passed, and the run found two new listings and
    sent nothing: the variables with the suffix are not set. *)
Example toyota_main_unconfigured :
  let E := env_serving environ_lexus_only [lot_listing "A"; lot_listing "B"] in
  let r := toyota.main E (state_seen []) in
  toyota.missing (environ E) = []
  ∧ r.1 = Ok None ∧ outbox r.2 = []
  ∧ last (logged r.2)
    = Some (INFO "Check completed: {'sent': 0, 'reason': 'new_listings', 'new_count': 2, 'total': 2}").
Proof. vm_compute. repeat split. Qed.

(** *** The head and the foot of a message *)

Lemma title_shown_exists l :
  ∃ t, title_shown l t
       ∧ py_str (py_or (get l "name_long") (get_or l "name" "Unknown")) = t.
Proof.
  unfold title_shown, py_or, get_or.
  destruct (truthy (get l "name_long")) eqn:Hlong.
  - eexists. split; [left; by split|done].
  - destruct (l !! "name") as [v|] eqn:Hn; simpl.
    + exists (py_str v). split; [|done]. right. split; [done|]. left. eauto.
    + exists "Unknown". split; [|done]. right. split; [done|]. by right.
Qed.

(** X18: the head and the foot of a message, for every listing that can
    be formatted. The first line is the prefix of the profile. The
    title is the long name when it is non-empty; else it is the name
    whenever the listing has the attribute, even empty or null; it is
    Unknown only without the attribute. The last line links to the page
    of the lot. An attribute that is there with the value null is shown
    as the word None, not as N/A. *)
Theorem format_head_and_foot G l :
  name_ok l →
  ∃ lines t,
    listing_lines G l = Ok lines
    ∧ head lines = Some (TELEGRAM_MESSAGE_PREFIX G)
    ∧ lines !! 1 = Some ""
    ∧ title_shown l t
    ∧ lines !! 2 = Some ("<b>" +:+ t +:+ "</b>")
    ∧ lines !! 3 = Some ""
    ∧ last lines
      = Some ("🔗 <a href=" +:+ DQ +:+ "https://bid.cars/en/lot/" +:+ shown l "lot"
              +:+ DQ +:+ ">View on Bid.cars</a>")
    ∧ (∀ k, l !! k = Some VNone → shown l k = "None").
Proof.
  intros Hname. destruct (name_ok_year l Hname) as (y & Hy & _).
  destruct (title_shown_exists l) as (t & Ht & Heq).
  unfold listing_lines. rewrite Hy, Heq, !get_or_shown.
  destruct (truthy (get l "final_bid_formatted"));
    (eexists _, t; split; [reflexivity|];
     repeat (split; [done|]);
     intros k Hk; unfold shown; by rewrite Hk).
Qed.

Lemma format_head_and_foot_witness :
  let l : listing := {[ "name" := VNone; "lot" := VStr "1-234" ]} in
  ∃ lines,
    listing_lines (flask_app.G ∅) l = Ok lines
    ∧ lines !! 2 = Some "<b>None</b>".
Proof.
  intros l.
  destruct (format_head_and_foot (flask_app.G ∅) l)
    as (lines & t & Hlines & _ & _ & Ht & H2 & _).
  { left. reflexivity. }
  exists lines. split; [exact Hlines|].
  destruct Ht as [[Hlong _]|[_ [(v & Hv & ->)|[Hn _]]]].
  - vm_compute in Hlong. discriminate.
  - vm_compute in Hv. injection Hv as <-. exact H2.
  - vm_compute in Hn. discriminate.
Defined.

(** *** Fetching *)

(** X19: [fetch_listings] asks the site once, for the URL of the profile,
    and touches nothing else. It returns the [data] of the payload
    exactly when the site answers with status 200 and a JSON object
    that has this field; in every other case (no answer, another
    status whatever the body, a body that is not JSON, an object
    without [data]) it raises. *)
Theorem fetch_listings_spec E G σ :
  (fetch_listings E G σ).2 = with_site_log (site_log σ ++ [request_url G]) σ
  ∧ (∀ data,
       (fetch_listings E G σ).1 = Ok data
       ↔ ∃ payload,
           site E (request_url G) (length (site_log σ))
           = SiteResponse 200 (Payload payload)
           ∧ payload !! "data" = Some data)
  ∧ ((∀ data, (fetch_listings E G σ).1 ≠ Ok data)
     → ∃ e, (fetch_listings E G σ).1 = Raise e).
Proof.
  split; [apply fetch_state|]. split.
  - intros data. unfold fetch_listings.
    destruct (site E (request_url G) (length (site_log σ))) as [|status body].
    { split; [done|]. by intros (? & ? & _). }
    destruct (status =? 200)%nat eqn:Hst; simpl.
    2:{ split; [done|]. intros (? & [= -> _] & _). done. }
    apply Nat.eqb_eq in Hst as ->.
    destruct body as [|payload].
    { split; [done|]. by intros (? & ? & _). }
    case_bool_decide as Hp.
    { split; [done|]. intros (? & [= <-] & Hd). by rewrite Hp in Hd. }
    destruct (payload !! "data") as [d|] eqn:Hd; simpl.
    + split.
      * intros [= <-]. eauto.
      * intros (? & [= <-] & Hd'). congruence.
    + split; [done|]. intros (? & [= <-] & Hd'). congruence.
  - intros Hno. destruct (fetch_listings E G σ).1 as [data|e]; [|eauto].
    by destruct (Hno data).
Qed.

(** *** The store client *)

(** X20: an addition followed by a listing. When the store answers and
    the key holds a set or nothing, [sadd] of a non-empty list returns
    the number of members that are new, and [smembers] then returns
    the former members and the added ones; no other key has changed,
    and the same addition once more changes nothing. *)
Theorem sadd_then_smembers E self k vs σ :
  healthy E → usable (redis σ) k → vs ≠ [] →
  ∃ σ1 σ2,
    sadd E self k vs σ
    = (Ok (RInt (size (list_to_set vs ∖ members (redis σ) k : gset string))), σ1)
    ∧ smembers E self k σ1 = (Ok (members (redis σ) k ∪ list_to_set vs), σ2)
    ∧ redis σ2 = redis σ1
    ∧ (∀ k', k' ≠ k → redis σ2 !! k' = redis σ !! k')
    ∧ redis (sadd E self k vs σ2).2 = redis σ2.
Proof.
  intros Hnet Hu Hvs.
  assert (Hadd : sadd E self k vs σ
            = (Ok (RInt (size (list_to_set vs ∖ members (redis σ) k : gset string))),
               with_redis (db_add (redis σ) k vs)
                 (with_redis_log (redis_log σ ++ [SADD k vs]) σ))).
  { unfold sadd, db_add, members. destruct vs as [|v vs]; [done|].
    destruct (redis σ !! k) as [[s|m]|] eqn:Hk.
    - by destruct (Hu s).
    - apply request_answered; [done|]. simpl. by rewrite Hk.
    - erewrite request_answered; [|done|simpl; by rewrite Hk].
      by rewrite (left_id_L ∅ (∪)), difference_empty_L. }
  set (σ1 := with_redis _ _) in Hadd.
  assert (Hu1 : usable (redis σ1) k) by (by apply usable_db_add).
  pose proof (smembers_answered E Hnet self k σ1 Hu1) as Hmem.
  set (σ2 := with_redis _ _) in Hmem.
  exists σ1, σ2. split; [done|]. split.
  { rewrite Hmem. subst σ1. simpl. by rewrite members_db_add. }
  split; [done|]. split.
  { intros k' Hne. subst σ2 σ1. simpl. unfold db_add.
    by rewrite lookup_insert_ne. }
  destruct (sadd_answered E Hnet self k vs σ2) as (r & ->); [done..|].
  subst σ2 σ1. simpl. unfold db_add at 1. rewrite members_db_add.
  rewrite <- (assoc_L (∪)), (idemp_L (∪)). unfold db_add.
  apply insert_insert_eq.
Qed.

Lemma sadd_then_smembers_witness :
  let E := env_serving environ_full [] in
  let self := {| url := "https://example.upstash.io"; token := "secret" |} in
  ∃ σ1 σ2,
    sadd E self "bidcars:seen-lots" ["B"; "A"; "B"] (state_seen ["A"])
    = (Ok (RInt 1), σ1)
    ∧ smembers E self "bidcars:seen-lots" σ1 = (Ok {[ "A"; "B" ]}, σ2).
Proof.
  intros E self.
  destruct (sadd_then_smembers E self "bidcars:seen-lots" ["B"; "A"; "B"]
              (state_seen ["A"]))
    as (σ1 & σ2 & Hadd & Hmem & _); [scenario..|done|].
  exists σ1, σ2. split.
  - rewrite Hadd. reflexivity.
  - rewrite Hmem. reflexivity.
Defined.

(** X21: a scalar set followed by an existence test. When the store
    answers, [set] returns OK and replaces whatever the key held, and
    [exists] then returns [True]; on a key that is not there, [exists]
    returns [False]; [exists] changes nothing. *)
Theorem set_then_exists E self k v σ :
  healthy E →
  ∃ σ1 σ2,
    set E self k v σ = (Ok (RStatus "OK"), σ1)
    ∧ redis σ1 = <[k := RString v]> (redis σ)
    ∧ exists_ E self k σ1 = (Ok true, σ2)
    ∧ redis σ2 = redis σ1
    ∧ ∀ k', (exists_ E self k' σ).1 = Ok (bool_decide (is_Some (redis σ !! k')))
            ∧ redis (exists_ E self k' σ).2 = redis σ.
Proof.
  intros Hnet. rewrite (set_answered E Hnet).
  eexists _, _. split; [reflexivity|]. split; [done|].
  rewrite (exists_answered E Hnet). simpl. rewrite lookup_insert_eq.
  split; [by rewrite bool_decide_true by eauto|]. split; [done|].
  intros k'. by rewrite (exists_answered E Hnet).
Qed.

Lemma set_then_exists_witness :
  let E := env_serving environ_full [] in
  let self := {| url := "https://example.upstash.io"; token := "secret" |} in
  (exists_ E self "bidcars:seen-initialized" state_fresh).1 = Ok false
  ∧ ∃ σ1 σ2,
      set E self "bidcars:seen-initialized" "1" state_fresh = (Ok (RStatus "OK"), σ1)
      ∧ exists_ E self "bidcars:seen-initialized" σ1 = (Ok true, σ2).
Proof.
  intros E self.
  destruct (set_then_exists E self "bidcars:seen-initialized" "1" state_fresh)
    as (σ1 & σ2 & Hset & _ & Hex & _ & Hany); [scenario|].
  split.
  - rewrite (proj1 (Hany "bidcars:seen-initialized")). reflexivity.
  - by exists σ1, σ2.
Defined.

(** X22: what the client does with a refusal. Whatever happens to the
    request on its way, [smembers] and [sadd] on a key that holds a
    string raise, and so does [sadd] without a value on any key: the
    store is left as it was, and the request is in the log. *)
Theorem client_refusals E self k σ :
  (∀ s, redis σ !! k = Some (RString s) →
     (∃ e σ', smembers E self k σ = (Raise e, σ') ∧ redis σ' = redis σ)
     ∧ ∀ vs, ∃ e σ', sadd E self k vs σ = (Raise e, σ') ∧ redis σ' = redis σ)
  ∧ ∃ e σ', sadd E self k [] σ = (Raise e, σ') ∧ redis σ' = redis σ
            ∧ redis_log σ' = redis_log σ ++ [SADD k []].
Proof.
  assert (Hreq : ∀ c err,
            redis_exec c (redis σ) = (inl err, redis σ) →
            ∃ e σ', _request E self c σ = (Raise e, σ') ∧ redis σ' = redis σ
                    ∧ redis_log σ' = redis_log σ ++ [c]).
  { intros c err Hx. unfold _request. rewrite Hx.
    destruct (redis_net E (length (redis_log σ))); by eexists _, _. }
  split.
  - intros s Hk. split.
    + destruct (Hreq (SMEMBERS k) WRONGTYPE) as (e & σ' & Hrun & Hr & _).
      { simpl. by rewrite Hk. }
      exists e, σ'. unfold smembers. by erewrite bind_raise by exact Hrun.
    + intros vs. destruct vs as [|v vs].
      * destruct (Hreq (SADD k []) "ERR wrong number of arguments for 'sadd' command")
          as (e & σ' & Hrun & Hr & _); [done|]. by exists e, σ'.
      * destruct (Hreq (SADD k (v :: vs)) WRONGTYPE) as (e & σ' & Hrun & Hr & _).
        { simpl. by rewrite Hk. }
        by exists e, σ'.
  - destruct (Hreq (SADD k []) "ERR wrong number of arguments for 'sadd' command")
      as (e & σ' & Hrun & Hr & Hl); [done|]. by exists e, σ'.
Qed.

(** *** The effort of a run *)

Lemma spent_refl σ : spent σ σ 0 0 0 0.
Proof. unfold spent. lia. Qed.

Lemma spent_trans σ σ1 σ2 f t c z f' t' c' z' :
  spent σ σ1 f t c z → spent σ1 σ2 f' t' c' z' →
  spent σ σ2 (f + f') (t + t') (c + c') (z + z').
Proof. unfold spent. lia. Qed.

Lemma spent_logged σ σ' l f t c z :
  spent σ σ' f t c z → spent σ (with_logged l σ') f t c z.
Proof. done. Qed.

Lemma request_spent E self c σ :
  ends (_request E self c) σ (λ _ σ', spent σ σ' 0 0 1 0).
Proof.
  eapply ends_weaken; [apply request_ends|].
  intros r σ' (Hl & Ho & Hs & _ & Hz & _). unfold spent.
  rewrite Hl, Ho, Hs, Hz, length_app. simpl. lia.
Qed.

Lemma exists_spent E self k σ :
  ends (exists_ E self k) σ (λ _ σ', spent σ σ' 0 0 1 0).
Proof.
  eapply ends_weaken; [apply exists_ends|].
  intros r σ' (_ & Hl & Ho & Hs & _ & Hz & _). unfold spent.
  rewrite Hl, Ho, Hs, Hz, length_app. simpl. lia.
Qed.

Lemma smembers_spent E self k σ :
  ends (smembers E self k) σ (λ _ σ', spent σ σ' 0 0 1 0).
Proof.
  eapply ends_weaken; [apply smembers_ends|].
  intros r σ' (_ & Hl & Ho & Hs & _ & Hz & _). unfold spent.
  rewrite Hl, Ho, Hs, Hz, length_app. simpl. lia.
Qed.

Lemma fetch_spent E G σ : spent σ (fetch_listings E G σ).2 1 0 0 0.
Proof. rewrite fetch_state. unfold spent. simpl. rewrite length_app. simpl. lia. Qed.

(** The loop: a call for each listing at most, an addition for each
    call at most, a pause for each addition at most. *)
Lemma notify_spent E G self ls sent σ :
  ends (notify E G self ls sent) σ (λ _ σ',
    ∃ t c z, spent σ σ' 0 t c z
             ∧ (t ≤ length ls)%nat ∧ (c ≤ t)%nat ∧ (z ≤ c)%nat).
Proof.
  revert sent σ. induction ls as [|l rest IH]; intros sent σ.
  { unfold ends. simpl. exists 0, 0, 0. split; [apply spent_refl|lia]. }
  cbn [notify]. destruct (truthy (get l "lot")); cbn [negb].
  2:{ eapply ends_weaken; [apply IH|].
      intros r σ' (t & c & z & Hsp & ?). exists t, c, z. split; [done|].
      simpl. lia. }
  apply ends_bind. unfold ends at 1, lift. cbn [fst snd].
  destruct (format_listing_message G l) as [text|e].
  2:{ exists 0, 0, 0. split; [apply spent_refl|simpl; lia]. }
  apply ends_bind.
  destruct (send_spec E G text σ) as (σ1 & Hsend & Hr1 & Hl1 & Hs1 & Hz1 & Ho1 & _).
  unfold ends at 1. rewrite Hsend. cbn [fst snd].
  assert (H1 : ∃ t1, spent σ σ1 0 t1 0 0 ∧ (t1 ≤ 1)%nat
                     ∧ (configured G = true → t1 = 1)).
  { unfold spent. rewrite Hl1, Hs1, Hz1, Ho1.
    destruct (configured G); [exists 1|exists 0];
      rewrite ?length_app; simpl; (split; [lia|]); (split; [lia|done]). }
  destruct H1 as (t1 & H1 & Ht1 & Hcfg).
  destruct (configured G && acknowledged (telegram E (length (outbox σ)))) eqn:Hb.
  - apply andb_true_iff in Hb as [Hc _]. specialize (Hcfg Hc). subst t1.
    apply ends_bind. unfold sadd.
    eapply ends_weaken; [apply request_spent|].
    intros [v|e] σ2 H2.
    2:{ exists 1, 1, 0. split; [apply (spent_trans _ _ _ _ _ _ _ _ _ _ _ H1 H2)|].
        simpl. lia. }
    apply ends_bind. unfold ends at 1. cbn [sleep_half_second fst snd].
    eapply ends_weaken; [apply IH|].
    intros r σ' (t & c & z & Hsp & ? & ? & ?).
    exists (1 + t), (1 + c), (1 + z). split; [|simpl; lia].
    revert Hsp. unfold spent in *. simpl. lia.
  - eapply ends_weaken; [apply IH|].
    intros r σ' (t & c & z & Hsp & ? & ? & ?).
    exists (t1 + t), c, z. split; [|simpl; lia].
    apply (spent_trans _ _ _ _ _ _ _ _ _ _ _ H1 Hsp).
Qed.

Lemma both_spent G verbose E dry_run σ :
  ends (run_check_both G verbose E dry_run) σ (λ _ σ',
    ∃ f t c z, spent σ σ' f t c z
               ∧ (f ≤ 1)%nat ∧ (t ≤ length (snapshot E G σ))%nat
               ∧ (c ≤ 3 + t)%nat ∧ (z ≤ t)%nat).
Proof.
  unfold run_check_both.
  apply ends_log_and_reraise, ends_bind.
  unfold ends at 1.
  pose proof (get_redis_client_state G σ) as H0.
  destruct (get_redis_client G σ) as [[self|e] σ0]; simpl in H0; subst σ0;
    cbn [fst snd].
  2:{ exists 0, 0, 0, 0. split; [apply spent_logged, spent_refl|lia]. }
  apply ends_bind.
  pose proof (exists_spent E self (STORAGE_INIT_KEY G) σ) as H1.
  pose proof (exists_ends E self (STORAGE_INIT_KEY G) σ) as H1'.
  unfold ends in H1, H1' |- *.
  destruct (exists_ E self (STORAGE_INIT_KEY G) σ) as [[b|e] σ1];
    cbn [fst snd] in *.
  2:{ exists 0, 0, 1, 0. split; [by apply spent_logged|lia]. }
  destruct H1' as (_ & _ & _ & Hs1 & _).
  assert (Hsnap : ∀ σ2 listings,
            site_log σ2 = site_log σ1 →
            (fetch_listings E G σ2).1 = Ok listings →
            snapshot E G σ = listings).
  { intros σ2 listings Hs2 Hf. unfold snapshot.
    rewrite <- (fetch_outcome E G σ σ2) by congruence. by rewrite Hf. }
  destruct b; cbn [negb].
  - apply ends_bind.
    pose proof (fetch_spent E G σ1) as H2.
    pose proof (Hsnap σ1) as Hsnap1.
    unfold ends at 1.
    destruct (fetch_listings E G σ1) as [[listings|e] σ2]; cbn [fst snd] in *.
    2:{ exists 1, 0, 1, 0. split; [|lia].
        apply spent_logged, (spent_trans _ _ _ _ _ _ _ _ _ _ _ H1 H2). }
    rewrite (Hsnap1 listings) by done.
    apply ends_bind. unfold ends at 1. cbn [logger fst snd].
    apply ends_bind.
    match goal with |- ends (smembers E self ?k) ?s _ =>
      pose proof (smembers_spent E self k s) as H3; unfold ends in H3 |- *;
      destruct (smembers E self k s) as [[seen_lots|e] σ4]; cbn [fst snd] in *
    end.
    2:{ exists 1, 0, 2, 0. split; [|lia]. apply spent_logged.
        apply (spent_trans _ _ _ _ _ _ _ _ _ _ _ H1
                 (spent_trans _ _ _ _ _ _ _ _ _ _ _ H2 H3)). }
    assert (H4 : spent σ σ4 1 0 2 0).
    { apply (spent_trans _ _ _ _ _ _ _ _ _ _ _ H1
               (spent_trans _ _ _ _ _ _ _ _ _ _ _ H2 H3)). }
    clear H1 H2 H3.
    assert (Hlen : (length (new_listings_of listings seen_lots)
                    ≤ length listings)%nat).
    { apply sublist_length, new_listings_sublist. }
    apply ends_bind.
    assert (Hquiet : ∀ (m : string) σa (Q : res unit → state → Prop),
              (∀ σb, spent σa σb 0 0 0 0 → Q (Ok tt) σb) →
              ends (if verbose then logger (INFO m) else ret tt) σa Q).
    { intros m σa Q HQ.
      destruct verbose; unfold ends; apply HQ; unfold spent; simpl; lia. }
    apply Hquiet. intros σ5 H5.
    destruct (new_listings_of listings seen_lots) as [|l0 rest] eqn:Hdelta.
    { unfold ends. cbn [ret fst snd]. exists 1, 0, 2, 0. split; [|lia].
      apply (spent_trans _ _ _ _ _ _ _ _ _ _ _ H4 H5). }
    set (delta := l0 :: rest) in *. clearbody delta.
    apply ends_bind. apply Hquiet. intros σ6 H6.
    assert (H7 : spent σ σ6 1 0 2 0).
    { apply (spent_trans _ _ _ _ _ _ _ _ _ _ _ H4
               (spent_trans _ _ _ _ _ _ _ _ _ _ _ H5 H6)). }
    destruct dry_run.
    { unfold ends. cbn [ret fst snd]. exists 1, 0, 2, 0. split; [done|lia]. }
    apply ends_bind. eapply ends_weaken; [apply notify_spent|].
    intros r σ8 (t & c & z & H8 & ? & ? & ?).
    assert (H9 : spent σ σ8 1 t (2 + c) z).
    { apply (spent_trans _ _ _ _ _ _ _ _ _ _ _ H7 H8). }
    destruct r as [n|e].
    + unfold ends. cbn [ret fst snd]. exists 1, t, (2 + c), z. split; [done|lia].
    + exists 1, t, (2 + c), z. split; [by apply spent_logged|lia].
  - unfold bootstrap.
    apply ends_bind. unfold ends at 1. cbn [logger fst snd].
    apply ends_bind.
    match goal with |- ends (fetch_listings E G) ?s _ =>
      pose proof (fetch_spent E G s) as H2; pose proof (Hsnap s) as Hsnap1;
      unfold ends at 1;
      destruct (fetch_listings E G s) as [[listings|e] σ2]; cbn [fst snd] in *
    end.
    2:{ exists 1, 0, 1, 0. split; [|lia].
        apply spent_logged, (spent_trans _ _ _ _ _ _ _ _ _ _ _ H1 H2). }
    assert (H3 : spent σ σ2 1 0 1 0).
    { apply (spent_trans _ _ _ _ _ _ _ _ _ _ _ H1 H2). }
    clear H1 H2.
    apply ends_bind.
    assert (Hadd : ∀ Q : res reply → state → Prop,
              (∀ r σ3 c, spent σ2 σ3 0 0 c 0 → (c ≤ 1)%nat → Q r σ3) →
              ends (if bool_decide (bootstrap_lots listings ≠ ∅)
                    then sadd E self (STORAGE_SEEN_KEY G)
                           (elements (bootstrap_lots listings))
                    else ret (RInt 0)) σ2 Q).
    { intros Q HQ. destruct (bool_decide _).
      - unfold sadd. eapply ends_weaken; [apply request_spent|].
        intros r σ3 Hsp. by apply (HQ r σ3 1).
      - unfold ends. apply (HQ _ _ 0); [apply spent_refl|lia]. }
    apply Hadd. intros r σ3 c H4 Hc.
    assert (H5 : spent σ σ3 1 0 (1 + c) 0).
    { apply (spent_trans _ _ _ _ _ _ _ _ _ _ _ H3 H4). }
    destruct r as [v|e].
    2:{ exists 1, 0, (1 + c), 0. split; [by apply spent_logged|lia]. }
    apply ends_bind. unfold set.
    eapply ends_weaken; [apply request_spent|].
    intros r σ4 H6.
    assert (H7 : spent σ σ4 1 0 (1 + c + 1) 0).
    { apply (spent_trans _ _ _ _ _ _ _ _ _ _ _ H5 H6). }
    destruct r as [v'|e].
    + unfold ends. cbn [ret fst snd]. exists 1, 0, (1 + c + 1), 0.
      split; [done|lia].
    + exists 1, 0, (1 + c + 1), 0. split; [by apply spent_logged|lia].
Qed.

(** X23: the effort of one run, whatever the remote parties do and
    however the run ends: at most one fetch; at most one call to
    Telegram for each listing of the snapshot; at most three commands
    to the store beside one for each call; at most one pause for each
    call. Nothing is tried twice within a run. *)
Theorem run_effort p E dry_run σ :
  ∃ f t c z,
    spent σ (run_check p E dry_run σ).2 f t c z
    ∧ (f ≤ 1)%nat
    ∧ (t ≤ length (snapshot E (globals_of p (environ E)) σ))%nat
    ∧ (c ≤ 3 + t)%nat ∧ (z ≤ t)%nat.
Proof. rewrite run_check_both_eq. apply both_spent. Qed.
